(** * cld3-docker: the caching request gateway of the language-detection service

    A shallow embedding of [server.js] (the digest-key server) and of its
    sibling server file (the exact-key server): the tiny LRU class built on
    a JavaScript [Map], the FNV-1a hash used for cache keys, the
    [POST /classify] handler and the start-up sequence of the module.

    JavaScript strings are sequences of UTF-16 code units, numbers that the
    program uses as counts are integers, and the handler threads the
    process-wide state (detector handle, cache) explicitly. *)

From Stdlib Require Import String Ascii.
From Stdlib Require Import ZArith List Bool Lia.
From Stdlib Require Import Floats.SpecFloat.
From Stdlib Require DecimalString DecimalPos DecimalZ.
Import ListNotations.
Local Open Scope Z_scope.

(** ** JavaScript strings and 32-bit integer operations *)

Module JS.

(** A string is the list of its UTF-16 code units. *)
Definition jsstring : Type := list Z.

(** A string literal of the source (ASCII only). *)
Definition lit (s : string) : jsstring :=
  List.map (fun a => Z.of_N (N_of_ascii a)) (list_ascii_of_string s).

(** [s.length] *)
Definition length (s : jsstring) : Z := Z.of_nat (List.length s).

(** [a === b] on strings. *)
Fixpoint str_eqb (a b : jsstring) : bool :=
  match a, b with
  | [], [] => true
  | x :: a', y :: b' => (x =? y) && str_eqb a' b'
  | _, _ => false
  end.

(** WhiteSpace and LineTerminator code units, the ones [trim] strips. *)
Definition is_white_space (c : Z) : bool :=
  (c =? 9) || (c =? 10) || (c =? 11) || (c =? 12) || (c =? 13)
  || (c =? 32) || (c =? 160) || (c =? 5760)
  || ((8192 <=? c) && (c <=? 8202))
  || (c =? 8232) || (c =? 8233) || (c =? 8239) || (c =? 8287)
  || (c =? 12288) || (c =? 65279).

Fixpoint trimStart (s : jsstring) : jsstring :=
  match s with
  | [] => []
  | c :: s' => if is_white_space c then trimStart s' else s
  end.

Definition trimEnd (s : jsstring) : jsstring := rev (trimStart (rev s)).

(** [s.trim()] *)
Definition trim (s : jsstring) : jsstring := trimEnd (trimStart s).

(** [s.slice(0, e)]: a negative end counts from the end of the string. *)
Definition slice0 (s : jsstring) (e : Z) : jsstring :=
  let len := length s in
  let to := if e <? 0 then Z.max (len + e) 0 else Z.min e len in
  firstn (Z.to_nat to) s.

(** [`${n}`] for an integer [n]: its decimal digits. *)
Definition toString (n : Z) : jsstring :=
  lit (DecimalString.NilZero.string_of_int (Z.to_int n)).

(** [ToUint32], which is also [n >>> 0]. *)
Definition ToUint32 (n : Z) : Z := n mod 2 ^ 32.

(** [ToInt32]: wrap into the signed 32-bit range. *)
Definition ToInt32 (n : Z) : Z :=
  let u := n mod 2 ^ 32 in
  if 2 ^ 31 <=? u then u - 2 ^ 32 else u.

(** [a ^ b] *)
Definition xor (a b : Z) : Z := ToInt32 (Z.lxor (ToInt32 a) (ToInt32 b)).

(** [Math.imul(a, b)] *)
Definition imul (a b : Z) : Z := ToInt32 (ToInt32 a * ToInt32 b).

End JS.

Import JS.

(** ** The insertion-ordered [Map] of JavaScript

    Entries are kept oldest insertion first; a key occurs at most once. *)

Section JsMap.

Variable V : Type.

Definition Map : Type := list (jsstring * V).

Definition Map_keys (m : Map) : list jsstring := List.map fst m.

(** [m.get(key)]; [None] is [undefined]. *)
Fixpoint Map_get (key : jsstring) (m : Map) : option V :=
  match m with
  | [] => None
  | (k, v) :: m' => if str_eqb key k then Some v else Map_get key m'
  end.

(** [m.has(key)] *)
Definition Map_has (key : jsstring) (m : Map) : bool :=
  existsb (fun e => str_eqb key (fst e)) m.

(** [m.delete(key)] *)
Definition Map_delete (key : jsstring) (m : Map) : Map :=
  filter (fun e => negb (str_eqb key (fst e))) m.

(** [m.set(key, val)]: a present key keeps its position, a new key goes
    to the end. *)
Fixpoint Map_set (key : jsstring) (val : V) (m : Map) : Map :=
  match m with
  | [] => [(key, val)]
  | (k, v) :: m' =>
      if str_eqb key k then (k, val) :: m' else (k, v) :: Map_set key val m'
  end.

(** [m.size] *)
Definition Map_size (m : Map) : Z := Z.of_nat (List.length m).

(** [m.keys().next().value]; [None] is [undefined], on an empty map. *)
Definition Map_first_key (m : Map) : option jsstring :=
  match m with
  | [] => None
  | (k, _) :: _ => Some k
  end.

End JsMap.

Arguments Map_keys {V} m.

(** Removing the key [k] from a list of keys. *)
Definition without (k : jsstring) (ks : list jsstring) : list jsstring :=
  filter (fun x => negb (str_eqb k x)) ks.

Arguments Map_get {V} key m.
Arguments Map_has {V} key m.
Arguments Map_delete {V} key m.
Arguments Map_set {V} key val m.
Arguments Map_size {V} m.
Arguments Map_first_key {V} m.

(** ** class LRU *)

Module LRU.

Section WithValues.

(** The values stored are objects, never [undefined]: [undefined] is what
    [get] answers for an absent key. *)
Variable V : Type.

(** [max] is [CACHE_MAX], a number of entries. *)
Record t : Type := { max : Z; map : Map V }.

(** [new LRU(max)] *)
Definition new (mx : Z) : t := {| max := mx; map := [] |}.

(** [get(key)]: the value returned and the cache afterwards. *)
Definition get (key : jsstring) (c : t) : option V * t :=
  match Map_get key (map c) with
  | None => (None, c)
  | Some v =>
      (Some v,
       {| max := max c; map := Map_set key v (Map_delete key (map c)) |})
  end.

(** [set(key, val)] *)
Definition set (key : jsstring) (val : V) (c : t) : t :=
  if max c <=? 0 then c
  else
    let m1 := if Map_has key (map c) then Map_delete key (map c)
              else map c in
    let m2 := Map_set key val m1 in
    if Map_size m2 >? max c then
      {| max := max c;
         map := match Map_first_key m2 with
                | Some firstKey => Map_delete firstKey m2
                | None => m2
                end |}
    else {| max := max c; map := m2 |}.

(** A sequence of calls on one cache. *)
Inductive Op : Type :=
| OpGet (key : jsstring)
| OpSet (key : jsstring) (val : V).

Definition step (c : t) (o : Op) : t :=
  match o with
  | OpGet key => snd (get key c)
  | OpSet key val => set key val c
  end.

Definition run (ops : list Op) (c : t) : t := fold_left step ops c.

(** The key an operation accesses: a [get] that hits, or a [set] on an
    enabled cache. *)
Definition touched (c : t) (o : Op) : option jsstring :=
  match o with
  | OpGet key => if Map_has key (map c) then Some key else None
  | OpSet key _ => if max c <=? 0 then None else Some key
  end.

(** The accesses made by [ops] from [c], most recent first, in front of
    the earlier accesses [h]. *)
Fixpoint history (h : list jsstring) (ops : list Op) (c : t)
  : list jsstring :=
  match ops with
  | [] => h
  | o :: ops' =>
      history (match touched c o with Some k => k :: h | None => h end)
              ops' (step c o)
  end.

(** How many accesses ago [key] was last accessed. *)
Fixpoint age (h : list jsstring) (key : jsstring) : option nat :=
  match h with
  | [] => None
  | k :: h' => if str_eqb key k then Some O
               else option_map S (age h' key)
  end.

(** [a] was last accessed strictly before [b] was. *)
Definition less_recent (h : list jsstring) (a b : jsstring) : Prop :=
  exists na nb, age h a = Some na /\ age h b = Some nb /\ (nb < na)%nat.

(** The keys [ks] are listed from the least to the most recently
    accessed, and each of them was accessed. *)
Definition ordered (h : list jsstring) (ks : list jsstring) : Prop :=
  ForallOrdPairs (less_recent h) ks /\ Forall (fun k => In k h) ks.

(** What holds of a cache after the accesses [h]. *)
Definition inv (h : list jsstring) (c : t) : Prop :=
  ordered h (Map_keys (map c))
  /\ (1 <= max c -> Map_size (map c) <= max c)
  /\ (max c <= 0 -> map c = []).

End WithValues.

Arguments max {V} _.
Arguments map {V} _.
Arguments new {V} mx.
Arguments get {V} key c.
Arguments set {V} key val c.
Arguments OpGet {V} key.
Arguments OpSet {V} key val.
Arguments step {V} c o.
Arguments run {V} ops c.
Arguments touched {V} c o.
Arguments history {V} h ops c.
Arguments inv {V} h c.

End LRU.

(** ** fnv1a *)

(** The loop of [fnv1a], from index [0] to [str.length - 1]. *)
Definition fnv1a_loop (str : jsstring) (h0 : Z) : Z :=
  fold_left (fun h c => imul (JS.xor h c) 16777619) str h0.

Definition fnv1a (str : jsstring) : Z :=
  ToUint32 (fnv1a_loop str 2166136261).

(** ** Requests, replies and the process-wide state *)

(** One language guess of the detector. *)
Record LanguageResult : Type := {
  language : jsstring;
  probability : spec_float;
  is_reliable : bool;
  proportion : spec_float
}.

(** The number [0]. *)
Definition zero : spec_float := S754_zero false.

(** The [cld3] field: one object, or an array of them. *)
Inductive Cld3 : Type :=
| Single (r : LanguageResult)
| Ranked (rs : list LanguageResult).

Record ClassificationResponse : Type := {
  input_len : Z;
  cld3 : Cld3
}.

Inductive Body : Type :=
| ErrorBody (error : jsstring)
| OkBody (ok : bool)
| ResponseBody (out : ClassificationResponse).

Record Reply : Type := { code : Z; body : Body }.

(** [reply.code(c).send(b)], and an object returned by a handler ([200]). *)
Definition send (c : Z) (b : Body) : Reply := {| code := c; body := b |}.
Definition returned (b : Body) : Reply := send 200 b.

(** The body of a [POST /classify] request that passed the route's schema:
    [text] is a string, [topN] an optional integer. *)
Record Request : Type := {
  text : jsstring;
  topN : option Z
}.

(** [req.body.topN || 1] *)
Definition topN_or_1 (req : Request) : Z :=
  match topN req with
  | Some n => if n =? 0 then 1 else n
  | None => 1
  end.

(** The language identifier created by [factory.create]: an object with its
    own state and the two methods the handler calls. *)
Class Detector (I : Type) : Type := {
  findLanguage : I -> jsstring -> LanguageResult * I;
  findMostFrequentLanguages : I -> jsstring -> Z -> list LanguageResult * I
}.

(** What a handler did to the cache and to the detector, in order. *)
Inductive Event : Type :=
| EvCacheGet (key : jsstring)
| EvCacheSet (key : jsstring)
| EvFindLanguage (text : jsstring)
| EvFindMostFrequentLanguages (text : jsstring) (n : Z).

Definition is_detector_call (e : Event) : bool :=
  match e with
  | EvFindLanguage _ | EvFindMostFrequentLanguages _ _ => true
  | _ => false
  end.

Definition detector_calls (tr : list Event) : list Event :=
  filter is_detector_call tr.

(** The text handed to the detector by an event, if it is a detector call. *)
Definition detector_text (e : Event) : option jsstring :=
  match e with
  | EvFindLanguage t | EvFindMostFrequentLanguages t _ => Some t
  | _ => None
  end.

(** The module-level variables [identifier] and [cache], and the record of
    the calls made so far. *)
Record State (I : Type) : Type := {
  identifier : option I;
  cache : LRU.t ClassificationResponse;
  trace : list Event
}.

Arguments identifier {I} _.
Arguments cache {I} _.
Arguments trace {I} _.

(** The record returned for a text that is too short. *)
Definition und : LanguageResult :=
  {| language := lit "und"; probability := zero;
     is_reliable := false; proportion := zero |}.

(** The call to the detector, shared by both handlers: [findLanguage] for
    [topN === 1], else [findMostFrequentLanguages]. *)
Definition detect {I} `{Detector I} (idf : I) (text : jsstring) (n : Z)
  : Cld3 * I * Event :=
  if n =? 1 then
    let (r, idf') := findLanguage idf text in
    (Single r, idf', EvFindLanguage text)
  else
    let (rs, idf') := findMostFrequentLanguages idf text n in
    (Ranked rs, idf', EvFindMostFrequentLanguages text n).

(** ** The routes and the life of the process

    Both server files register the same three routes and the same shutdown
    handler; they differ in the handler of [POST /classify]. *)

(** The result of a call that may throw, or of a promise that may reject. *)
Inductive Outcome (A : Type) : Type :=
| Returned (a : A)
| Thrown.

Arguments Returned {A} a.
Arguments Thrown {A}.

(** The factory resolved by [loadModule()]. *)
Record Factory (I : Type) : Type := {
  create : Z -> Z -> Outcome I
}.

Arguments create {I} _ _ _.

(** What the start of the module depends on: whether each registration of
    a plugin resolves, what [loadModule()] resolves to, and whether
    [app.listen] resolves. *)
Record World (I : Type) : Type := {
  helmet : bool;
  compress : bool;
  rateLimit : bool;
  loadModule : Outcome (Factory I);
  listen : bool
}.

Arguments helmet {I} _.
Arguments compress {I} _.
Arguments rateLimit {I} _.
Arguments loadModule {I} _.
Arguments listen {I} _.

Inductive Phase : Type :=
| Crashed      (* the evaluation of the module threw *)
| Listening    (* [app.listen] has resolved *)
| Closing      (* [shutdown] waits for [app.close()] *)
| Exited.      (* [process.exit(0)] *)

Record Process (I : Type) : Type := {
  phase : Phase;
  state : State I
}.

Arguments phase {I} _.
Arguments state {I} _.

(** Requests are served once the server listens, and while it drains. *)
Definition serving (ph : Phase) : bool :=
  match ph with
  | Listening | Closing => true
  | Crashed | Exited => false
  end.

Inductive Route : Type :=
| GetHealth
| GetReady
| PostClassify (req : Request).

Inductive Label : Type :=
| Served (r : Route) (reply : Reply)
| Signal
| Exit.

Section Service.

Context {I : Type}.

(** The handler of [POST /classify] of the server file at hand. *)
Variable classify : Request -> State I -> Reply * State I.

(** [initDetector()] *)
Definition initDetector (min_bytes max_bytes : Z) (w : World I) (s : State I)
  : Outcome (State I) :=
  match loadModule w with
  | Thrown => Thrown
  | Returned factory =>
      match create factory min_bytes max_bytes with
      | Thrown => Thrown
      | Returned idf =>
          Returned {| identifier := Some idf; cache := cache s;
                      trace := trace s |}
      end
  end.

(** [GET /health] *)
Definition health (s : State I) : Reply * State I :=
  (returned (OkBody true), s).

(** [GET /ready] *)
Definition ready (s : State I) : Reply * State I :=
  match identifier s with
  | None => (send 503 (OkBody false), s)
  | Some _ => (returned (OkBody true), s)
  end.

Definition handle (r : Route) (s : State I) : Reply * State I :=
  match r with
  | GetHealth => health s
  | GetReady => ready s
  | PostClassify req => classify req s
  end.

(** One event in the life of the process: a request is served, a
    termination signal starts [shutdown], or [shutdown] reaches
    [process.exit(0)] after disposing of the detector. *)
Inductive step : Process I -> Label -> Process I -> Prop :=
| step_served (p : Process I) (r : Route) :
    serving (phase p) = true ->
    step p (Served r (fst (handle r (state p))))
         {| phase := phase p; state := snd (handle r (state p)) |}
| step_signal (p : Process I) :
    serving (phase p) = true ->
    step p Signal {| phase := Closing; state := state p |}
| step_exit (p : Process I) :
    phase p = Closing ->
    step p Exit {| phase := Exited; state := state p |}.

(** The processes that come after [p0]. *)
Inductive reachable (p0 : Process I) : Process I -> Prop :=
| reachable_start : reachable p0 p0
| reachable_step (p p' : Process I) (l : Label) :
    reachable p0 p -> step p l p' -> reachable p0 p'.

End Service.

(** ** server.js: the digest-key server *)

Module DigestKey.

Record Config : Type := {
  CACHE_MAX : Z;
  MIN_LEN : Z;
  MAX_INPUT_CHARS : Z;
  RATE_LIMIT_MAX : Z;
  CLD_MIN_BYTES : Z;
  CLD_MAX_BYTES : Z
}.

(** The values used when the environment sets nothing. *)
Definition defaults : Config :=
  {| CACHE_MAX := 5000; MIN_LEN := 10; MAX_INPUT_CHARS := 4000;
     RATE_LIMIT_MAX := 0; CLD_MIN_BYTES := 0; CLD_MAX_BYTES := 1000 |}.

(** [raw.trim().slice(0, MAX_INPUT_CHARS)] *)
Definition normalize (cfg : Config) (raw : jsstring) : jsstring :=
  slice0 (trim raw) (MAX_INPUT_CHARS cfg).

(** [`${topN}:${fnv1a(text)}:${text.length}`] *)
Definition cache_key (n : Z) (text : jsstring) : jsstring :=
  toString n ++ lit ":" ++ toString (fnv1a text) ++ lit ":"
    ++ toString (length text).

(** The condition of the fast-fail branch. *)
Definition too_short (cfg : Config) (text : jsstring) : bool :=
  (MIN_LEN cfg >? 0) && (length text <? MIN_LEN cfg).

Section Handler.

Context {I : Type} `{Detector I}.

(** The handler of [POST /classify]. *)
Definition classify (cfg : Config) (req : Request) (s : State I)
  : Reply * State I :=
  match identifier s with
  | None => (send 503 (ErrorBody (lit "Detector not ready yet.")), s)
  | Some idf =>
      let n := topN_or_1 req in
      let raw := text req in
      let text := normalize cfg raw in
      match text with
      | [] => (send 400 (ErrorBody (lit "Empty 'text'.")), s)
      | _ =>
          if too_short cfg text then
            (returned (ResponseBody
               {| input_len := length text;
                  cld3 := if n =? 1 then Single und else Ranked [] |}),
             s)
          else
            let key := cache_key n text in
            let (hit, cache1) := LRU.get key (cache s) in
            let tr1 := trace s ++ [EvCacheGet key] in
            match hit with
            | Some out =>
                (returned (ResponseBody out),
                 {| identifier := Some idf; cache := cache1;
                    trace := tr1 |})
            | None =>
                let '(result, idf', ev) := detect idf text n in
                let out := {| input_len := length text;
                              cld3 := result |} in
                (returned (ResponseBody out),
                 {| identifier := Some idf';
                    cache := LRU.set key out cache1;
                    trace := tr1 ++ [ev; EvCacheSet key] |})
            end
      end
  end.

(** The statements of the module, from top to bottom, up to the last one,
    [await app.listen(...)]. *)
Definition main (cfg : Config) (w : World I) : Process I :=
  let s0 := {| identifier := None; cache := LRU.new (CACHE_MAX cfg);
               trace := [] |} in
  if negb (helmet w) then {| phase := Crashed; state := s0 |}
  else if (RATE_LIMIT_MAX cfg >? 0) && negb (rateLimit w) then
    {| phase := Crashed; state := s0 |}
  else
    match initDetector (CLD_MIN_BYTES cfg) (CLD_MAX_BYTES cfg) w s0 with
    | Thrown => {| phase := Crashed; state := s0 |}
    | Returned s1 =>
        if listen w then {| phase := Listening; state := s1 |}
        else {| phase := Crashed; state := s1 |}
    end.

End Handler.

End DigestKey.

(** ** The sibling server file: the exact-key server *)

Module ExactKey.

Record Config : Type := {
  CACHE_MAX : Z;
  MIN_LEN : Z;
  RATE_LIMIT_MAX : Z;
  CLD_MIN_BYTES : Z;
  CLD_MAX_BYTES : Z
}.

Definition defaults : Config :=
  {| CACHE_MAX := 5000; MIN_LEN := 10;
     RATE_LIMIT_MAX := 0; CLD_MIN_BYTES := 0; CLD_MAX_BYTES := 1000 |}.

(** [req.body.text.trim()] *)
Definition normalize (raw : jsstring) : jsstring := trim raw.

(** [topN === 1 ? text : `${topN}\u0000${text}`] *)
Definition cache_key (n : Z) (text : jsstring) : jsstring :=
  if n =? 1 then text else toString n ++ [0] ++ text.

Definition too_short (cfg : Config) (text : jsstring) : bool :=
  (MIN_LEN cfg >? 0) && (length text <? MIN_LEN cfg).

Section Handler.

Context {I : Type} `{Detector I}.

(** The handler of [POST /classify]. *)
Definition classify (cfg : Config) (req : Request) (s : State I)
  : Reply * State I :=
  match identifier s with
  | None => (send 503 (ErrorBody (lit "Detector not ready yet.")), s)
  | Some idf =>
      let text := normalize (text req) in
      match text with
      | [] => (send 400 (ErrorBody (lit "Empty 'text'.")), s)
      | _ =>
          if too_short cfg text then
            (returned (ResponseBody
               {| input_len := length text; cld3 := Single und |}),
             s)
          else
            let n := topN_or_1 req in
            let key := cache_key n text in
            let (hit, cache1) := LRU.get key (cache s) in
            let tr1 := trace s ++ [EvCacheGet key] in
            match hit with
            | Some out =>
                (returned (ResponseBody out),
                 {| identifier := Some idf; cache := cache1;
                    trace := tr1 |})
            | None =>
                let '(result, idf', ev) := detect idf text n in
                let out := {| input_len := length text;
                              cld3 := result |} in
                (returned (ResponseBody out),
                 {| identifier := Some idf';
                    cache := LRU.set key out cache1;
                    trace := tr1 ++ [ev; EvCacheSet key] |})
            end
      end
  end.

(** The statements of the module, from top to bottom, up to the last one,
    [await app.listen(...)]. *)
Definition main (cfg : Config) (w : World I) : Process I :=
  let s0 := {| identifier := None; cache := LRU.new (CACHE_MAX cfg);
               trace := [] |} in
  if negb (helmet w) then {| phase := Crashed; state := s0 |}
  else if negb (compress w) then {| phase := Crashed; state := s0 |}
  else if (RATE_LIMIT_MAX cfg >? 0) && negb (rateLimit w) then
    {| phase := Crashed; state := s0 |}
  else
    match initDetector (CLD_MIN_BYTES cfg) (CLD_MAX_BYTES cfg) w s0 with
    | Thrown => {| phase := Crashed; state := s0 |}
    | Returned s1 =>
        if listen w then {| phase := Listening; state := s1 |}
        else {| phase := Crashed; state := s1 |}
    end.

End Handler.

End ExactKey.

(** ** A test double for the detector

    It answers Polish for every text and counts its calls. *)

Module Double.

Definition one : spec_float := S754_finite false 4503599627370496 (-52).

Definition pl : LanguageResult :=
  {| language := lit "pl"; probability := one;
     is_reliable := true; proportion := one |}.

#[global] Instance counting : Detector nat :=
  {| findLanguage := fun calls _ => (pl, S calls);
     findMostFrequentLanguages := fun calls _ _ => ([pl], S calls) |}.

Definition ready (mx : Z) : State nat :=
  {| identifier := Some O; cache := LRU.new mx; trace := [] |}.

Definition request (t : string) (n : option Z) : Request :=
  {| text := lit t; topN := n |}.

(** A start in which every step succeeds. *)
Definition world : World nat :=
  {| helmet := true; compress := true; rateLimit := true;
     loadModule := Returned {| create := fun _ _ => Returned O |};
     listen := true |}.

(** Two texts of seventeen characters with the same FNV-1a hash. *)
Definition sea : jsstring := lit "sea sea dog a pig".
Definition mud : jsstring := lit "mud cow way bee a".

End Double.

(** ** Reference definitions

    What the further properties below compare the code with. *)

(** The distinct keys of a list of accesses, most recent first, each at
    the place of its latest access. *)
Fixpoint distinct (h : list jsstring) : list jsstring :=
  match h with
  | [] => []
  | k :: h' => k :: without k (distinct h')
  end.

(** FNV-1a as it is usually given, on unsigned 32-bit words: xor the next
    unit into the hash, then multiply by the prime modulo 2^32. *)
Definition fnv1a_step_u32 (h c : Z) : Z := (Z.lxor h c * 16777619) mod 2 ^ 32.

Definition fnv1a_u32 (str : jsstring) : Z :=
  fold_left fnv1a_step_u32 str 2166136261.

(** A UTF-16 code unit, which is what [charCodeAt] returns. *)
Definition code_unit (c : Z) : Prop := 0 <= c < 65536.

Definition is_cache_set (e : Event) : bool :=
  match e with
  | EvCacheSet _ => true
  | _ => false
  end.

Definition cache_writes (tr : list Event) : list Event :=
  filter is_cache_set tr.

(** The shape of a [cld3] field that goes with [topN]: one object for [1],
    an array otherwise. *)
Definition shaped (n : Z) (c : Cld3) : bool :=
  match c with
  | Single _ => n =? 1
  | Ranked _ => negb (n =? 1)
  end.

(** An entry of the cache of server.js that was made for some [topN] and
    some text: its key is theirs, its [input_len] is the length of the
    text and its [cld3] has the shape that goes with [topN]. *)
Definition well_keyed (e : jsstring * ClassificationResponse) : Prop :=
  exists n t,
    fst e = DigestKey.cache_key n t
    /\ input_len (snd e) = length t
    /\ shaped n (cld3 (snd e)) = true.

(** * Properties *)

(** ** Strings *)

Lemma str_eqb_eq (a b : jsstring) : str_eqb a b = true <-> a = b.
Proof.
  revert b; induction a as [|x a IH]; intros [|y b]; simpl;
    try (split; [discriminate | intros E; inversion E]); [tauto|].
  rewrite andb_true_iff, Z.eqb_eq, IH.
  split; [intros [-> ->]; reflexivity | intros E; inversion E; auto].
Qed.

Lemma str_eqb_refl (a : jsstring) : str_eqb a a = true.
Proof. apply str_eqb_eq; reflexivity. Qed.

Lemma str_eqb_neq (a b : jsstring) : str_eqb a b = false <-> a <> b.
Proof.
  rewrite <- str_eqb_eq. destruct (str_eqb a b); split; congruence.
Qed.

Lemma str_eqb_sym (a b : jsstring) : str_eqb a b = str_eqb b a.
Proof.
  destruct (str_eqb b a) eqn:E.
  - apply str_eqb_eq in E; subst; apply str_eqb_refl.
  - apply str_eqb_neq; apply str_eqb_neq in E; congruence.
Qed.

Lemma length_nonneg (s : jsstring) : 0 <= length s.
Proof. unfold length; lia. Qed.

(** ** The Map operations *)

Section MapFacts.

Context {V : Type}.
Implicit Types (m : Map V) (k key : jsstring) (v val : V).

Lemma Map_has_In key m : Map_has key m = true <-> In key (Map_keys m).
Proof.
  unfold Map_has, Map_keys. rewrite existsb_exists, in_map_iff.
  split.
  - intros [e [Hin E]]. apply str_eqb_eq in E. exists e; auto.
  - intros [e [E Hin]]. exists e. split; [exact Hin|].
    apply str_eqb_eq; auto.
Qed.

Lemma Map_has_not_In key m : Map_has key m = false <-> ~ In key (Map_keys m).
Proof.
  rewrite <- Map_has_In. destruct (Map_has key m); split; congruence.
Qed.

Lemma Map_get_None key m : Map_get key m = None <-> Map_has key m = false.
Proof.
  induction m as [|[k v] m IH]; simpl; [tauto|].
  destruct (str_eqb key k); simpl; [split; discriminate | exact IH].
Qed.

Lemma Map_get_Some_has key m v : Map_get key m = Some v -> Map_has key m = true.
Proof.
  intros E. destruct (Map_has key m) eqn:Hh; [reflexivity|].
  apply Map_get_None in Hh. congruence.
Qed.

Lemma Map_keys_delete key m :
  Map_keys (Map_delete key m) = without key (Map_keys m).
Proof.
  induction m as [|[k v] m IH]; simpl; [reflexivity|].
  destruct (str_eqb key k); simpl; congruence.
Qed.

Lemma Map_keys_app m1 m2 : Map_keys (m1 ++ m2) = Map_keys m1 ++ Map_keys m2.
Proof. apply map_app. Qed.

Lemma Map_has_delete key m : Map_has key (Map_delete key m) = false.
Proof.
  apply Map_has_not_In. rewrite Map_keys_delete. unfold without.
  rewrite filter_In. intros [_ E]. rewrite str_eqb_refl in E. discriminate.
Qed.

Lemma Map_delete_absent key m : Map_has key m = false -> Map_delete key m = m.
Proof.
  induction m as [|[k v] m IH]; simpl; [reflexivity|].
  destruct (str_eqb key k); simpl; [discriminate|].
  intros E. rewrite IH; auto.
Qed.

Lemma Map_set_absent key val m :
  Map_has key m = false -> Map_set key val m = m ++ [(key, val)].
Proof.
  induction m as [|[k v] m IH]; simpl; [reflexivity|].
  destruct (str_eqb key k); simpl; [discriminate|].
  intros E. rewrite IH; auto.
Qed.

Lemma Map_delete_length key m :
  (List.length (Map_delete key m) <= List.length m)%nat.
Proof. apply filter_length_le. Qed.

Lemma Map_delete_length_present key m :
  Map_has key m = true ->
  (List.length (Map_delete key m) < List.length m)%nat.
Proof.
  induction m as [|[k v] m IH]; simpl; [discriminate|].
  destruct (str_eqb key k); simpl.
  - intros _. pose proof (Map_delete_length key m). unfold Map_delete in *. lia.
  - intros E. apply IH in E. unfold Map_delete in *. lia.
Qed.

(** In a map whose keys are distinct, deleting the first key removes the
    first entry and nothing else. *)
Lemma Map_delete_first k v m :
  NoDup (Map_keys ((k, v) :: m)) -> Map_delete k ((k, v) :: m) = m.
Proof.
  simpl. intros Hnd. inversion Hnd as [|? ? Hnot _]; subst.
  rewrite str_eqb_refl. simpl.
  apply Map_delete_absent. apply Map_has_not_In. exact Hnot.
Qed.

Lemma Map_get_app_last key val m :
  Map_has key m = false -> Map_get key (m ++ [(key, val)]) = Some val.
Proof.
  induction m as [|[k v] m IH]; simpl.
  - rewrite str_eqb_refl. reflexivity.
  - destruct (str_eqb key k); simpl; [discriminate | exact IH].
Qed.

End MapFacts.

(** ** Pairs in list order *)

Section OrdPairs.

Context {A : Type} (R : A -> A -> Prop).

Lemma FOP_filter (f : A -> bool) (l : list A) :
  ForallOrdPairs R l -> ForallOrdPairs R (filter f l).
Proof.
  induction 1 as [|a l Ha Hl IH]; simpl; [constructor|].
  destruct (f a); [|exact IH].
  constructor; [|exact IH].
  rewrite Forall_forall in *. intros x Hx.
  apply filter_In in Hx. apply Ha, Hx.
Qed.

Lemma FOP_snoc (l : list A) (z : A) :
  ForallOrdPairs R l -> Forall (fun a => R a z) l ->
  ForallOrdPairs R (l ++ [z]).
Proof.
  induction 1 as [|a l Ha Hl IH]; simpl; intros Hz.
  - constructor; constructor.
  - inversion Hz; subst. constructor; [|apply IH; assumption].
    apply Forall_app; split; [assumption|]. constructor; [assumption|constructor].
Qed.

Lemma FOP_In_impl (R' : A -> A -> Prop) (l : list A) :
  (forall a b, In a l -> In b l -> R a b -> R' a b) ->
  ForallOrdPairs R l -> ForallOrdPairs R' l.
Proof.
  intros Himp Hl. induction Hl as [|a l Ha Hl IH]; [constructor|].
  constructor.
  - rewrite Forall_forall in *. intros x Hx.
    apply Himp; [left; reflexivity | right; exact Hx | apply Ha, Hx].
  - apply IH. intros x y Hx Hy. apply Himp; right; assumption.
Qed.

End OrdPairs.

(** ** Recency of accesses *)

Lemma age_head (h : list jsstring) (k : jsstring) : LRU.age (k :: h) k = Some O.
Proof. simpl. rewrite str_eqb_refl. reflexivity. Qed.

Lemma age_older (h : list jsstring) (k a : jsstring) :
  a <> k -> LRU.age (k :: h) a = option_map S (LRU.age h a).
Proof. intros Hne. simpl. apply str_eqb_neq in Hne. rewrite Hne. reflexivity. Qed.

Lemma age_In (h : list jsstring) (a : jsstring) :
  In a h -> exists n, LRU.age h a = Some n.
Proof.
  induction h as [|k h IH]; simpl; [tauto|].
  intros Hin. destruct (str_eqb a k) eqn:E; [exists O; reflexivity|].
  apply str_eqb_neq in E. destruct Hin as [->|Hin]; [congruence|].
  destruct (IH Hin) as [n Hn]. exists (S n). rewrite Hn. reflexivity.
Qed.

Lemma less_recent_irrefl (h : list jsstring) (a : jsstring) :
  ~ LRU.less_recent h a a.
Proof. intros [na [nb [Ha [Hb Hlt]]]]. rewrite Ha in Hb. inversion Hb. lia. Qed.

Lemma less_recent_older (h : list jsstring) (k a b : jsstring) :
  a <> k -> b <> k -> LRU.less_recent h a b -> LRU.less_recent (k :: h) a b.
Proof.
  intros Ha Hb [na [nb [Ea [Eb Hlt]]]].
  exists (S na), (S nb). rewrite !age_older, Ea, Eb by assumption.
  simpl. repeat split; lia.
Qed.

Lemma less_recent_newest (h : list jsstring) (k a : jsstring) :
  a <> k -> In a h -> LRU.less_recent (k :: h) a k.
Proof.
  intros Ha Hin. destruct (age_In h a Hin) as [n Hn].
  exists (S n), O. rewrite age_head, age_older, Hn by assumption.
  simpl. repeat split; lia.
Qed.

Lemma ordered_nil (h : list jsstring) : LRU.ordered h [].
Proof. split; constructor. Qed.

Lemma ordered_NoDup (h ks : list jsstring) : LRU.ordered h ks -> NoDup ks.
Proof.
  intros [Hord _]. apply NoDup_iff_ForallOrdPairs.
  revert Hord. apply FOP_In_impl. intros a b _ _ Hab ->.
  exact (less_recent_irrefl h b Hab).
Qed.

Lemma ordered_tail (h : list jsstring) (k : jsstring) (ks : list jsstring) :
  LRU.ordered h (k :: ks) ->
  LRU.ordered h ks /\ Forall (LRU.less_recent h k) ks.
Proof.
  intros [Hord Hin]. inversion Hord; subst. inversion Hin; subst.
  repeat split; assumption.
Qed.

Lemma without_In (k a : jsstring) (ks : list jsstring) :
  In a (without k ks) <-> In a ks /\ a <> k.
Proof.
  unfold without. rewrite filter_In, negb_true_iff, str_eqb_neq.
  intuition congruence.
Qed.

(** An access to [k] moves it behind every other key. *)
Lemma ordered_touch (h ks : list jsstring) (k : jsstring) :
  LRU.ordered h ks -> LRU.ordered (k :: h) (without k ks ++ [k]).
Proof.
  intros [Hord Hin]. split.
  - apply FOP_snoc.
    + apply FOP_In_impl with (R := LRU.less_recent h).
      * intros a b Ha Hb. apply without_In in Ha, Hb.
        apply less_recent_older; tauto.
      * apply FOP_filter. exact Hord.
    + apply Forall_forall. intros a Ha. apply without_In in Ha.
      apply less_recent_newest; [tauto|].
      rewrite Forall_forall in Hin. apply Hin. tauto.
  - apply Forall_app. split.
    + apply Forall_forall. intros a Ha. apply without_In in Ha.
      right. rewrite Forall_forall in Hin. apply Hin. tauto.
    + constructor; [left; reflexivity | constructor].
Qed.

(** ** The LRU class *)

Section LRUFacts.

Context {V : Type}.
Implicit Types (c : LRU.t V) (key k : jsstring) (val v : V).

Lemma get_miss key c :
  Map_has key (LRU.map c) = false -> LRU.get key c = (None, c).
Proof.
  intros Hm. apply Map_get_None in Hm. unfold LRU.get. rewrite Hm. reflexivity.
Qed.

Lemma get_hit key c v :
  Map_get key (LRU.map c) = Some v ->
  LRU.get key c =
    (Some v, {| LRU.max := LRU.max c;
                LRU.map := Map_delete key (LRU.map c) ++ [(key, v)] |}).
Proof.
  intros Hg. unfold LRU.get. rewrite Hg.
  rewrite Map_set_absent by apply Map_has_delete. reflexivity.
Qed.

Lemma get_result key c : fst (LRU.get key c) = Map_get key (LRU.map c).
Proof. unfold LRU.get. destruct (Map_get key (LRU.map c)); reflexivity. Qed.

Lemma get_max key c : LRU.max (snd (LRU.get key c)) = LRU.max c.
Proof. unfold LRU.get. destruct (Map_get key (LRU.map c)); reflexivity. Qed.

Lemma set_disabled key val c : LRU.max c <= 0 -> LRU.set key val c = c.
Proof.
  intros Hmax. unfold LRU.set. apply Z.leb_le in Hmax. rewrite Hmax. reflexivity.
Qed.

(** On an enabled cache [set] removes the key, appends the entry and then
    drops the first entry if the map has grown past [max]. *)
Lemma set_enabled key val c :
  1 <= LRU.max c ->
  LRU.set key val c =
    let m2 := Map_delete key (LRU.map c) ++ [(key, val)] in
    {| LRU.max := LRU.max c;
       LRU.map := if Map_size m2 >? LRU.max c then
                    match Map_first_key m2 with
                    | Some firstKey => Map_delete firstKey m2
                    | None => m2
                    end
                  else m2 |}.
Proof.
  intros Hmax. unfold LRU.set.
  destruct (LRU.max c <=? 0) eqn:E; [apply Z.leb_le in E; lia|].
  assert (Hm1 : (if Map_has key (LRU.map c) then Map_delete key (LRU.map c)
                 else LRU.map c) = Map_delete key (LRU.map c)).
  { destruct (Map_has key (LRU.map c)) eqn:Hh; [reflexivity|].
    symmetry. apply Map_delete_absent. exact Hh. }
  rewrite Hm1. rewrite Map_set_absent by apply Map_has_delete.
  cbv zeta. destruct (Map_size _ >? LRU.max c); reflexivity.
Qed.

Lemma set_max key val c : LRU.max (LRU.set key val c) = LRU.max c.
Proof.
  unfold LRU.set. destruct (LRU.max c <=? 0); [reflexivity|].
  cbv zeta. destruct (Map_size _ >? LRU.max c); reflexivity.
Qed.

Lemma step_max c (o : LRU.Op V) : LRU.max (LRU.step c o) = LRU.max c.
Proof. destruct o; simpl; [apply get_max | apply set_max]. Qed.

Lemma run_max (ops : list (LRU.Op V)) c :
  LRU.max (LRU.run ops c) = LRU.max c.
Proof.
  revert c. induction ops as [|o ops IH]; intros c; [reflexivity|].
  change (LRU.run (o :: ops) c) with (LRU.run ops (LRU.step c o)).
  rewrite IH. apply step_max.
Qed.

Lemma inv_new (mx : Z) : LRU.inv [] (LRU.new (V := V) mx).
Proof.
  repeat split; simpl; try constructor. unfold Map_size; simpl; lia.
Qed.

Lemma inv_get h key c :
  LRU.inv h c ->
  LRU.inv (if Map_has key (LRU.map c) then key :: h else h)
          (snd (LRU.get key c)).
Proof.
  intros [Hord [Hsz Hoff]].
  destruct (Map_get key (LRU.map c)) as [v|] eqn:Hg.
  - rewrite (Map_get_Some_has _ _ _ Hg), (get_hit _ _ _ Hg). simpl.
    unfold LRU.inv; simpl. split; [|split].
    + rewrite Map_keys_app, Map_keys_delete. simpl.
      apply ordered_touch. exact Hord.
    + intros Hmax. specialize (Hsz Hmax). unfold Map_size in *.
      rewrite length_app. simpl.
      pose proof (Map_delete_length_present key (LRU.map c)
                    (Map_get_Some_has _ _ _ Hg)). lia.
    + intros Hmax. rewrite (Hoff Hmax) in Hg. discriminate.
  - apply Map_get_None in Hg. rewrite Hg, (get_miss _ _ Hg). simpl.
    split; [exact Hord | split; [exact Hsz | exact Hoff]].
Qed.

Lemma inv_set h key val c :
  LRU.inv h c ->
  LRU.inv (if LRU.max c <=? 0 then h else key :: h) (LRU.set key val c).
Proof.
  intros [Hord [Hsz Hoff]].
  destruct (LRU.max c <=? 0) eqn:E.
  - apply Z.leb_le in E. rewrite set_disabled by exact E.
    split; [exact Hord | split; [exact Hsz | exact Hoff]].
  - apply Z.leb_gt in E. assert (Hmax : 1 <= LRU.max c) by lia.
    rewrite (set_enabled key val c Hmax). cbv zeta.
    pose proof (ordered_touch h _ key Hord) as Ht.
    rewrite <- Map_keys_delete in Ht.
    change [key] with (Map_keys [(key, val)]) in Ht.
    rewrite <- Map_keys_app in Ht.
    assert (Hlen : Map_size (Map_delete key (LRU.map c) ++ [(key, val)])
                   <= LRU.max c + 1).
    { specialize (Hsz Hmax). unfold Map_size in *. rewrite length_app. simpl.
      pose proof (Map_delete_length key (LRU.map c)). lia. }
    set (m2 := Map_delete key (LRU.map c) ++ [(key, val)]) in *.
    unfold LRU.inv; simpl.
    destruct (Map_size m2 >? LRU.max c) eqn:Hov.
    + apply Z.gtb_lt in Hov.
      destruct m2 as [|[k0 v0] rest] eqn:Em2.
      { unfold Map_size in Hov; simpl in Hov; lia. }
      simpl Map_first_key. cbv iota.
      rewrite Map_delete_first by (apply (ordered_NoDup _ _ Ht)).
      split; [|split].
      * simpl in Ht. apply ordered_tail in Ht. tauto.
      * intros _. unfold Map_size in *. simpl in Hlen. lia.
      * lia.
    + rewrite Z.gtb_ltb in Hov. apply Z.ltb_ge in Hov.
      split; [exact Ht | split; [intros _; exact Hov | lia]].
Qed.

Lemma inv_step h c (o : LRU.Op V) :
  LRU.inv h c ->
  LRU.inv (match LRU.touched c o with Some k => k :: h | None => h end)
          (LRU.step c o).
Proof.
  intros Hinv. destruct o as [key|key val]; simpl.
  - pose proof (inv_get h key c Hinv) as Hg.
    destruct (Map_has key (LRU.map c)); exact Hg.
  - pose proof (inv_set h key val c Hinv) as Hs.
    destruct (LRU.max c <=? 0); exact Hs.
Qed.

Lemma inv_run (ops : list (LRU.Op V)) h c :
  LRU.inv h c -> LRU.inv (LRU.history h ops c) (LRU.run ops c).
Proof.
  revert h c. induction ops as [|o ops IH]; intros h c Hinv; simpl.
  - exact Hinv.
  - apply IH. apply inv_step. exact Hinv.
Qed.

Lemma Map_has_delete_other key k0 (m : Map V) :
  key <> k0 -> Map_has key (Map_delete k0 m) = Map_has key m.
Proof.
  intros Hne. induction m as [|[k v] m IH]; [reflexivity|].
  change (Map_has key ((k, v) :: m))
    with (str_eqb key k || Map_has key m).
  change (Map_delete k0 ((k, v) :: m))
    with (if negb (str_eqb k0 k) then (k, v) :: Map_delete k0 m
          else Map_delete k0 m).
  destruct (str_eqb k0 k) eqn:E0; simpl negb; cbv iota.
  - apply str_eqb_eq in E0. subst k0.
    apply str_eqb_neq in Hne. rewrite Hne. exact IH.
  - change (Map_has key ((k, v) :: Map_delete k0 m))
      with (str_eqb key k || Map_has key (Map_delete k0 m)).
    rewrite IH. reflexivity.
Qed.

Lemma Map_has_app key (m1 m2 : Map V) :
  Map_has key (m1 ++ m2) = Map_has key m1 || Map_has key m2.
Proof. apply existsb_app. Qed.

Lemma Map_delete_app k (m1 m2 : Map V) :
  Map_delete k (m1 ++ m2) = Map_delete k m1 ++ Map_delete k m2.
Proof. apply filter_app. Qed.

Lemma Map_has_delete_true key k0 (m : Map V) :
  Map_has key (Map_delete k0 m) = true -> Map_has key m = true.
Proof.
  rewrite !Map_has_In, Map_keys_delete. intros Hin.
  apply without_In in Hin. tauto.
Qed.

Lemma Map_first_key_has k (m : Map V) :
  Map_first_key m = Some k -> Map_has k m = true.
Proof.
  destruct m as [|[k1 v1] m]; simpl; [discriminate|].
  intros E. inversion E; subst. rewrite str_eqb_refl. reflexivity.
Qed.

(** The entry dropped on overflow is the first one, so a key that is not
    the first key stays. *)
Lemma set_keeps key key' val' c :
  1 <= LRU.max c ->
  let m2 := Map_delete key' (LRU.map c) ++ [(key', val')] in
  Map_has key m2 = true ->
  (Map_first_key m2 = Some key -> Map_size m2 <= LRU.max c) ->
  Map_has key (LRU.map (LRU.set key' val' c)) = true.
Proof.
  intros Hmax m2 Hin Hfirst. rewrite (set_enabled key' val' c Hmax).
  cbv zeta. simpl. fold m2.
  destruct (Map_size m2 >? LRU.max c) eqn:Hov; [|exact Hin].
  apply Z.gtb_lt in Hov.
  destruct (Map_first_key m2) as [k1|] eqn:Ek1; [|exact Hin].
  destruct (str_eqb key k1) eqn:E1.
  - apply str_eqb_eq in E1. subst k1. specialize (Hfirst eq_refl). lia.
  - apply str_eqb_neq in E1. rewrite Map_has_delete_other by exact E1.
    exact Hin.
Qed.

(** After a [get] that hits, the next [set] keeps the key when the cache
    has room for two entries. *)
Lemma get_then_set_keeps key v key' val' c :
  2 <= LRU.max c ->
  Map_get key (LRU.map c) = Some v ->
  Map_has key (LRU.map (LRU.set key' val' (snd (LRU.get key c)))) = true.
Proof.
  intros Hmax Hg. rewrite (get_hit _ _ _ Hg). simpl.
  set (D := Map_delete key (LRU.map c)).
  assert (HD : Map_has key D = false) by apply Map_has_delete.
  apply set_keeps; simpl; [lia| |].
  - rewrite Map_delete_app, !Map_has_app. simpl.
    destruct (str_eqb key' key) eqn:Ek; simpl.
    + apply str_eqb_eq in Ek. subst key'. rewrite str_eqb_refl.
      rewrite !orb_true_r. reflexivity.
    + rewrite str_eqb_refl. simpl. rewrite orb_true_r. reflexivity.
  - rewrite Map_delete_app. fold D.
    destruct (Map_delete key' D) as [|[k1 v1] rest] eqn:ED.
    + intros _. unfold Map_size. rewrite length_app. simpl.
      destruct (negb (str_eqb key' key)); simpl; lia.
    + simpl. intros E. inversion E; subst k1. exfalso.
      assert (Hin : Map_has key (Map_delete key' D) = true).
      { rewrite ED. simpl. rewrite str_eqb_refl. reflexivity. }
      apply Map_has_delete_true in Hin. congruence.
Qed.

End LRUFacts.

(** ** Reading back what the cache holds *)

Section CacheReads.

Context {V : Type}.
Implicit Types (c : LRU.t V) (key k : jsstring) (val v : V).

Lemma Map_get_delete_other key k0 (m : Map V) :
  key <> k0 -> Map_get key (Map_delete k0 m) = Map_get key m.
Proof.
  intros Hne. induction m as [|[k v] m IH]; [reflexivity|].
  change (Map_delete k0 ((k, v) :: m))
    with (if negb (str_eqb k0 k) then (k, v) :: Map_delete k0 m
          else Map_delete k0 m).
  destruct (str_eqb k0 k) eqn:E0; simpl.
  - apply str_eqb_eq in E0. subst k0.
    apply str_eqb_neq in Hne. rewrite Hne. exact IH.
  - rewrite IH. reflexivity.
Qed.

(** A [get] that hits leaves the value in place for the next [get]. *)
Lemma get_after_get key c v :
  Map_get key (LRU.map c) = Some v ->
  Map_get key (LRU.map (snd (LRU.get key c))) = Some v.
Proof.
  intros Hg. rewrite (get_hit _ _ _ Hg). simpl.
  apply Map_get_app_last. apply Map_has_delete.
Qed.

(** On an enabled cache, a value stored under an absent key is there for
    the next [get]. *)
Lemma get_after_set key val c :
  1 <= LRU.max c ->
  Map_get key (LRU.map c) = None ->
  Map_get key (LRU.map (LRU.set key val c)) = Some val.
Proof.
  intros Hmax Hg. apply Map_get_None in Hg.
  rewrite set_enabled by exact Hmax. cbv zeta. simpl.
  rewrite (Map_delete_absent _ _ Hg).
  pose proof (Map_get_app_last key val (LRU.map c) Hg) as Hlast.
  destruct (Map_size (LRU.map c ++ [(key, val)]) >? LRU.max c) eqn:Hov;
    [|exact Hlast].
  apply Z.gtb_lt in Hov.
  destruct (LRU.map c) as [|[k0 v0] rest] eqn:Em.
  - unfold Map_size in Hov. simpl in Hov. lia.
  - change (((k0, v0) :: rest) ++ [(key, val)])
      with ((k0, v0) :: (rest ++ [(key, val)])) in *.
    simpl Map_first_key. cbv iota.
    assert (Hne : key <> k0).
    { intros ->. simpl in Hg. rewrite str_eqb_refl in Hg. discriminate. }
    rewrite Map_get_delete_other by exact Hne. exact Hlast.
Qed.

End CacheReads.

(** ** Trimming and truncating *)

Lemma trimStart_spec (s : jsstring) :
  exists pre, s = pre ++ trimStart s
              /\ Forall (fun c => is_white_space c = true) pre
              /\ (forall c rest, trimStart s = c :: rest ->
                                 is_white_space c = false).
Proof.
  induction s as [|c s [pre [E [Hpre Hhd]]]]; simpl.
  - exists []. repeat split; [constructor | discriminate].
  - destruct (is_white_space c) eqn:Hc.
    + exists (c :: pre). split; [simpl; congruence|].
      split; [constructor; assumption | exact Hhd].
    + exists []. split; [reflexivity|]. split; [constructor|].
      intros c' rest E'. inversion E'; subst. exact Hc.
Qed.

(** [trim] removes a run of white space at each end and nothing else, and
    what is left neither starts nor ends with white space. *)
Lemma trim_spec (s : jsstring) :
  exists pre post,
    s = pre ++ trim s ++ post
    /\ Forall (fun c => is_white_space c = true) pre
    /\ Forall (fun c => is_white_space c = true) post
    /\ (forall c rest, trim s = c :: rest -> is_white_space c = false)
    /\ (forall c rest, trim s = rest ++ [c] -> is_white_space c = false).
Proof.
  unfold trim, trimEnd.
  destruct (trimStart_spec s) as [pre [E1 [Hpre Hhd]]].
  destruct (trimStart_spec (rev (trimStart s))) as [tsop [E2 [Hpost Hlast]]].
  set (core := trimStart (rev (trimStart s))) in *.
  assert (E3 : trimStart s = rev core ++ rev tsop).
  { rewrite <- rev_app_distr, <- E2, rev_involutive. reflexivity. }
  exists pre, (rev tsop). split; [rewrite <- E3; exact E1|].
  split; [exact Hpre|]. split; [apply Forall_rev; exact Hpost|]. split.
  - intros c rest Ec. apply (Hhd c (rest ++ rev tsop)).
    rewrite E3, Ec. reflexivity.
  - intros c rest Ec. apply (Hlast c (rev rest)).
    rewrite <- (rev_involutive core), Ec, rev_app_distr. reflexivity.
Qed.

Lemma slice0_length (s : jsstring) (e : Z) :
  0 <= e -> length (slice0 s e) = Z.min e (length s).
Proof.
  intros He. unfold slice0, length.
  destruct (e <? 0) eqn:E; [apply Z.ltb_lt in E; lia|].
  rewrite length_firstn. lia.
Qed.

Lemma slice0_all (s : jsstring) (e : Z) : length s <= e -> slice0 s e = s.
Proof.
  intros He. unfold slice0. pose proof (length_nonneg s).
  destruct (e <? 0) eqn:E; [apply Z.ltb_lt in E; lia|].
  apply firstn_all2. unfold length in *. lia.
Qed.

(** ** The cache never outgrows its capacity and evicts in order of access *)

(** C1, as the code has it.  For a cache made with [max >= 1] and every
    sequence of [get] and [set] calls: the number of entries never exceeds
    [max]; a [set] of a new key on a full cache removes exactly one entry,
    the first one, which was accessed less recently than every other entry;
    any other [set] removes nothing but the old entry of its own key; and a
    [get] that hits moves the key to the most recent end, so that, when
    [max >= 2], the [set] that follows does not evict it. *)
Theorem lru_bounded_and_evicts_least_recent
    (V : Type) (mx : Z) (ops : list (LRU.Op V)) :
  1 <= mx ->
  let c := LRU.run ops (LRU.new mx) in
  let h := LRU.history [] ops (LRU.new mx) in
  Map_size (LRU.map c) <= mx
  /\ (forall key val,
        Map_has key (LRU.map c) = false ->
        Map_size (LRU.map c) = mx ->
        exists k0 v0 rest,
          LRU.map c = (k0, v0) :: rest
          /\ LRU.map (LRU.set key val c) = rest ++ [(key, val)]
          /\ Forall (fun e => LRU.less_recent h k0 (fst e)) rest)
  /\ (forall key val,
        Map_has key (LRU.map c) = true \/ Map_size (LRU.map c) < mx ->
        LRU.map (LRU.set key val c)
        = Map_delete key (LRU.map c) ++ [(key, val)])
  /\ (forall key v,
        fst (LRU.get key c) = Some v ->
        LRU.map (snd (LRU.get key c))
        = Map_delete key (LRU.map c) ++ [(key, v)]
        /\ (2 <= mx ->
            forall key' val',
              Map_has key
                (LRU.map (LRU.set key' val' (snd (LRU.get key c)))) = true)).
Proof.
  intros Hmx c h.
  pose proof (inv_run ops [] (LRU.new mx) (inv_new mx)) as Hinv.
  fold c h in Hinv. destruct Hinv as [Hord [Hsz _]].
  assert (Hmax : LRU.max c = mx) by (unfold c; rewrite run_max; reflexivity).
  rewrite Hmax in Hsz. specialize (Hsz Hmx).
  split; [exact Hsz|]. split; [|split].
  - intros key val Habs Hfull.
    rewrite set_enabled by lia. cbv zeta. simpl.
    rewrite (Map_delete_absent key _ Habs).
    destruct (LRU.map c) as [|[k0 v0] rest] eqn:Em.
    { unfold Map_size in Hfull; simpl in Hfull; lia. }
    exists k0, v0, rest. split; [reflexivity|].
    assert (Hov : (Map_size (((k0, v0) :: rest) ++ [(key, val)]) >? LRU.max c)
                  = true).
    { apply Z.gtb_lt. unfold Map_size in *. rewrite length_app. simpl. simpl in Hfull. lia. }
    rewrite Hov. simpl Map_first_key. cbv iota.
    assert (Hnd : NoDup (Map_keys ((k0, v0) :: rest ++ [(key, val)]))).
    { change ((k0, v0) :: rest ++ [(key, val)])
        with (((k0, v0) :: rest) ++ [(key, val)]).
      rewrite Map_keys_app. simpl Map_keys at 2.
      apply NoDup_app.
      - apply (ordered_NoDup _ _ Hord).
      - constructor; [intros []|constructor].
      - intros a Ha [<-|[]]. apply Map_has_not_In in Habs. contradiction. }
    split.
    + apply (Map_delete_first k0 v0 (rest ++ [(key, val)]) Hnd).
    + simpl in Hord. apply ordered_tail in Hord. destruct Hord as [_ Hlt].
      unfold Map_keys in Hlt. rewrite Forall_map in Hlt. exact Hlt.
  - intros key val Hcase.
    rewrite set_enabled by lia. cbv zeta. simpl.
    assert (Hfit : (Map_size (Map_delete key (LRU.map c) ++ [(key, val)])
                    >? LRU.max c) = false).
    { rewrite Z.gtb_ltb. apply Z.ltb_ge. unfold Map_size in *.
      rewrite length_app. simpl.
      destruct Hcase as [Hin|Hlt].
      - pose proof (Map_delete_length_present key _ Hin). lia.
      - pose proof (Map_delete_length key (LRU.map c)). lia. }
    rewrite Hfit. reflexivity.
  - intros key v Hg. rewrite get_result in Hg. split.
    + rewrite (get_hit _ _ _ Hg). reflexivity.
    + intros H2 key' val'. apply (get_then_set_keeps key v); [lia | exact Hg].
Qed.

(** C1 at a concrete run: a cache of two entries, filled, read and then
    overflowed. *)
Lemma lru_bounded_and_evicts_least_recent_witness :
  1 <= 2
  /\ Map_size
       (LRU.map
          (LRU.run [LRU.OpSet (lit "a") 1; LRU.OpSet (lit "b") 2;
                    LRU.OpGet (lit "a"); LRU.OpSet (lit "c") 3]
                   (LRU.new 2))) <= 2.
Proof.
  split; [lia|].
  apply (lru_bounded_and_evicts_least_recent Z 2
           [LRU.OpSet (lit "a") 1; LRU.OpSet (lit "b") 2;
            LRU.OpGet (lit "a"); LRU.OpSet (lit "c") 3]).
  lia.
Defined.

(** C1 as stated fails for [max = 1]: the only entry is read, which hits,
    and the [set] that follows overflows and evicts that very entry. *)
Lemma lru_capacity_one_evicts_the_key_just_read :
  let c := LRU.run [LRU.OpSet (lit "a") 1] (LRU.new 1) in
  1 <= LRU.max c
  /\ fst (LRU.get (lit "a") c) = Some 1
  /\ Map_size (LRU.map (snd (LRU.get (lit "a") c)) ++ [(lit "b", 2)])
     > LRU.max c
  /\ Map_has (lit "a")
       (LRU.map (LRU.set (lit "b") 2 (snd (LRU.get (lit "a") c)))) = false.
Proof. vm_compute. repeat split; discriminate. Qed.

(** ** A disabled cache *)

(** C8.  On a cache made with [max <= 0], [set] changes nothing; after any
    sequence of calls the cache is empty and every [get] answers
    [undefined]. *)
Theorem lru_disabled_stores_nothing
    (V : Type) (mx : Z) (ops : list (LRU.Op V)) (key : jsstring) (val : V) :
  mx <= 0 ->
  let c := LRU.run ops (LRU.new mx) in
  LRU.set key val c = c
  /\ LRU.map c = []
  /\ fst (LRU.get key c) = None.
Proof.
  intros Hmx c.
  pose proof (inv_run ops [] (LRU.new mx) (inv_new mx)) as Hinv.
  fold c in Hinv. destruct Hinv as [_ [_ Hoff]].
  assert (Hmax : LRU.max c = mx) by (unfold c; rewrite run_max; reflexivity).
  rewrite Hmax in Hoff. specialize (Hoff Hmx).
  split; [apply set_disabled; lia|]. split; [exact Hoff|].
  rewrite get_result, Hoff. reflexivity.
Qed.

Lemma lru_disabled_stores_nothing_witness :
  0 <= 0
  /\ fst (LRU.get (lit "a")
            (LRU.run [LRU.OpSet (lit "a") 1; LRU.OpGet (lit "a");
                      LRU.OpSet (lit "b") 2] (LRU.new 0))) = None.
Proof.
  split; [lia|].
  apply (lru_disabled_stores_nothing Z 0
           [LRU.OpSet (lit "a") 1; LRU.OpGet (lit "a"); LRU.OpSet (lit "b") 2]
           (lit "a") 7).
  lia.
Defined.

(** ** The paths through the handler of server.js *)

Lemma detector_calls_app (tr1 tr2 : list Event) :
  detector_calls (tr1 ++ tr2) = detector_calls tr1 ++ detector_calls tr2.
Proof. apply filter_app. Qed.

Section DigestKeyPaths.

Context {I : Type} `{Detector I}.
Implicit Types (cfg : DigestKey.Config) (req : Request) (s : State I).

Lemma digest_not_ready cfg req s :
  identifier s = None ->
  DigestKey.classify cfg req s
  = (send 503 (ErrorBody (lit "Detector not ready yet.")), s).
Proof. intros E. unfold DigestKey.classify. rewrite E. reflexivity. Qed.

Lemma digest_empty cfg req s idf :
  identifier s = Some idf ->
  DigestKey.normalize cfg (text req) = [] ->
  DigestKey.classify cfg req s
  = (send 400 (ErrorBody (lit "Empty 'text'.")), s).
Proof. intros E Ht. unfold DigestKey.classify. rewrite E, Ht. reflexivity. Qed.

Lemma digest_fast_fail cfg req s idf :
  identifier s = Some idf ->
  DigestKey.normalize cfg (text req) <> [] ->
  DigestKey.too_short cfg (DigestKey.normalize cfg (text req)) = true ->
  DigestKey.classify cfg req s
  = (returned (ResponseBody
       {| input_len := length (DigestKey.normalize cfg (text req));
          cld3 := if topN_or_1 req =? 1 then Single und else Ranked [] |}),
     s).
Proof.
  intros E Ht Hshort. unfold DigestKey.classify. rewrite E. cbv zeta.
  destruct (DigestKey.normalize cfg (text req)) as [|c t] eqn:En;
    [congruence|].
  rewrite Hshort. reflexivity.
Qed.

Lemma digest_hit cfg req s idf out :
  identifier s = Some idf ->
  DigestKey.normalize cfg (text req) <> [] ->
  DigestKey.too_short cfg (DigestKey.normalize cfg (text req)) = false ->
  let key := DigestKey.cache_key (topN_or_1 req)
               (DigestKey.normalize cfg (text req)) in
  Map_get key (LRU.map (cache s)) = Some out ->
  DigestKey.classify cfg req s
  = (returned (ResponseBody out),
     {| identifier := Some idf; cache := snd (LRU.get key (cache s));
        trace := trace s ++ [EvCacheGet key] |}).
Proof.
  intros E Ht Hshort key Hg. unfold DigestKey.classify. rewrite E. cbv zeta.
  destruct (DigestKey.normalize cfg (text req)) as [|c t] eqn:En;
    [congruence|].
  rewrite Hshort. fold key. rewrite (get_hit _ _ _ Hg). reflexivity.
Qed.

Lemma digest_miss cfg req s idf :
  identifier s = Some idf ->
  DigestKey.normalize cfg (text req) <> [] ->
  DigestKey.too_short cfg (DigestKey.normalize cfg (text req)) = false ->
  let n := topN_or_1 req in
  let t := DigestKey.normalize cfg (text req) in
  let key := DigestKey.cache_key n t in
  Map_get key (LRU.map (cache s)) = None ->
  DigestKey.classify cfg req s
  = let out := {| input_len := length t;
                  cld3 := fst (fst (detect idf t n)) |} in
    (returned (ResponseBody out),
     {| identifier := Some (snd (fst (detect idf t n)));
        cache := LRU.set key out (cache s);
        trace := trace s
                 ++ [EvCacheGet key; snd (detect idf t n); EvCacheSet key] |}).
Proof.
  intros E Ht Hshort n t key Hg. subst n t key.
  unfold DigestKey.classify. rewrite E. cbv zeta.
  destruct (DigestKey.normalize cfg (text req)) as [|c t'] eqn:En;
    [congruence|].
  rewrite Hshort. unfold LRU.get. rewrite Hg.
  destruct (detect idf (c :: t') (topN_or_1 req)) as [[result idf'] ev].
  simpl. rewrite <- app_assoc. reflexivity.
Qed.

End DigestKeyPaths.

(** ** The paths through the handler of the exact-key server *)

Section ExactKeyPaths.

Context {I : Type} `{Detector I}.
Implicit Types (cfg : ExactKey.Config) (req : Request) (s : State I).

Lemma exact_not_ready cfg req s :
  identifier s = None ->
  ExactKey.classify cfg req s
  = (send 503 (ErrorBody (lit "Detector not ready yet.")), s).
Proof. intros E. unfold ExactKey.classify. rewrite E. reflexivity. Qed.

Lemma exact_empty cfg req s idf :
  identifier s = Some idf ->
  ExactKey.normalize (text req) = [] ->
  ExactKey.classify cfg req s
  = (send 400 (ErrorBody (lit "Empty 'text'.")), s).
Proof. intros E Ht. unfold ExactKey.classify. rewrite E, Ht. reflexivity. Qed.

Lemma exact_fast_fail cfg req s idf :
  identifier s = Some idf ->
  ExactKey.normalize (text req) <> [] ->
  ExactKey.too_short cfg (ExactKey.normalize (text req)) = true ->
  ExactKey.classify cfg req s
  = (returned (ResponseBody
       {| input_len := length (ExactKey.normalize (text req));
          cld3 := Single und |}),
     s).
Proof.
  intros E Ht Hshort. unfold ExactKey.classify. rewrite E. cbv zeta.
  destruct (ExactKey.normalize (text req)) as [|c t] eqn:En;
    [congruence|].
  rewrite Hshort. reflexivity.
Qed.

Lemma exact_hit cfg req s idf out :
  identifier s = Some idf ->
  ExactKey.normalize (text req) <> [] ->
  ExactKey.too_short cfg (ExactKey.normalize (text req)) = false ->
  let key := ExactKey.cache_key (topN_or_1 req)
               (ExactKey.normalize (text req)) in
  Map_get key (LRU.map (cache s)) = Some out ->
  ExactKey.classify cfg req s
  = (returned (ResponseBody out),
     {| identifier := Some idf; cache := snd (LRU.get key (cache s));
        trace := trace s ++ [EvCacheGet key] |}).
Proof.
  intros E Ht Hshort key Hg. unfold ExactKey.classify. rewrite E. cbv zeta.
  destruct (ExactKey.normalize (text req)) as [|c t] eqn:En;
    [congruence|].
  rewrite Hshort. fold key. rewrite (get_hit _ _ _ Hg). reflexivity.
Qed.

Lemma exact_miss cfg req s idf :
  identifier s = Some idf ->
  ExactKey.normalize (text req) <> [] ->
  ExactKey.too_short cfg (ExactKey.normalize (text req)) = false ->
  let n := topN_or_1 req in
  let t := ExactKey.normalize (text req) in
  let key := ExactKey.cache_key n t in
  Map_get key (LRU.map (cache s)) = None ->
  ExactKey.classify cfg req s
  = let out := {| input_len := length t;
                  cld3 := fst (fst (detect idf t n)) |} in
    (returned (ResponseBody out),
     {| identifier := Some (snd (fst (detect idf t n)));
        cache := LRU.set key out (cache s);
        trace := trace s
                 ++ [EvCacheGet key; snd (detect idf t n); EvCacheSet key] |}).
Proof.
  intros E Ht Hshort n t key Hg. subst n t key.
  unfold ExactKey.classify. rewrite E. cbv zeta.
  destruct (ExactKey.normalize (text req)) as [|c t'] eqn:En;
    [congruence|].
  rewrite Hshort. unfold LRU.get. rewrite Hg.
  destruct (detect idf (c :: t') (topN_or_1 req)) as [[result idf'] ev].
  simpl. rewrite <- app_assoc. reflexivity.
Qed.

End ExactKeyPaths.

(** ** Two requests with one cache key *)

Section SameKey.

Context {I : Type} `{Detector I}.

(** In server.js, when two requests that reach the cache have the same
    key, the second is answered with the reply of the first, from the
    cache, and the detector is left alone. *)
Lemma digest_same_key (cfg : DigestKey.Config) (req1 req2 : Request)
    (s : State I) (idf : I) :
  identifier s = Some idf ->
  1 <= LRU.max (cache s) ->
  DigestKey.normalize cfg (text req1) <> [] ->
  DigestKey.normalize cfg (text req2) <> [] ->
  DigestKey.too_short cfg (DigestKey.normalize cfg (text req1)) = false ->
  DigestKey.too_short cfg (DigestKey.normalize cfg (text req2)) = false ->
  DigestKey.cache_key (topN_or_1 req1) (DigestKey.normalize cfg (text req1))
  = DigestKey.cache_key (topN_or_1 req2) (DigestKey.normalize cfg (text req2)) ->
  let key := DigestKey.cache_key (topN_or_1 req2)
               (DigestKey.normalize cfg (text req2)) in
  let r1 := DigestKey.classify cfg req1 s in
  let r2 := DigestKey.classify cfg req2 (snd r1) in
  fst r2 = fst r1
  /\ identifier (snd r2) = identifier (snd r1)
  /\ trace (snd r2) = trace (snd r1) ++ [EvCacheGet key]
  /\ exists out, Map_get key (LRU.map (cache (snd r1))) = Some out
                 /\ fst r2 = returned (ResponseBody out).
Proof.
  intros Hid Hmax Ht1 Ht2 Hs1 Hs2 Hkey key r1 r2. subst r2 r1.
  destruct (Map_get key (LRU.map (cache s))) as [out|] eqn:Hg.
  - pose proof Hg as Hg1. unfold key in Hg1. rewrite <- Hkey in Hg1.
    rewrite (digest_hit cfg req1 s idf out Hid Ht1 Hs1 Hg1). simpl.
    rewrite Hkey. fold key.
    pose proof (get_after_get key (cache s) out Hg) as Hg2.
    match goal with
    | |- context [DigestKey.classify cfg req2 ?s1] => set (st1 := s1)
    end.
    rewrite (digest_hit cfg req2 st1 idf out eq_refl Ht2 Hs2 Hg2). simpl.
    repeat split. exists out. split; [exact Hg2 | reflexivity].
  - pose proof Hg as Hg1. unfold key in Hg1. rewrite <- Hkey in Hg1.
    rewrite (digest_miss cfg req1 s idf Hid Ht1 Hs1 Hg1). cbv zeta. simpl.
    rewrite Hkey. fold key.
    set (out := {| input_len := _; cld3 := _ |}).
    pose proof (get_after_set key out (cache s) Hmax Hg) as Hg2.
    match goal with
    | |- context [DigestKey.classify cfg req2 ?s1] => set (st1 := s1)
    end.
    rewrite (digest_hit cfg req2 st1 _ out eq_refl Ht2 Hs2 Hg2). simpl.
    repeat split. exists out. split; [exact Hg2 | reflexivity].
Qed.

Lemma exact_same_key (cfg : ExactKey.Config) (req1 req2 : Request)
    (s : State I) (idf : I) :
  identifier s = Some idf ->
  1 <= LRU.max (cache s) ->
  ExactKey.normalize (text req1) <> [] ->
  ExactKey.normalize (text req2) <> [] ->
  ExactKey.too_short cfg (ExactKey.normalize (text req1)) = false ->
  ExactKey.too_short cfg (ExactKey.normalize (text req2)) = false ->
  ExactKey.cache_key (topN_or_1 req1) (ExactKey.normalize (text req1))
  = ExactKey.cache_key (topN_or_1 req2) (ExactKey.normalize (text req2)) ->
  let key := ExactKey.cache_key (topN_or_1 req2)
               (ExactKey.normalize (text req2)) in
  let r1 := ExactKey.classify cfg req1 s in
  let r2 := ExactKey.classify cfg req2 (snd r1) in
  fst r2 = fst r1
  /\ identifier (snd r2) = identifier (snd r1)
  /\ trace (snd r2) = trace (snd r1) ++ [EvCacheGet key]
  /\ exists out, Map_get key (LRU.map (cache (snd r1))) = Some out
                 /\ fst r2 = returned (ResponseBody out).
Proof.
  intros Hid Hmax Ht1 Ht2 Hs1 Hs2 Hkey key r1 r2. subst r2 r1.
  destruct (Map_get key (LRU.map (cache s))) as [out|] eqn:Hg.
  - pose proof Hg as Hg1. unfold key in Hg1. rewrite <- Hkey in Hg1.
    rewrite (exact_hit cfg req1 s idf out Hid Ht1 Hs1 Hg1). simpl.
    rewrite Hkey. fold key.
    pose proof (get_after_get key (cache s) out Hg) as Hg2.
    match goal with
    | |- context [ExactKey.classify cfg req2 ?s1] => set (st1 := s1)
    end.
    rewrite (exact_hit cfg req2 st1 idf out eq_refl Ht2 Hs2 Hg2). simpl.
    repeat split. exists out. split; [exact Hg2 | reflexivity].
  - pose proof Hg as Hg1. unfold key in Hg1. rewrite <- Hkey in Hg1.
    rewrite (exact_miss cfg req1 s idf Hid Ht1 Hs1 Hg1). cbv zeta. simpl.
    rewrite Hkey. fold key.
    set (out := {| input_len := _; cld3 := _ |}).
    pose proof (get_after_set key out (cache s) Hmax Hg) as Hg2.
    match goal with
    | |- context [ExactKey.classify cfg req2 ?s1] => set (st1 := s1)
    end.
    rewrite (exact_hit cfg req2 st1 _ out eq_refl Ht2 Hs2 Hg2). simpl.
    repeat split. exists out. split; [exact Hg2 | reflexivity].
Qed.

End SameKey.

(** ** Repeating a request *)

Lemma digest_long_enough (cfg : DigestKey.Config) (t : jsstring) :
  DigestKey.MIN_LEN cfg <= length t -> DigestKey.too_short cfg t = false.
Proof.
  intros Hlen. unfold DigestKey.too_short. apply andb_false_iff. right.
  apply Z.ltb_ge. exact Hlen.
Qed.

Lemma exact_long_enough (cfg : ExactKey.Config) (t : jsstring) :
  ExactKey.MIN_LEN cfg <= length t -> ExactKey.too_short cfg t = false.
Proof.
  intros Hlen. unfold ExactKey.too_short. apply andb_false_iff. right.
  apply Z.ltb_ge. exact Hlen.
Qed.

(** C2.  In both servers, with the detector ready, a cache of capacity at
    least one and a normalized text at least [MIN_LEN] long, the same
    request made twice in a row gets the same reply twice; the second call
    leaves the detector untouched (no call is recorded and its state is
    the same), and, unless the text is empty, the reply is the entry the
    cache held under the request's key. *)
Theorem classify_twice_same_reply (I : Type) (D : Detector I) :
  (forall (cfg : DigestKey.Config) (req : Request) (s : State I) (idf : I),
      identifier s = Some idf ->
      1 <= LRU.max (cache s) ->
      DigestKey.MIN_LEN cfg <= length (DigestKey.normalize cfg (text req)) ->
      let r1 := DigestKey.classify cfg req s in
      let r2 := DigestKey.classify cfg req (snd r1) in
      fst r2 = fst r1
      /\ identifier (snd r2) = identifier (snd r1)
      /\ detector_calls (trace (snd r2)) = detector_calls (trace (snd r1))
      /\ (DigestKey.normalize cfg (text req) <> [] ->
          exists out,
            Map_get (DigestKey.cache_key (topN_or_1 req)
                       (DigestKey.normalize cfg (text req)))
                    (LRU.map (cache (snd r1))) = Some out
            /\ fst r2 = returned (ResponseBody out)))
  /\
  (forall (cfg : ExactKey.Config) (req : Request) (s : State I) (idf : I),
      identifier s = Some idf ->
      1 <= LRU.max (cache s) ->
      ExactKey.MIN_LEN cfg <= length (ExactKey.normalize (text req)) ->
      let r1 := ExactKey.classify cfg req s in
      let r2 := ExactKey.classify cfg req (snd r1) in
      fst r2 = fst r1
      /\ identifier (snd r2) = identifier (snd r1)
      /\ detector_calls (trace (snd r2)) = detector_calls (trace (snd r1))
      /\ (ExactKey.normalize (text req) <> [] ->
          exists out,
            Map_get (ExactKey.cache_key (topN_or_1 req)
                       (ExactKey.normalize (text req)))
                    (LRU.map (cache (snd r1))) = Some out
            /\ fst r2 = returned (ResponseBody out))).
Proof.
  split.
  - intros cfg req s idf Hid Hmax Hlen r1 r2.
    destruct (DigestKey.normalize cfg (text req)) as [|c t] eqn:Ht.
    + subst r2 r1. rewrite (digest_empty cfg req s idf Hid Ht). simpl.
      rewrite (digest_empty cfg req s idf Hid Ht). simpl.
      repeat split. intros Hne. congruence.
    + assert (Hne : DigestKey.normalize cfg (text req) <> [])
        by (rewrite Ht; discriminate).
      rewrite <- Ht in Hlen. apply digest_long_enough in Hlen.
      destruct (digest_same_key cfg req req s idf Hid Hmax Hne Hne Hlen Hlen
                  eq_refl) as [E1 [E2 [E3 E4]]].
      fold r1 in E1, E2, E3, E4. fold r2 in E1, E2, E3, E4.
      split; [exact E1|]. split; [exact E2|]. split.
      * rewrite E3, detector_calls_app. simpl. apply app_nil_r.
      * intros _. rewrite <- Ht. exact E4.
  - intros cfg req s idf Hid Hmax Hlen r1 r2.
    destruct (ExactKey.normalize (text req)) as [|c t] eqn:Ht.
    + subst r2 r1. rewrite (exact_empty cfg req s idf Hid Ht). simpl.
      rewrite (exact_empty cfg req s idf Hid Ht). simpl.
      repeat split. intros Hne. congruence.
    + assert (Hne : ExactKey.normalize (text req) <> [])
        by (rewrite Ht; discriminate).
      rewrite <- Ht in Hlen. apply exact_long_enough in Hlen.
      destruct (exact_same_key cfg req req s idf Hid Hmax Hne Hne Hlen Hlen
                  eq_refl) as [E1 [E2 [E3 E4]]].
      fold r1 in E1, E2, E3, E4. fold r2 in E1, E2, E3, E4.
      split; [exact E1|]. split; [exact E2|]. split.
      * rewrite E3, detector_calls_app. simpl. apply app_nil_r.
      * intros _. rewrite <- Ht. exact E4.
Qed.

(** C2 on the test double: a Polish greeting classified twice by server.js
    with its default configuration. *)
Lemma classify_twice_same_reply_witness :
  let req := Double.request "  Dzien dobry, jak sie masz?  " None in
  let s := Double.ready 5 in
  identifier s = Some O
  /\ 1 <= LRU.max (cache s)
  /\ DigestKey.MIN_LEN DigestKey.defaults
     <= length (DigestKey.normalize DigestKey.defaults (text req))
  /\ fst (DigestKey.classify DigestKey.defaults req
            (snd (DigestKey.classify DigestKey.defaults req s)))
     = fst (DigestKey.classify DigestKey.defaults req s).
Proof.
  intros req s.
  assert (Hid : identifier s = Some O) by reflexivity.
  assert (Hmax : 1 <= LRU.max (cache s)) by (simpl; lia).
  assert (Hlen : DigestKey.MIN_LEN DigestKey.defaults
                 <= length (DigestKey.normalize DigestKey.defaults (text req)))
    by (vm_compute; discriminate).
  split; [exact Hid|]. split; [exact Hmax|]. split; [exact Hlen|].
  exact (proj1 (proj1 (classify_twice_same_reply nat Double.counting)
                  DigestKey.defaults req s O Hid Hmax Hlen)).
Defined.

(** ** Requests that are refused or cut short *)

(** C6.  In both servers a request that finds [identifier] still [null]
    is answered [503 {error: "Detector not ready yet."}], and the state is
    left as it was: the cache is not read or written and the detector is
    not called. *)
Theorem classify_not_ready (I : Type) (D : Detector I)
    (req : Request) (s : State I) :
  identifier s = None ->
  (forall cfg : DigestKey.Config,
      DigestKey.classify cfg req s
      = ({| code := 503;
            body := ErrorBody (lit "Detector not ready yet.") |}, s))
  /\ (forall cfg : ExactKey.Config,
         ExactKey.classify cfg req s
         = ({| code := 503;
               body := ErrorBody (lit "Detector not ready yet.") |}, s)).
Proof.
  intros Hid. split; intros cfg.
  - apply digest_not_ready. exact Hid.
  - apply exact_not_ready. exact Hid.
Qed.

Lemma classify_not_ready_witness :
  let s := {| identifier := @None nat; cache := LRU.new 5; trace := [] |} in
  identifier s = None
  /\ DigestKey.classify DigestKey.defaults
       (Double.request "Dzien dobry, jak sie masz?" None) s
     = ({| code := 503; body := ErrorBody (lit "Detector not ready yet.") |},
        s).
Proof.
  intros s. split; [reflexivity|].
  exact (proj1 (classify_not_ready nat Double.counting
                  (Double.request "Dzien dobry, jak sie masz?" None) s
                  eq_refl) DigestKey.defaults).
Defined.

(** C7.  In both servers, when [MIN_LEN] is positive and the normalized
    text is shorter, the call leaves the whole state as it was: the cache
    has the same entries in the same order, and no read or write of it is
    recorded. *)
Theorem fast_fail_leaves_cache_alone (I : Type) (D : Detector I)
    (req : Request) (s : State I) :
  (forall cfg : DigestKey.Config,
      0 < DigestKey.MIN_LEN cfg ->
      length (DigestKey.normalize cfg (text req)) < DigestKey.MIN_LEN cfg ->
      snd (DigestKey.classify cfg req s) = s)
  /\ (forall cfg : ExactKey.Config,
         0 < ExactKey.MIN_LEN cfg ->
         length (ExactKey.normalize (text req)) < ExactKey.MIN_LEN cfg ->
         snd (ExactKey.classify cfg req s) = s).
Proof.
  split; intros cfg Hpos Hlen.
  - destruct (identifier s) as [idf|] eqn:Hid;
      [|rewrite digest_not_ready by exact Hid; reflexivity].
    destruct (DigestKey.normalize cfg (text req)) as [|c t] eqn:Ht;
      [rewrite (digest_empty cfg req s idf Hid Ht); reflexivity|].
    rewrite (digest_fast_fail cfg req s idf Hid); [reflexivity| |].
    + rewrite Ht. discriminate.
    + rewrite Ht. unfold DigestKey.too_short. apply andb_true_iff.
      split; [apply Z.gtb_lt; exact Hpos | apply Z.ltb_lt; exact Hlen].
  - destruct (identifier s) as [idf|] eqn:Hid;
      [|rewrite exact_not_ready by exact Hid; reflexivity].
    destruct (ExactKey.normalize (text req)) as [|c t] eqn:Ht;
      [rewrite (exact_empty cfg req s idf Hid Ht); reflexivity|].
    rewrite (exact_fast_fail cfg req s idf Hid); [reflexivity| |].
    + rewrite Ht. discriminate.
    + rewrite Ht. unfold ExactKey.too_short. apply andb_true_iff.
      split; [apply Z.gtb_lt; exact Hpos | apply Z.ltb_lt; exact Hlen].
Qed.

Lemma fast_fail_leaves_cache_alone_witness :
  let req := Double.request "hi" None in
  let s := snd (DigestKey.classify DigestKey.defaults
                  (Double.request "Dzien dobry, jak sie masz?" None)
                  (Double.ready 5)) in
  0 < DigestKey.MIN_LEN DigestKey.defaults
  /\ length (DigestKey.normalize DigestKey.defaults (text req))
     < DigestKey.MIN_LEN DigestKey.defaults
  /\ snd (DigestKey.classify DigestKey.defaults req s) = s.
Proof.
  intros req s.
  assert (Hpos : 0 < DigestKey.MIN_LEN DigestKey.defaults) by (simpl; lia).
  assert (Hlen : length (DigestKey.normalize DigestKey.defaults (text req))
                 < DigestKey.MIN_LEN DigestKey.defaults)
    by (vm_compute; reflexivity).
  split; [exact Hpos|]. split; [exact Hlen|].
  exact (proj1 (fast_fail_leaves_cache_alone nat Double.counting req s)
           DigestKey.defaults Hpos Hlen).
Defined.

(** ** The reply to a text that is too short *)

(** In server.js the reply to a short text depends on [topN]: the record
    for an undetermined language when [topN] is [1], an empty array
    otherwise. *)
Lemma digest_fast_fail_by_topN (I : Type) (D : Detector I)
    (cfg : DigestKey.Config) (req : Request) (s : State I) (idf : I) :
  identifier s = Some idf ->
  DigestKey.normalize cfg (text req) <> [] ->
  0 < DigestKey.MIN_LEN cfg ->
  length (DigestKey.normalize cfg (text req)) < DigestKey.MIN_LEN cfg ->
  (topN_or_1 req = 1 ->
   fst (DigestKey.classify cfg req s)
   = returned (ResponseBody
       {| input_len := length (DigestKey.normalize cfg (text req));
          cld3 := Single {| language := lit "und"; probability := zero;
                            is_reliable := false; proportion := zero |} |}))
  /\ (1 < topN_or_1 req ->
      fst (DigestKey.classify cfg req s)
      = returned (ResponseBody
          {| input_len := length (DigestKey.normalize cfg (text req));
             cld3 := Ranked [] |})).
Proof.
  intros Hid Hne Hpos Hlen.
  assert (Hshort : DigestKey.too_short cfg (DigestKey.normalize cfg (text req))
                   = true).
  { unfold DigestKey.too_short. apply andb_true_iff.
    split; [apply Z.gtb_lt; exact Hpos | apply Z.ltb_lt; exact Hlen]. }
  rewrite (digest_fast_fail cfg req s idf Hid Hne Hshort). simpl.
  split; intros Hn.
  - rewrite Hn. reflexivity.
  - destruct (topN_or_1 req =? 1) eqn:E; [apply Z.eqb_eq in E; lia|].
    reflexivity.
Qed.

Lemma digest_fast_fail_by_topN_witness :
  let req := Double.request "hi" (Some 3) in
  let s := Double.ready 5 in
  identifier s = Some O
  /\ DigestKey.normalize DigestKey.defaults (text req) <> []
  /\ 0 < DigestKey.MIN_LEN DigestKey.defaults
  /\ length (DigestKey.normalize DigestKey.defaults (text req))
     < DigestKey.MIN_LEN DigestKey.defaults
  /\ 1 < topN_or_1 req
  /\ fst (DigestKey.classify DigestKey.defaults req s)
     = returned (ResponseBody {| input_len := 2; cld3 := Ranked [] |}).
Proof.
  intros req s.
  assert (Hid : identifier s = Some O) by reflexivity.
  assert (Hne : DigestKey.normalize DigestKey.defaults (text req) <> [])
    by (vm_compute; discriminate).
  assert (Hpos : 0 < DigestKey.MIN_LEN DigestKey.defaults) by (simpl; lia).
  assert (Hlen : length (DigestKey.normalize DigestKey.defaults (text req))
                 < DigestKey.MIN_LEN DigestKey.defaults)
    by (vm_compute; reflexivity).
  assert (Hn : 1 < topN_or_1 req) by (vm_compute; reflexivity).
  repeat (split; [assumption|]).
  exact (proj2 (digest_fast_fail_by_topN nat Double.counting DigestKey.defaults
                  req s O Hid Hne Hpos Hlen) Hn).
Defined.

(** In the exact-key server the reply to a short text is the single record,
    whatever [topN] is. *)
Lemma exact_fast_fail_any_topN (I : Type) (D : Detector I)
    (cfg : ExactKey.Config) (req : Request) (s : State I) (idf : I) :
  identifier s = Some idf ->
  ExactKey.normalize (text req) <> [] ->
  0 < ExactKey.MIN_LEN cfg ->
  length (ExactKey.normalize (text req)) < ExactKey.MIN_LEN cfg ->
  fst (ExactKey.classify cfg req s)
  = returned (ResponseBody
      {| input_len := length (ExactKey.normalize (text req));
         cld3 := Single und |}).
Proof.
  intros Hid Hne Hpos Hlen.
  rewrite (exact_fast_fail cfg req s idf Hid Hne); [reflexivity|].
  unfold ExactKey.too_short. apply andb_true_iff.
  split; [apply Z.gtb_lt; exact Hpos | apply Z.ltb_lt; exact Hlen].
Qed.

Lemma exact_fast_fail_any_topN_witness :
  let req := Double.request "hi" (Some 3) in
  let s := Double.ready 5 in
  identifier s = Some O
  /\ ExactKey.normalize (text req) <> []
  /\ 0 < ExactKey.MIN_LEN ExactKey.defaults
  /\ length (ExactKey.normalize (text req)) < ExactKey.MIN_LEN ExactKey.defaults
  /\ fst (ExactKey.classify ExactKey.defaults req s)
     = returned (ResponseBody {| input_len := 2; cld3 := Single und |}).
Proof.
  intros req s.
  assert (Hid : identifier s = Some O) by reflexivity.
  assert (Hne : ExactKey.normalize (text req) <> [])
    by (vm_compute; discriminate).
  assert (Hpos : 0 < ExactKey.MIN_LEN ExactKey.defaults) by (simpl; lia).
  assert (Hlen : length (ExactKey.normalize (text req))
                 < ExactKey.MIN_LEN ExactKey.defaults)
    by (vm_compute; reflexivity).
  repeat (split; [assumption|]).
  exact (exact_fast_fail_any_topN nat Double.counting ExactKey.defaults
           req s O Hid Hne Hpos Hlen).
Defined.

(** C3 at the request [{text: "hi", topN: 3}] with [MIN_LEN = 10] and the
    detector ready: server.js answers with an empty array, as the claim
    says, and the exact-key server answers with the single record. *)
Theorem fast_fail_shape_at_topN_3 :
  let req := Double.request "hi" (Some 3) in
  topN_or_1 req = 3
  /\ length (DigestKey.normalize DigestKey.defaults (text req)) = 2
  /\ length (ExactKey.normalize (text req)) = 2
  /\ fst (DigestKey.classify DigestKey.defaults req (Double.ready 5))
     = returned (ResponseBody {| input_len := 2; cld3 := Ranked [] |})
  /\ fst (ExactKey.classify ExactKey.defaults req (Double.ready 5))
     = returned (ResponseBody
         {| input_len := 2;
            cld3 := Single {| language := lit "und"; probability := zero;
                              is_reliable := false; proportion := zero |} |}).
Proof. vm_compute. repeat split. Qed.

(** ** What the handlers make of the text *)

Lemma slice0_firstn (s : jsstring) (e : Z) :
  0 <= e -> slice0 s e = firstn (Z.to_nat e) s.
Proof.
  intros He. unfold slice0.
  destruct (e <? 0) eqn:E; [apply Z.ltb_lt in E; lia|].
  destruct (Z.le_gt_cases e (length s)) as [Hle|Hgt].
  - rewrite Z.min_l by exact Hle. reflexivity.
  - rewrite Z.min_r by lia. unfold length in *.
    rewrite !firstn_all2 by lia. reflexivity.
Qed.

Lemma detect_event (I : Type) (D : Detector I) (idf : I) (t : jsstring) (n : Z) :
  detector_text (snd (detect idf t n)) = Some t.
Proof.
  unfold detect. destruct (n =? 1).
  - destruct (findLanguage idf t). reflexivity.
  - destruct (findMostFrequentLanguages idf t n). reflexivity.
Qed.

Section TextFacts.

Context {I : Type} `{Detector I}.

(** Whatever server.js hands to the detector during a call is the
    normalized text of the request. *)
Lemma digest_events (cfg : DigestKey.Config) (req : Request) (s : State I) :
  exists evs,
    trace (snd (DigestKey.classify cfg req s)) = trace s ++ evs
    /\ Forall (fun e => forall x, detector_text e = Some x ->
                           x = DigestKey.normalize cfg (text req)) evs.
Proof.
  destruct (identifier s) as [idf|] eqn:Hid.
  2:{ exists []. rewrite digest_not_ready by exact Hid. simpl.
      rewrite app_nil_r. split; [reflexivity | constructor]. }
  destruct (DigestKey.normalize cfg (text req)) as [|c t] eqn:Ht.
  { exists []. rewrite (digest_empty cfg req s idf Hid Ht). simpl.
    rewrite app_nil_r. split; [reflexivity | constructor]. }
  assert (Hne : DigestKey.normalize cfg (text req) <> [])
    by (rewrite Ht; discriminate).
  rewrite <- Ht.
  destruct (DigestKey.too_short cfg (DigestKey.normalize cfg (text req)))
    eqn:Hs.
  { exists []. rewrite (digest_fast_fail cfg req s idf Hid Hne Hs). simpl.
    rewrite app_nil_r. split; [reflexivity | constructor]. }
  destruct (Map_get (DigestKey.cache_key (topN_or_1 req)
                       (DigestKey.normalize cfg (text req)))
              (LRU.map (cache s))) as [out|] eqn:Hg.
  - eexists. rewrite (digest_hit cfg req s idf out Hid Hne Hs Hg). simpl.
    split; [reflexivity|]. constructor; [|constructor].
    intros x Hx. discriminate.
  - eexists. rewrite (digest_miss cfg req s idf Hid Hne Hs Hg). simpl.
    split; [reflexivity|].
    constructor; [intros x Hx; discriminate|].
    constructor; [|constructor; [intros x Hx; discriminate | constructor]].
    intros x Hx. rewrite detect_event in Hx. congruence.
Qed.

(** A reply of server.js that does not come from the cache carries the
    length of the normalized text. *)
Lemma digest_fresh_input_len (cfg : DigestKey.Config) (req : Request)
    (s : State I) (out : ClassificationResponse) :
  fst (DigestKey.classify cfg req s) = returned (ResponseBody out) ->
  DigestKey.too_short cfg (DigestKey.normalize cfg (text req)) = true
  \/ Map_get (DigestKey.cache_key (topN_or_1 req)
                (DigestKey.normalize cfg (text req)))
             (LRU.map (cache s)) = None ->
  input_len out = length (DigestKey.normalize cfg (text req)).
Proof.
  intros Hr Hfresh.
  destruct (identifier s) as [idf|] eqn:Hid;
    [|rewrite digest_not_ready in Hr by exact Hid; discriminate].
  destruct (DigestKey.normalize cfg (text req)) as [|c t] eqn:Ht;
    [rewrite (digest_empty cfg req s idf Hid Ht) in Hr; discriminate|].
  assert (Hne : DigestKey.normalize cfg (text req) <> [])
    by (rewrite Ht; discriminate).
  rewrite <- Ht in *.
  destruct (DigestKey.too_short cfg (DigestKey.normalize cfg (text req)))
    eqn:Hs.
  - rewrite (digest_fast_fail cfg req s idf Hid Hne Hs) in Hr.
    inversion Hr. reflexivity.
  - destruct Hfresh as [Hf|Hg]; [discriminate|].
    rewrite (digest_miss cfg req s idf Hid Hne Hs Hg) in Hr.
    inversion Hr. reflexivity.
Qed.

Lemma exact_events (cfg : ExactKey.Config) (req : Request) (s : State I) :
  exists evs,
    trace (snd (ExactKey.classify cfg req s)) = trace s ++ evs
    /\ Forall (fun e => forall x, detector_text e = Some x ->
                           x = ExactKey.normalize (text req)) evs.
Proof.
  destruct (identifier s) as [idf|] eqn:Hid.
  2:{ exists []. rewrite exact_not_ready by exact Hid. simpl.
      rewrite app_nil_r. split; [reflexivity | constructor]. }
  destruct (ExactKey.normalize (text req)) as [|c t] eqn:Ht.
  { exists []. rewrite (exact_empty cfg req s idf Hid Ht). simpl.
    rewrite app_nil_r. split; [reflexivity | constructor]. }
  assert (Hne : ExactKey.normalize (text req) <> [])
    by (rewrite Ht; discriminate).
  rewrite <- Ht.
  destruct (ExactKey.too_short cfg (ExactKey.normalize (text req))) eqn:Hs.
  { exists []. rewrite (exact_fast_fail cfg req s idf Hid Hne Hs). simpl.
    rewrite app_nil_r. split; [reflexivity | constructor]. }
  destruct (Map_get (ExactKey.cache_key (topN_or_1 req)
                       (ExactKey.normalize (text req)))
              (LRU.map (cache s))) as [out|] eqn:Hg.
  - eexists. rewrite (exact_hit cfg req s idf out Hid Hne Hs Hg). simpl.
    split; [reflexivity|]. constructor; [|constructor].
    intros x Hx. discriminate.
  - eexists. rewrite (exact_miss cfg req s idf Hid Hne Hs Hg). simpl.
    split; [reflexivity|].
    constructor; [intros x Hx; discriminate|].
    constructor; [|constructor; [intros x Hx; discriminate | constructor]].
    intros x Hx. rewrite detect_event in Hx. congruence.
Qed.

Lemma exact_fresh_input_len (cfg : ExactKey.Config) (req : Request)
    (s : State I) (out : ClassificationResponse) :
  fst (ExactKey.classify cfg req s) = returned (ResponseBody out) ->
  ExactKey.too_short cfg (ExactKey.normalize (text req)) = true
  \/ Map_get (ExactKey.cache_key (topN_or_1 req)
                (ExactKey.normalize (text req)))
             (LRU.map (cache s)) = None ->
  input_len out = length (ExactKey.normalize (text req)).
Proof.
  intros Hr Hfresh.
  destruct (identifier s) as [idf|] eqn:Hid;
    [|rewrite exact_not_ready in Hr by exact Hid; discriminate].
  destruct (ExactKey.normalize (text req)) as [|c t] eqn:Ht;
    [rewrite (exact_empty cfg req s idf Hid Ht) in Hr; discriminate|].
  assert (Hne : ExactKey.normalize (text req) <> [])
    by (rewrite Ht; discriminate).
  rewrite <- Ht in *.
  destruct (ExactKey.too_short cfg (ExactKey.normalize (text req))) eqn:Hs.
  - rewrite (exact_fast_fail cfg req s idf Hid Hne Hs) in Hr.
    inversion Hr. reflexivity.
  - destruct Hfresh as [Hf|Hg]; [discriminate|].
    rewrite (exact_miss cfg req s idf Hid Hne Hs Hg) in Hr.
    inversion Hr. reflexivity.
Qed.

End TextFacts.

(** C4, as the code has it.  In server.js, for [MAX_INPUT_CHARS >= 0], the
    text is trimmed and then cut to its first [MAX_INPUT_CHARS] code units,
    a reply that is not taken from the cache has the length of that text
    as [input_len], and the detector is handed that text and no other, so
    never more than [MAX_INPUT_CHARS] code units.  The exact-key server
    has no [MAX_INPUT_CHARS]: its text is the trimmed text, uncut; a reply
    that is not taken from the cache has the length of the trimmed text
    as [input_len], and the detector is handed the trimmed text. *)
Theorem input_trimmed_then_cut (I : Type) (D : Detector I)
    (req : Request) (s : State I) :
  (forall cfg : DigestKey.Config,
      0 <= DigestKey.MAX_INPUT_CHARS cfg ->
      let t := DigestKey.normalize cfg (text req) in
      t = firstn (Z.to_nat (DigestKey.MAX_INPUT_CHARS cfg)) (trim (text req))
      /\ length t <= DigestKey.MAX_INPUT_CHARS cfg
      /\ (forall out,
             fst (DigestKey.classify cfg req s) = returned (ResponseBody out) ->
             DigestKey.too_short cfg t = true
             \/ Map_get (DigestKey.cache_key (topN_or_1 req) t)
                        (LRU.map (cache s)) = None ->
             input_len out = length t)
      /\ exists evs,
           trace (snd (DigestKey.classify cfg req s)) = trace s ++ evs
           /\ Forall (fun e => forall x, detector_text e = Some x ->
                          x = t /\ length x <= DigestKey.MAX_INPUT_CHARS cfg)
                     evs)
  /\
  (forall cfg : ExactKey.Config,
      let t := ExactKey.normalize (text req) in
      t = trim (text req)
      /\ (forall out,
             fst (ExactKey.classify cfg req s) = returned (ResponseBody out) ->
             ExactKey.too_short cfg t = true
             \/ Map_get (ExactKey.cache_key (topN_or_1 req) t)
                        (LRU.map (cache s)) = None ->
             input_len out = length t)
      /\ exists evs,
           trace (snd (ExactKey.classify cfg req s)) = trace s ++ evs
           /\ Forall (fun e => forall x, detector_text e = Some x -> x = t)
                     evs).
Proof.
  split.
  - intros cfg Hmax t.
    assert (Hlen : length t <= DigestKey.MAX_INPUT_CHARS cfg).
    { unfold t, DigestKey.normalize. rewrite slice0_length by exact Hmax. lia. }
    split; [apply slice0_firstn; exact Hmax|]. split; [exact Hlen|]. split.
    + intros out. apply digest_fresh_input_len.
    + destruct (digest_events cfg req s) as [evs [Etr Hall]].
      exists evs. split; [exact Etr|].
      rewrite Forall_forall in *. intros e He x Hx.
      rewrite (Hall e He x Hx). split; [reflexivity | exact Hlen].
  - intros cfg t. split; [reflexivity|]. split.
    + intros out. apply exact_fresh_input_len.
    + apply exact_events.
Qed.

Lemma input_trimmed_then_cut_witness :
  let cfg := {| DigestKey.CACHE_MAX := 5; DigestKey.MIN_LEN := 0;
                DigestKey.MAX_INPUT_CHARS := 5;
                DigestKey.RATE_LIMIT_MAX := 0;
                DigestKey.CLD_MIN_BYTES := 0;
                DigestKey.CLD_MAX_BYTES := 1000 |} in
  let req := Double.request "  Dzien dobry  " None in
  0 <= DigestKey.MAX_INPUT_CHARS cfg
  /\ DigestKey.normalize cfg (text req) = lit "Dzien"
  /\ length (DigestKey.normalize cfg (text req)) <= 5.
Proof.
  intros cfg req.
  assert (Hmax : 0 <= DigestKey.MAX_INPUT_CHARS cfg) by (simpl; lia).
  split; [exact Hmax|].
  destruct (proj1 (input_trimmed_then_cut nat Double.counting req
                     (Double.ready 5)) cfg Hmax) as [Ht [Hlen _]].
  split; [rewrite Ht; reflexivity | exact Hlen].
Defined.

(** C4 as stated fails in two places.  The exact-key server hands a text
    of 4001 characters to the detector, uncut, and reports 4001 as
    [input_len]; and server.js started with [MAX_INPUT_CHARS = -1] only
    drops the last character, so that the detector gets twelve of the
    thirteen characters, more than [MAX_INPUT_CHARS]. *)
Lemma long_text_reaches_detector :
  (let long := repeat 97 4001 in
   let r := ExactKey.classify ExactKey.defaults
              {| text := long; topN := None |} (Double.ready 5) in
   DigestKey.MAX_INPUT_CHARS DigestKey.defaults = 4000
   /\ length long = 4001
   /\ detector_calls (trace (snd r)) = [EvFindLanguage long]
   /\ fst r = returned (ResponseBody
                {| input_len := 4001; cld3 := Single Double.pl |}))
  /\
  (let cfg := {| DigestKey.CACHE_MAX := 5; DigestKey.MIN_LEN := 10;
                 DigestKey.MAX_INPUT_CHARS := -1;
                 DigestKey.RATE_LIMIT_MAX := 0;
                 DigestKey.CLD_MIN_BYTES := 0;
                 DigestKey.CLD_MAX_BYTES := 1000 |} in
   let r := DigestKey.classify cfg (Double.request "hello world!!" None)
              (Double.ready 5) in
   detector_calls (trace (snd r)) = [EvFindLanguage (lit "hello world!")]
   /\ length (lit "hello world!") = 12
   /\ fst r = returned (ResponseBody
                {| input_len := 12; cld3 := Single Double.pl |})).
Proof. vm_compute. repeat split. Qed.

(** ** Cache keys *)

Lemma toString_small (n : Z) :
  1 <= n <= 10 -> toString n = if n =? 10 then [49; 48] else [48 + n].
Proof.
  intros Hn.
  assert (Hcases : n = 1 \/ n = 2 \/ n = 3 \/ n = 4 \/ n = 5 \/ n = 6
                   \/ n = 7 \/ n = 8 \/ n = 9 \/ n = 10) by lia.
  repeat (destruct Hcases as [->|Hcases]; [reflexivity|]).
  subst n. reflexivity.
Qed.

Lemma toString_small_inj (n1 n2 : Z) :
  1 <= n1 <= 10 -> 1 <= n2 <= 10 -> toString n1 = toString n2 -> n1 = n2.
Proof.
  intros H1 H2 E.
  assert (C1 : n1 = 1 \/ n1 = 2 \/ n1 = 3 \/ n1 = 4 \/ n1 = 5 \/ n1 = 6
               \/ n1 = 7 \/ n1 = 8 \/ n1 = 9 \/ n1 = 10) by lia.
  assert (C2 : n2 = 1 \/ n2 = 2 \/ n2 = 3 \/ n2 = 4 \/ n2 = 5 \/ n2 = 6
               \/ n2 = 7 \/ n2 = 8 \/ n2 = 9 \/ n2 = 10) by lia.
  clear H1 H2.
  repeat (destruct C1 as [C1|C1]); subst n1;
    repeat (destruct C2 as [C2|C2]); subst n2;
    try reflexivity; vm_compute in E; discriminate E.
Qed.

Lemma digest_key_topN (n1 n2 : Z) (t : jsstring) :
  1 <= n1 <= 10 -> 1 <= n2 <= 10 -> n1 <> n2 ->
  DigestKey.cache_key n1 t <> DigestKey.cache_key n2 t.
Proof.
  intros H1 H2 Hne E. unfold DigestKey.cache_key in E.
  apply app_inv_tail in E. apply Hne.
  apply toString_small_inj; assumption.
Qed.

Lemma exact_key_topN (n1 n2 : Z) (t : jsstring) :
  1 <= n1 <= 10 -> 1 <= n2 <= 10 -> n1 <> n2 ->
  ExactKey.cache_key n1 t <> ExactKey.cache_key n2 t.
Proof.
  intros H1 H2 Hne E. unfold ExactKey.cache_key in E.
  assert (Hlonger : forall n, 1 <= n <= 10 -> t <> toString n ++ [0] ++ t).
  { intros n Hn Et. apply (f_equal (@List.length Z)) in Et.
    rewrite !length_app, (toString_small n Hn) in Et.
    destruct (n =? 10); simpl in Et; lia. }
  destruct (n1 =? 1) eqn:E1; destruct (n2 =? 1) eqn:E2;
    try apply Z.eqb_eq in E1; try apply Z.eqb_eq in E2.
  - lia.
  - exact (Hlonger n2 H2 E).
  - exact (Hlonger n1 H1 (eq_sym E)).
  - apply app_inv_tail in E. apply Hne.
    apply toString_small_inj; assumption.
Qed.

(** The keys of the exact-key server do tell [topN] apart for one text, but
    not across texts: the text ["2\u0000abc"] with [topN = 1] and the text
    ["abc"] with [topN = 2] have the same key. *)
Remark exact_key_clash :
  ExactKey.cache_key 1 ([50; 0] ++ lit "abc") = ExactKey.cache_key 2 (lit "abc")
  /\ trim ([50; 0] ++ lit "abc") = [50; 0] ++ lit "abc".
Proof. split; reflexivity. Qed.

Section KeyUsed.

Context {I : Type} `{Detector I}.

(** The key a call of server.js looks up, when the call gets as far as the
    cache. *)
Lemma digest_key_used (cfg : DigestKey.Config) (req : Request) (s : State I)
    (idf : I) :
  identifier s = Some idf ->
  DigestKey.normalize cfg (text req) <> [] ->
  DigestKey.too_short cfg (DigestKey.normalize cfg (text req)) = false ->
  exists evs,
    trace (snd (DigestKey.classify cfg req s))
    = trace s ++ EvCacheGet (DigestKey.cache_key (topN_or_1 req)
                               (DigestKey.normalize cfg (text req))) :: evs.
Proof.
  intros Hid Hne Hs.
  destruct (Map_get (DigestKey.cache_key (topN_or_1 req)
                       (DigestKey.normalize cfg (text req)))
              (LRU.map (cache s))) as [out|] eqn:Hg.
  - exists []. rewrite (digest_hit cfg req s idf out Hid Hne Hs Hg).
    reflexivity.
  - eexists. rewrite (digest_miss cfg req s idf Hid Hne Hs Hg).
    reflexivity.
Qed.

Lemma exact_key_used (cfg : ExactKey.Config) (req : Request) (s : State I)
    (idf : I) :
  identifier s = Some idf ->
  ExactKey.normalize (text req) <> [] ->
  ExactKey.too_short cfg (ExactKey.normalize (text req)) = false ->
  exists evs,
    trace (snd (ExactKey.classify cfg req s))
    = trace s ++ EvCacheGet (ExactKey.cache_key (topN_or_1 req)
                               (ExactKey.normalize (text req))) :: evs.
Proof.
  intros Hid Hne Hs.
  destruct (Map_get (ExactKey.cache_key (topN_or_1 req)
                       (ExactKey.normalize (text req)))
              (LRU.map (cache s))) as [out|] eqn:Hg.
  - exists []. rewrite (exact_hit cfg req s idf out Hid Hne Hs Hg).
    reflexivity.
  - eexists. rewrite (exact_miss cfg req s idf Hid Hne Hs Hg).
    reflexivity.
Qed.

End KeyUsed.

(** C5.  In both servers, two requests with the same [topN] and the same
    normalized text look up the same key, whatever the state of the cache
    and of the detector; and for one text, two different values of [topN]
    between 1 and 10 give two different keys. *)
Theorem cache_key_of_topN_and_text (I : Type) (D : Detector I) :
  (forall (cfg : DigestKey.Config) (req1 req2 : Request) (s1 s2 : State I)
          (idf1 idf2 : I),
      identifier s1 = Some idf1 -> identifier s2 = Some idf2 ->
      DigestKey.normalize cfg (text req1) <> [] ->
      DigestKey.too_short cfg (DigestKey.normalize cfg (text req1)) = false ->
      topN_or_1 req1 = topN_or_1 req2 ->
      DigestKey.normalize cfg (text req1) = DigestKey.normalize cfg (text req2) ->
      exists key evs1 evs2,
        key = DigestKey.cache_key (topN_or_1 req1)
                (DigestKey.normalize cfg (text req1))
        /\ trace (snd (DigestKey.classify cfg req1 s1))
           = trace s1 ++ EvCacheGet key :: evs1
        /\ trace (snd (DigestKey.classify cfg req2 s2))
           = trace s2 ++ EvCacheGet key :: evs2)
  /\ (forall n1 n2 t,
         1 <= n1 <= 10 -> 1 <= n2 <= 10 -> n1 <> n2 ->
         DigestKey.cache_key n1 t <> DigestKey.cache_key n2 t)
  /\ (forall (cfg : ExactKey.Config) (req1 req2 : Request) (s1 s2 : State I)
             (idf1 idf2 : I),
         identifier s1 = Some idf1 -> identifier s2 = Some idf2 ->
         ExactKey.normalize (text req1) <> [] ->
         ExactKey.too_short cfg (ExactKey.normalize (text req1)) = false ->
         topN_or_1 req1 = topN_or_1 req2 ->
         ExactKey.normalize (text req1) = ExactKey.normalize (text req2) ->
         exists key evs1 evs2,
           key = ExactKey.cache_key (topN_or_1 req1)
                   (ExactKey.normalize (text req1))
           /\ trace (snd (ExactKey.classify cfg req1 s1))
              = trace s1 ++ EvCacheGet key :: evs1
           /\ trace (snd (ExactKey.classify cfg req2 s2))
              = trace s2 ++ EvCacheGet key :: evs2)
  /\ (forall n1 n2 t,
         1 <= n1 <= 10 -> 1 <= n2 <= 10 -> n1 <> n2 ->
         ExactKey.cache_key n1 t <> ExactKey.cache_key n2 t).
Proof.
  split; [|split; [exact digest_key_topN | split; [|exact exact_key_topN]]].
  - intros cfg req1 req2 s1 s2 idf1 idf2 Hid1 Hid2 Hne Hs Hn Ht.
    destruct (digest_key_used cfg req1 s1 idf1 Hid1 Hne Hs) as [evs1 E1].
    assert (Hne2 : DigestKey.normalize cfg (text req2) <> [])
      by (rewrite <- Ht; exact Hne).
    assert (Hs2 : DigestKey.too_short cfg (DigestKey.normalize cfg (text req2))
                  = false) by (rewrite <- Ht; exact Hs).
    destruct (digest_key_used cfg req2 s2 idf2 Hid2 Hne2 Hs2) as [evs2 E2].
    rewrite <- Hn, <- Ht in E2.
    exists (DigestKey.cache_key (topN_or_1 req1)
              (DigestKey.normalize cfg (text req1))), evs1, evs2.
    split; [reflexivity|]. split; assumption.
  - intros cfg req1 req2 s1 s2 idf1 idf2 Hid1 Hid2 Hne Hs Hn Ht.
    destruct (exact_key_used cfg req1 s1 idf1 Hid1 Hne Hs) as [evs1 E1].
    assert (Hne2 : ExactKey.normalize (text req2) <> [])
      by (rewrite <- Ht; exact Hne).
    assert (Hs2 : ExactKey.too_short cfg (ExactKey.normalize (text req2))
                  = false) by (rewrite <- Ht; exact Hs).
    destruct (exact_key_used cfg req2 s2 idf2 Hid2 Hne2 Hs2) as [evs2 E2].
    rewrite <- Hn, <- Ht in E2.
    exists (ExactKey.cache_key (topN_or_1 req1)
              (ExactKey.normalize (text req1))), evs1, evs2.
    split; [reflexivity|]. split; assumption.
Qed.

Lemma cache_key_of_topN_and_text_witness :
  1 <= 2 <= 10 /\ 1 <= 10 <= 10 /\ 2 <> 10
  /\ DigestKey.cache_key 2 (lit "Dzien dobry") 
     <> DigestKey.cache_key 10 (lit "Dzien dobry")
  /\ ExactKey.cache_key 2 (lit "Dzien dobry")
     <> ExactKey.cache_key 10 (lit "Dzien dobry").
Proof.
  assert (H2 : 1 <= 2 <= 10) by lia.
  assert (H10 : 1 <= 10 <= 10) by lia.
  assert (Hne : 2 <> 10) by lia.
  repeat (split; [assumption|]).
  pose proof (cache_key_of_topN_and_text nat Double.counting)
    as [_ [Hd [_ He]]].
  split; [apply Hd | apply He]; assumption.
Defined.

(** ** A collision of digest keys *)

Lemma sea_mud_hash : fnv1a Double.sea = fnv1a Double.mud.
Proof. vm_compute. reflexivity. Qed.

Lemma sea_mud_key (n : Z) :
  DigestKey.cache_key n Double.sea = DigestKey.cache_key n Double.mud.
Proof.
  unfold DigestKey.cache_key. rewrite sea_mud_hash.
  replace (length Double.sea) with (length Double.mud) by reflexivity.
  reflexivity.
Qed.

Lemma digest_normalize_clean (cfg : DigestKey.Config) (t : jsstring) :
  trim t = t -> length t <= DigestKey.MAX_INPUT_CHARS cfg ->
  DigestKey.normalize cfg t = t.
Proof.
  intros Htrim Hlen. unfold DigestKey.normalize. rewrite Htrim.
  apply slice0_all. exact Hlen.
Qed.

(** C9.  In server.js the texts "sea sea dog a pig" and "mud cow way bee a"
    differ, have the same length and the same FNV-1a hash, and therefore
    the same cache key for every [topN]; with the detector ready, a cache
    of capacity at least one and a configuration that lets seventeen
    characters through, classifying the first and then the second gives
    the second the reply of the first, without a call to the detector;
    starting from an empty cache, that reply is what the detector said of
    the first text. *)
Theorem digest_key_collision (I : Type) (D : Detector I) :
  Double.sea <> Double.mud
  /\ length Double.sea = length Double.mud
  /\ fnv1a Double.sea = fnv1a Double.mud
  /\ (forall n, DigestKey.cache_key n Double.sea
                = DigestKey.cache_key n Double.mud)
  /\ forall (cfg : DigestKey.Config) (s : State I) (idf : I) (n : option Z),
       identifier s = Some idf ->
       1 <= LRU.max (cache s) ->
       DigestKey.MIN_LEN cfg <= 17 ->
       17 <= DigestKey.MAX_INPUT_CHARS cfg ->
       let req1 := {| text := Double.sea; topN := n |} in
       let req2 := {| text := Double.mud; topN := n |} in
       let r1 := DigestKey.classify cfg req1 s in
       let r2 := DigestKey.classify cfg req2 (snd r1) in
       fst r2 = fst r1
       /\ identifier (snd r2) = identifier (snd r1)
       /\ detector_calls (trace (snd r2)) = detector_calls (trace (snd r1))
       /\ (LRU.map (cache s) = [] ->
           fst r2
           = returned (ResponseBody
               {| input_len := 17;
                  cld3 := fst (fst (detect idf Double.sea
                                      (topN_or_1 req1))) |})).
Proof.
  split; [vm_compute; discriminate|]. split; [reflexivity|].
  split; [exact sea_mud_hash|]. split; [exact sea_mud_key|].
  intros cfg s idf n Hid Hmax Hmin Hcut req1 req2 r1 r2.
  assert (Hn1 : DigestKey.normalize cfg (text req1) = Double.sea)
    by (apply digest_normalize_clean; [reflexivity | exact Hcut]).
  assert (Hn2 : DigestKey.normalize cfg (text req2) = Double.mud)
    by (apply digest_normalize_clean; [reflexivity | exact Hcut]).
  assert (Hne1 : DigestKey.normalize cfg (text req1) <> [])
    by (rewrite Hn1; discriminate).
  assert (Hne2 : DigestKey.normalize cfg (text req2) <> [])
    by (rewrite Hn2; discriminate).
  assert (Hs1 : DigestKey.too_short cfg (DigestKey.normalize cfg (text req1))
                = false)
    by (apply digest_long_enough; rewrite Hn1; exact Hmin).
  assert (Hs2 : DigestKey.too_short cfg (DigestKey.normalize cfg (text req2))
                = false)
    by (apply digest_long_enough; rewrite Hn2; exact Hmin).
  assert (Hkey : DigestKey.cache_key (topN_or_1 req1)
                   (DigestKey.normalize cfg (text req1))
                 = DigestKey.cache_key (topN_or_1 req2)
                     (DigestKey.normalize cfg (text req2)))
    by (rewrite Hn1, Hn2; apply sea_mud_key).
  destruct (digest_same_key cfg req1 req2 s idf Hid Hmax Hne1 Hne2 Hs1 Hs2
              Hkey) as [E1 [E2 [E3 _]]].
  fold r1 in E1, E2, E3. fold r2 in E1, E2, E3.
  split; [exact E1|]. split; [exact E2|]. split.
  - rewrite E3, detector_calls_app. simpl. apply app_nil_r.
  - intros Hempty. rewrite E1. unfold r1.
    rewrite (digest_miss cfg req1 s idf Hid Hne1 Hs1)
      by (rewrite Hempty; reflexivity).
    cbv zeta. rewrite Hn1. reflexivity.
Qed.

(** C9 on the test double, which counts the calls made to it: after both
    texts have been classified it has been called once. *)
Lemma digest_key_collision_witness :
  let s := Double.ready 5 in
  let r1 := DigestKey.classify DigestKey.defaults
              {| text := Double.sea; topN := None |} s in
  let r2 := DigestKey.classify DigestKey.defaults
              {| text := Double.mud; topN := None |} (snd r1) in
  identifier s = Some O
  /\ 1 <= LRU.max (cache s)
  /\ DigestKey.MIN_LEN DigestKey.defaults <= 17
  /\ 17 <= DigestKey.MAX_INPUT_CHARS DigestKey.defaults
  /\ fst r2 = fst r1
  /\ identifier (snd r2) = identifier (snd r1).
Proof.
  intros s r1 r2.
  assert (Hid : identifier s = Some O) by reflexivity.
  assert (Hmax : 1 <= LRU.max (cache s)) by (simpl; lia).
  assert (Hmin : DigestKey.MIN_LEN DigestKey.defaults <= 17) by (simpl; lia).
  assert (Hcut : 17 <= DigestKey.MAX_INPUT_CHARS DigestKey.defaults)
    by (simpl; lia).
  repeat (split; [assumption|]).
  destruct (proj2 (proj2 (proj2 (proj2
              (digest_key_collision nat Double.counting))))
              DigestKey.defaults s O None Hid Hmax Hmin Hcut)
    as [E1 [E2 _]].
  split; [exact E1 | exact E2].
Defined.

(** ** The detector is there before the server listens *)

Section ServiceFacts.

Context {I : Type}.
Variable classify : Request -> State I -> Reply * State I.

Hypothesis classify_keeps :
  forall req s, identifier s <> None ->
                identifier (snd (classify req s)) <> None.
Hypothesis classify_code :
  forall req s, identifier s <> None -> code (fst (classify req s)) <> 503.

Lemma handle_keeps (r : Route) (s : State I) :
  identifier s <> None -> identifier (snd (handle classify r s)) <> None.
Proof.
  intros Hid. destruct r as [| |req]; simpl.
  - exact Hid.
  - unfold ready. destruct (identifier s) eqn:E; simpl; congruence.
  - apply classify_keeps. exact Hid.
Qed.

Lemma handle_code (r : Route) (s : State I) :
  identifier s <> None -> code (fst (handle classify r s)) <> 503.
Proof.
  intros Hid. destruct r as [| |req]; simpl.
  - discriminate.
  - unfold ready. destruct (identifier s); [simpl; discriminate | congruence].
  - apply classify_code. exact Hid.
Qed.

(** Whoever serves requests has a detector, if the process started so. *)
Lemma serving_has_detector (p0 p : Process I) :
  (serving (phase p0) = true -> identifier (state p0) <> None) ->
  reachable classify p0 p ->
  serving (phase p) = true -> identifier (state p) <> None.
Proof.
  intros Hstart Hreach. induction Hreach as [|p p' l Hreach IH Hstep].
  - exact Hstart.
  - inversion Hstep; subst; simpl.
    + intros Hserv. apply handle_keeps. apply IH. exact Hserv.
    + intros _. apply IH. assumption.
    + discriminate.
Qed.

(** Nothing happens after the evaluation of the module has thrown. *)
Lemma crashed_is_final (p0 p : Process I) :
  phase p0 = Crashed -> reachable classify p0 p -> p = p0.
Proof.
  intros Hcr Hreach. induction Hreach as [|p p' l Hreach IH Hstep].
  - reflexivity.
  - subst p. inversion Hstep; subst;
      match goal with
      | Hs : serving (phase p0) = true |- _ =>
          rewrite Hcr in Hs; discriminate Hs
      | Hc : phase p0 = Closing |- _ => congruence
      end.
Qed.

End ServiceFacts.

Lemma initDetector_thrown (I : Type) (a b : Z) (w : World I) (s s' : State I) :
  initDetector a b w s = Thrown -> initDetector a b w s' = Thrown.
Proof.
  unfold initDetector. destruct (loadModule w) as [factory|]; [|reflexivity].
  destruct (create factory a b); [discriminate | reflexivity].
Qed.

Lemma initDetector_sets (I : Type) (a b : Z) (w : World I) (s s1 : State I) :
  initDetector a b w s = Returned s1 -> identifier s1 <> None.
Proof.
  unfold initDetector. destruct (loadModule w) as [factory|]; [|discriminate].
  destruct (create factory a b); [|discriminate].
  intros E. inversion E. simpl. discriminate.
Qed.

Section StartFacts.

Context {I : Type} `{Detector I}.

Lemma digest_keeps (cfg : DigestKey.Config) (req : Request) (s : State I) :
  identifier s <> None ->
  identifier (snd (DigestKey.classify cfg req s)) <> None.
Proof.
  intros Hid. unfold DigestKey.classify.
  destruct (identifier s) as [idf|] eqn:E; [|congruence]. cbv zeta.
  destruct (DigestKey.normalize cfg (text req)); [simpl; congruence|].
  destruct (DigestKey.too_short cfg _); [simpl; congruence|].
  destruct (LRU.get _ (cache s)) as [[out|] c1]; [simpl; discriminate|].
  destruct (detect idf _ _) as [[result idf'] ev]. simpl. discriminate.
Qed.

Lemma digest_code (cfg : DigestKey.Config) (req : Request) (s : State I) :
  identifier s <> None ->
  code (fst (DigestKey.classify cfg req s)) <> 503.
Proof.
  intros Hid. unfold DigestKey.classify.
  destruct (identifier s) as [idf|] eqn:E; [|congruence]. cbv zeta.
  destruct (DigestKey.normalize cfg (text req)); [simpl; discriminate|].
  destruct (DigestKey.too_short cfg _); [simpl; discriminate|].
  destruct (LRU.get _ (cache s)) as [[out|] c1]; [simpl; discriminate|].
  destruct (detect idf _ _) as [[result idf'] ev]. simpl. discriminate.
Qed.

Lemma exact_keeps (cfg : ExactKey.Config) (req : Request) (s : State I) :
  identifier s <> None ->
  identifier (snd (ExactKey.classify cfg req s)) <> None.
Proof.
  intros Hid. unfold ExactKey.classify.
  destruct (identifier s) as [idf|] eqn:E; [|congruence]. cbv zeta.
  destruct (ExactKey.normalize (text req)); [simpl; congruence|].
  destruct (ExactKey.too_short cfg _); [simpl; congruence|].
  destruct (LRU.get _ (cache s)) as [[out|] c1]; [simpl; discriminate|].
  destruct (detect idf _ _) as [[result idf'] ev]. simpl. discriminate.
Qed.

Lemma exact_code (cfg : ExactKey.Config) (req : Request) (s : State I) :
  identifier s <> None ->
  code (fst (ExactKey.classify cfg req s)) <> 503.
Proof.
  intros Hid. unfold ExactKey.classify.
  destruct (identifier s) as [idf|] eqn:E; [|congruence]. cbv zeta.
  destruct (ExactKey.normalize (text req)); [simpl; discriminate|].
  destruct (ExactKey.too_short cfg _); [simpl; discriminate|].
  destruct (LRU.get _ (cache s)) as [[out|] c1]; [simpl; discriminate|].
  destruct (detect idf _ _) as [[result idf'] ev]. simpl. discriminate.
Qed.

(** When the start of server.js ends with the server listening, the
    detector has been created. *)
Lemma digest_main_ready (cfg : DigestKey.Config) (w : World I) :
  serving (phase (DigestKey.main cfg w)) = true ->
  identifier (state (DigestKey.main cfg w)) <> None.
Proof.
  unfold DigestKey.main. cbv zeta.
  destruct (negb (helmet w)); [discriminate|].
  destruct ((DigestKey.RATE_LIMIT_MAX cfg >? 0) && negb (rateLimit w));
    [discriminate|].
  destruct (initDetector _ _ w _) as [s1|] eqn:Ei; [|discriminate].
  destruct (listen w); [|discriminate].
  intros _. simpl. exact (initDetector_sets _ _ _ _ _ _ Ei).
Qed.

Lemma digest_main_crashed (cfg : DigestKey.Config) (w : World I) (s0 : State I) :
  initDetector (DigestKey.CLD_MIN_BYTES cfg) (DigestKey.CLD_MAX_BYTES cfg) w s0
  = Thrown ->
  phase (DigestKey.main cfg w) = Crashed.
Proof.
  intros Ei. unfold DigestKey.main. cbv zeta.
  destruct (negb (helmet w)); [reflexivity|].
  destruct ((DigestKey.RATE_LIMIT_MAX cfg >? 0) && negb (rateLimit w));
    [reflexivity|].
  rewrite (initDetector_thrown _ _ _ _ _ _ Ei). reflexivity.
Qed.

Lemma exact_main_ready (cfg : ExactKey.Config) (w : World I) :
  serving (phase (ExactKey.main cfg w)) = true ->
  identifier (state (ExactKey.main cfg w)) <> None.
Proof.
  unfold ExactKey.main. cbv zeta.
  destruct (negb (helmet w)); [discriminate|].
  destruct (negb (compress w)); [discriminate|].
  destruct ((ExactKey.RATE_LIMIT_MAX cfg >? 0) && negb (rateLimit w));
    [discriminate|].
  destruct (initDetector _ _ w _) as [s1|] eqn:Ei; [|discriminate].
  destruct (listen w); [|discriminate].
  intros _. simpl. exact (initDetector_sets _ _ _ _ _ _ Ei).
Qed.

Lemma exact_main_crashed (cfg : ExactKey.Config) (w : World I) (s0 : State I) :
  initDetector (ExactKey.CLD_MIN_BYTES cfg) (ExactKey.CLD_MAX_BYTES cfg) w s0
  = Thrown ->
  phase (ExactKey.main cfg w) = Crashed.
Proof.
  intros Ei. unfold ExactKey.main. cbv zeta.
  destruct (negb (helmet w)); [reflexivity|].
  destruct (negb (compress w)); [reflexivity|].
  destruct ((ExactKey.RATE_LIMIT_MAX cfg >? 0) && negb (rateLimit w));
    [reflexivity|].
  rewrite (initDetector_thrown _ _ _ _ _ _ Ei). reflexivity.
Qed.

End StartFacts.

(** C10.  In both servers, whatever happens after the module has started,
    a request is only ever served by a process whose [identifier] is set,
    and its reply is never a 503; and when [initDetector] throws, the
    process has crashed before listening and serves nothing. *)
Theorem served_requests_find_detector (I : Type) (D : Detector I) :
  (forall (cfg : DigestKey.Config) (w : World I) (p p' : Process I)
          (r : Route) (reply : Reply),
      reachable (DigestKey.classify cfg) (DigestKey.main cfg w) p ->
      step (DigestKey.classify cfg) p (Served r reply) p' ->
      identifier (state p) <> None /\ code reply <> 503)
  /\ (forall (cfg : DigestKey.Config) (w : World I) (s0 : State I)
             (p p' : Process I) (l : Label),
         initDetector (DigestKey.CLD_MIN_BYTES cfg)
           (DigestKey.CLD_MAX_BYTES cfg) w s0 = Thrown ->
         reachable (DigestKey.classify cfg) (DigestKey.main cfg w) p ->
         phase p = Crashed /\ ~ step (DigestKey.classify cfg) p l p')
  /\ (forall (cfg : ExactKey.Config) (w : World I) (p p' : Process I)
             (r : Route) (reply : Reply),
         reachable (ExactKey.classify cfg) (ExactKey.main cfg w) p ->
         step (ExactKey.classify cfg) p (Served r reply) p' ->
         identifier (state p) <> None /\ code reply <> 503)
  /\ (forall (cfg : ExactKey.Config) (w : World I) (s0 : State I)
             (p p' : Process I) (l : Label),
         initDetector (ExactKey.CLD_MIN_BYTES cfg)
           (ExactKey.CLD_MAX_BYTES cfg) w s0 = Thrown ->
         reachable (ExactKey.classify cfg) (ExactKey.main cfg w) p ->
         phase p = Crashed /\ ~ step (ExactKey.classify cfg) p l p').
Proof.
  split; [|split; [|split]].
  - intros cfg w p p' r reply Hreach Hstep.
    inversion Hstep as [q r' Hserv| |]; subst.
    assert (Hid : identifier (state p) <> None).
    { apply (serving_has_detector (DigestKey.classify cfg)
               (digest_keeps cfg) (DigestKey.main cfg w) p
               (digest_main_ready cfg w) Hreach Hserv). }
    split; [exact Hid|].
    apply (handle_code (DigestKey.classify cfg) (digest_code cfg)). exact Hid.
  - intros cfg w s0 p p' l Hthrown Hreach.
    pose proof (digest_main_crashed cfg w s0 Hthrown) as Hcr.
    rewrite (crashed_is_final _ _ _ Hcr Hreach).
    split; [exact Hcr|]. intros Hstep.
    inversion Hstep; subst;
      match goal with
      | Hs : serving (phase _) = true |- _ => rewrite Hcr in Hs; discriminate Hs
      | Hc : phase _ = Closing |- _ => congruence
      end.
  - intros cfg w p p' r reply Hreach Hstep.
    inversion Hstep as [q r' Hserv| |]; subst.
    assert (Hid : identifier (state p) <> None).
    { apply (serving_has_detector (ExactKey.classify cfg)
               (exact_keeps cfg) (ExactKey.main cfg w) p
               (exact_main_ready cfg w) Hreach Hserv). }
    split; [exact Hid|].
    apply (handle_code (ExactKey.classify cfg) (exact_code cfg)). exact Hid.
  - intros cfg w s0 p p' l Hthrown Hreach.
    pose proof (exact_main_crashed cfg w s0 Hthrown) as Hcr.
    rewrite (crashed_is_final _ _ _ Hcr Hreach).
    split; [exact Hcr|]. intros Hstep.
    inversion Hstep; subst;
      match goal with
      | Hs : serving (phase _) = true |- _ => rewrite Hcr in Hs; discriminate Hs
      | Hc : phase _ = Closing |- _ => congruence
      end.
Qed.

(** C10 on the test double: server.js starts, every step of the start
    succeeding, and then serves a classification request. *)
Lemma served_requests_find_detector_witness :
  let classify := DigestKey.classify (I := nat) DigestKey.defaults in
  let p := DigestKey.main DigestKey.defaults Double.world in
  let r := PostClassify (Double.request "Dzien dobry, jak sie masz?" None) in
  let reply := fst (handle classify r (state p)) in
  let p' := {| phase := phase p; state := snd (handle classify r (state p)) |} in
  reachable classify p p
  /\ step classify p (Served r reply) p'
  /\ identifier (state p) <> None
  /\ code reply <> 503.
Proof.
  intros classify p r reply p'.
  assert (Hreach : reachable classify p p) by apply reachable_start.
  assert (Hstep : step classify p (Served r reply) p')
    by (apply step_served; reflexivity).
  split; [exact Hreach|]. split; [exact Hstep|].
  exact (proj1 (served_requests_find_detector nat Double.counting)
           DigestKey.defaults Double.world p p' r reply Hreach Hstep).
Defined.

(** * Further properties of the code *)

(** ** The LRU class: what is stored can be read back *)

Section LRUMore.

Context {V : Type}.
Implicit Types (c : LRU.t V) (key k : jsstring) (val v : V).

Lemma Map_get_app key (m1 m2 : Map V) :
  Map_get key (m1 ++ m2)
  = match Map_get key m1 with
    | Some v => Some v
    | None => Map_get key m2
    end.
Proof.
  induction m1 as [|[k v] m1 IH]; simpl; [reflexivity|].
  destruct (str_eqb key k); [reflexivity | exact IH].
Qed.

Lemma Map_get_delete key (m : Map V) : Map_get key (Map_delete key m) = None.
Proof. apply Map_get_None. apply Map_has_delete. Qed.

Lemma Map_delete_delete key (m : Map V) :
  Map_delete key (Map_delete key m) = Map_delete key m.
Proof. apply Map_delete_absent. apply Map_has_delete. Qed.

(** On an enabled cache the entry just set is the last one of the map. *)
Lemma set_last key val c :
  1 <= LRU.max c ->
  exists m, LRU.map (LRU.set key val c) = m ++ [(key, val)]
            /\ Map_has key m = false.
Proof.
  intros Hmax. rewrite set_enabled by exact Hmax. cbv zeta. simpl.
  pose proof (Map_has_delete key (LRU.map c)) as Habs.
  destruct (Map_size _ >? LRU.max c) eqn:Hov;
    [|exists (Map_delete key (LRU.map c)); split; [reflexivity | exact Habs]].
  apply Z.gtb_lt in Hov.
  destruct (Map_delete key (LRU.map c)) as [|[k1 v1] rest] eqn:ED.
  - unfold Map_size in Hov. simpl in Hov. lia.
  - simpl Map_first_key. cbv iota.
    assert (Hne : key <> k1).
    { intros ->. simpl in Habs. rewrite str_eqb_refl in Habs. discriminate. }
    exists (Map_delete k1 ((k1, v1) :: rest)). split.
    + change (((k1, v1) :: rest) ++ [(key, val)])
        with (((k1, v1) :: rest) ++ [(key, val)]).
      rewrite Map_delete_app. simpl (Map_delete k1 [(key, val)]).
      assert (E : str_eqb k1 key = false)
        by (apply str_eqb_neq; congruence).
      rewrite E. reflexivity.
    + rewrite Map_has_delete_other by exact Hne. exact Habs.
Qed.

End LRUMore.

(** X1.  On an enabled cache ([max >= 1]), whatever it holds, a value that
    has just been [set] is what the next [get] of that key returns: the
    entry dropped on overflow is never the one just written. *)
Theorem lru_set_then_get (V : Type) (c : LRU.t V) (key : jsstring) (val : V) :
  1 <= LRU.max c ->
  fst (LRU.get key (LRU.set key val c)) = Some val.
Proof.
  intros Hmax. rewrite get_result.
  destruct (set_last key val c Hmax) as [m [Em Habs]].
  rewrite Em. apply Map_get_app_last. exact Habs.
Qed.

Lemma lru_set_then_get_witness :
  let c := LRU.run [LRU.OpSet (lit "a") 1; LRU.OpSet (lit "b") 2] (LRU.new 2) in
  1 <= LRU.max c
  /\ fst (LRU.get (lit "c") (LRU.set (lit "c") 3 c)) = Some 3.
Proof.
  intros c. assert (Hmax : 1 <= LRU.max c) by (vm_compute; discriminate).
  split; [exact Hmax|]. exact (lru_set_then_get Z c (lit "c") 3 Hmax).
Defined.

(** X2.  A [get] changes the order of the entries and nothing else: every
    key is looked up with the same result after it as before it, and a
    second [get] of the same key returns the same value and leaves the
    cache as the first one left it. *)
Theorem lru_get_keeps_contents (V : Type) (c : LRU.t V) (key : jsstring) :
  (forall k, Map_get k (LRU.map (snd (LRU.get key c)))
             = Map_get k (LRU.map c))
  /\ LRU.get key (snd (LRU.get key c))
     = (fst (LRU.get key c), snd (LRU.get key c)).
Proof.
  destruct (Map_get key (LRU.map c)) as [v|] eqn:Hg.
  - assert (Hk : forall k,
               Map_get k (Map_delete key (LRU.map c) ++ [(key, v)])
               = Map_get k (LRU.map c)).
    { intros k. rewrite Map_get_app.
      destruct (str_eqb k key) eqn:E.
      - apply str_eqb_eq in E. subst k. rewrite Map_get_delete. simpl.
        rewrite str_eqb_refl. congruence.
      - pose proof E as Hne. apply str_eqb_neq in Hne.
        rewrite Map_get_delete_other by exact Hne. simpl. rewrite E.
        destruct (Map_get k (LRU.map c)); reflexivity. }
    rewrite (get_hit _ _ _ Hg). simpl. split; [exact Hk|].
    assert (Hg2 : Map_get key (Map_delete key (LRU.map c) ++ [(key, v)])
                  = Some v) by (rewrite Hk; exact Hg).
    rewrite (get_hit key {| LRU.max := LRU.max c;
                            LRU.map := Map_delete key (LRU.map c)
                                       ++ [(key, v)] |} v Hg2).
    simpl. rewrite Map_delete_app, Map_delete_delete. simpl.
    rewrite str_eqb_refl. simpl. rewrite app_nil_r. reflexivity.
  - apply Map_get_None in Hg. rewrite (get_miss _ _ Hg). simpl.
    split; [reflexivity|]. rewrite (get_miss _ _ Hg). reflexivity.
Qed.

(** X3.  A [set] never changes the value kept under another key: whatever
    is found under [k <> key] afterwards was there before. *)
Theorem lru_set_keeps_other_values
    (V : Type) (c : LRU.t V) (key k : jsstring) (val x : V) :
  k <> key ->
  Map_get k (LRU.map (LRU.set key val c)) = Some x ->
  Map_get k (LRU.map c) = Some x.
Proof.
  intros Hne Hg.
  destruct (Z.le_gt_cases (LRU.max c) 0) as [Hoff|Hon].
  - rewrite set_disabled in Hg by exact Hoff. exact Hg.
  - rewrite set_enabled in Hg by lia. cbv zeta in Hg. simpl in Hg.
    assert (Hm2 : Map_get k (Map_delete key (LRU.map c) ++ [(key, val)])
                  = Map_get k (LRU.map c)).
    { rewrite Map_get_app, Map_get_delete_other by exact Hne. simpl.
      apply str_eqb_neq in Hne. rewrite Hne.
      destruct (Map_get k (LRU.map c)); reflexivity. }
    destruct (Map_size _ >? LRU.max c); [|congruence].
    destruct (Map_first_key _) as [k1|]; [|congruence].
    destruct (str_eqb k k1) eqn:E1.
    + apply str_eqb_eq in E1. subst k1. rewrite Map_get_delete in Hg.
      discriminate.
    + apply str_eqb_neq in E1. rewrite Map_get_delete_other in Hg by exact E1.
      congruence.
Qed.

Lemma lru_set_keeps_other_values_witness :
  let c := LRU.run [LRU.OpSet (lit "a") 1; LRU.OpSet (lit "b") 2] (LRU.new 2) in
  lit "b" <> lit "c"
  /\ Map_get (lit "b") (LRU.map (LRU.set (lit "c") 3 c)) = Some 2
  /\ Map_get (lit "b") (LRU.map c) = Some 2.
Proof.
  intros c.
  assert (Hne : lit "b" <> lit "c") by (vm_compute; discriminate).
  assert (Hg : Map_get (lit "b") (LRU.map (LRU.set (lit "c") 3 c)) = Some 2)
    by reflexivity.
  split; [exact Hne|]. split; [exact Hg|].
  exact (lru_set_keeps_other_values Z c (lit "c") (lit "b") 3 2 Hne Hg).
Defined.

(** X4.  After any sequence of calls on a new cache, for any [max], no key
    occurs twice in the map, and writing the same entry twice in a row is
    the same as writing it once. *)
Theorem lru_keys_distinct_set_idempotent
    (V : Type) (mx : Z) (ops : list (LRU.Op V)) (key : jsstring) (val : V) :
  let c := LRU.run ops (LRU.new mx) in
  NoDup (Map_keys (LRU.map c))
  /\ LRU.set key val (LRU.set key val c) = LRU.set key val c.
Proof.
  intros c.
  pose proof (inv_run ops [] (LRU.new mx) (inv_new mx)) as Hinv. fold c in Hinv.
  split; [apply (ordered_NoDup _ _ (proj1 Hinv))|].
  destruct (Z.le_gt_cases (LRU.max c) 0) as [Hoff|Hon].
  - rewrite (set_disabled key val c Hoff).
    apply set_disabled. exact Hoff.
  - assert (Hmax : 1 <= LRU.max c) by lia.
    pose proof (inv_set _ key val c Hinv) as Hinv1.
    set (c1 := LRU.set key val c) in *.
    assert (Hmax1 : LRU.max c1 = LRU.max c) by apply set_max.
    destruct (set_last key val c Hmax) as [m [Em Habs]]. fold c1 in Em.
    destruct Hinv1 as [_ [Hsz _]]. rewrite Hmax1 in Hsz. specialize (Hsz Hmax).
    rewrite (set_enabled key val c1) by lia. cbv zeta.
    rewrite Em, Map_delete_app, (Map_delete_absent _ _ Habs). simpl.
    rewrite str_eqb_refl. simpl. rewrite app_nil_r.
    rewrite Em in Hsz.
    assert (Hfit : (Map_size (m ++ [(key, val)]) >? LRU.max c1) = false)
      by (rewrite Z.gtb_ltb; apply Z.ltb_ge; lia).
    rewrite Hfit. rewrite <- Em. destruct c1; reflexivity.
Qed.

(** ** The LRU class: which keys are kept *)

Lemma without_notin (k : jsstring) (l : list jsstring) :
  ~ In k l -> without k l = l.
Proof.
  induction l as [|a l IH]; simpl; [reflexivity|].
  intros Hnot. destruct (str_eqb k a) eqn:E.
  - apply str_eqb_eq in E. subst a. destruct Hnot. left; reflexivity.
  - simpl. rewrite IH; [reflexivity|]. intros Hin. apply Hnot. right; exact Hin.
Qed.

Lemma without_rev (k : jsstring) (l : list jsstring) :
  without k (rev l) = rev (without k l).
Proof. apply filter_rev. Qed.

Lemma distinct_NoDup (h : list jsstring) : NoDup (distinct h).
Proof.
  induction h as [|k h IH]; simpl; constructor.
  - intros Hin. apply without_In in Hin. tauto.
  - apply NoDup_filter. exact IH.
Qed.

Lemma In_firstn (k : jsstring) (n : nat) (l : list jsstring) :
  In k (firstn n l) -> In k l.
Proof.
  intros Hin. rewrite <- (firstn_skipn n l). apply in_or_app. left. exact Hin.
Qed.

(** Among distinct keys, moving [k] to the front and keeping [S n] keys
    can be done on the first [S n] keys alone. *)
Lemma firstn_without_firstn (k : jsstring) (D : list jsstring) (n : nat) :
  NoDup D ->
  firstn n (without k (firstn (S n) D)) = firstn n (without k D).
Proof.
  revert n. induction D as [|a D IH]; intros n Hnd; [reflexivity|].
  inversion Hnd as [|? ? Hnot Hnd']; subst.
  change (firstn (S n) (a :: D)) with (a :: firstn n D).
  simpl without. destruct (str_eqb k a) eqn:E; simpl.
  - apply str_eqb_eq in E. subst a.
    rewrite (without_notin k D Hnot).
    rewrite without_notin.
    + rewrite firstn_firstn, Nat.min_id. reflexivity.
    + intros Hin. apply Hnot. exact (In_firstn _ _ _ Hin).
  - destruct n as [|n]; [reflexivity|]. simpl. f_equal. apply IH. exact Hnd'.
Qed.

Lemma rev_drop_oldest (l : list jsstring) (n : nat) :
  (List.length l <= S n)%nat ->
  rev (if (n <? List.length l)%nat then tl l else l) = firstn n (rev l).
Proof.
  intros Hlen. destruct (n <? List.length l)%nat eqn:E.
  - apply Nat.ltb_lt in E. destruct l as [|a l]; [simpl in E; lia|].
    simpl in *. rewrite firstn_app, length_rev.
    replace (n - List.length l)%nat with O by lia.
    rewrite firstn_all2 by (rewrite length_rev; lia).
    simpl. rewrite app_nil_r. reflexivity.
  - apply Nat.ltb_ge in E. rewrite firstn_all2 by (rewrite length_rev; lia).
    reflexivity.
Qed.

(** After an access to [key], the keys kept are the most recent ones once
    more. *)
Lemma most_recent_touch (h ks ks' : list jsstring) (key : jsstring) (n : nat) :
  (0 < n)%nat ->
  rev ks = firstn n (distinct h) ->
  rev ks' = firstn n (rev (without key ks ++ [key])) ->
  rev ks' = firstn n (distinct (key :: h)).
Proof.
  intros Hn Hks Hks'. destruct n as [|n]; [lia|].
  rewrite Hks'. rewrite rev_app_distr.
  change (rev [key] ++ rev (without key ks))
    with (key :: rev (without key ks)).
  rewrite <- without_rev, Hks.
  change (distinct (key :: h)) with (key :: without key (distinct h)).
  change (firstn (S n) (key :: without key (firstn (S n) (distinct h))))
    with (key :: firstn n (without key (firstn (S n) (distinct h)))).
  change (firstn (S n) (key :: without key (distinct h)))
    with (key :: firstn n (without key (distinct h))).
  f_equal. apply firstn_without_firstn. apply distinct_NoDup.
Qed.

Section LRUKept.

Context {V : Type}.

Lemma most_recent_step (h : list jsstring) (c : LRU.t V) (o : LRU.Op V)
    (n : nat) :
  (0 < n)%nat ->
  LRU.max c = Z.of_nat n ->
  LRU.inv h c ->
  rev (Map_keys (LRU.map c)) = firstn n (distinct h) ->
  rev (Map_keys (LRU.map (LRU.step c o)))
  = firstn n
      (distinct (match LRU.touched c o with Some k => k :: h | None => h end)).
Proof.
  intros Hn Hmax Hinv Hks.
  pose proof (inv_step h c o Hinv) as Hinv'.
  destruct o as [key|key val].
  - unfold LRU.step, LRU.touched in *.
    destruct (Map_get key (LRU.map c)) as [v|] eqn:Hg.
    + rewrite (Map_get_Some_has _ _ _ Hg) in *.
      rewrite (get_hit _ _ _ Hg) in *. cbn [snd LRU.max LRU.map] in *.
      apply (most_recent_touch h (Map_keys (LRU.map c))); [exact Hn|exact Hks|].
      destruct Hinv' as [_ [Hsz _]]. cbn [LRU.max LRU.map] in Hsz.
      rewrite Map_keys_app, Map_keys_delete.
      change (Map_keys [(key, v)]) with [key].
      symmetry. apply firstn_all2. rewrite length_rev.
      assert (Hb : Map_size (Map_delete key (LRU.map c) ++ [(key, v)])
                   <= LRU.max c) by (apply Hsz; lia).
      unfold Map_size in Hb. rewrite length_app in *.
      rewrite <- Map_keys_delete. unfold Map_keys. rewrite length_map.
      change (List.length [(key, v)]) with 1%nat in Hb.
      change (List.length [key]) with 1%nat. lia.
    + apply Map_get_None in Hg. rewrite Hg, (get_miss _ _ Hg). exact Hks.
  - unfold LRU.step, LRU.touched in *.
    destruct (LRU.max c <=? 0) eqn:E; [apply Z.leb_le in E; lia|].
    apply (most_recent_touch h (Map_keys (LRU.map c))); [exact Hn|exact Hks|].
    rewrite set_enabled by lia. cbv zeta. cbn [LRU.map].
    set (m2 := Map_delete key (LRU.map c) ++ [(key, val)]).
    assert (Hk2 : Map_keys m2 = without key (Map_keys (LRU.map c)) ++ [key])
      by (unfold m2; rewrite Map_keys_app, Map_keys_delete; reflexivity).
    rewrite <- Hk2.
    assert (Hlen : (List.length (Map_keys m2) <= S n)%nat).
    { destruct Hinv as [_ [Hsz _]].
      assert (Hb : Map_size (LRU.map c) <= LRU.max c) by (apply Hsz; lia).
      unfold Map_size in Hb. unfold Map_keys, m2.
      rewrite length_map, length_app.
      change (List.length [(key, val)]) with 1%nat.
      pose proof (Map_delete_length key (LRU.map c)). lia. }
    rewrite <- (rev_drop_oldest (Map_keys m2) n Hlen). f_equal.
    assert (Hsize : (Map_size m2 >? LRU.max c)
                    = (n <? List.length (Map_keys m2))%nat).
    { unfold Map_size, Map_keys. rewrite length_map, Hmax, Z.gtb_ltb.
      destruct (n <? List.length m2)%nat eqn:En.
      - apply Nat.ltb_lt in En. apply Z.ltb_lt. lia.
      - apply Nat.ltb_ge in En. apply Z.ltb_ge. lia. }
    rewrite Hsize. destruct (n <? List.length (Map_keys m2))%nat; [|reflexivity].
    destruct m2 as [|[k1 v1] rest] eqn:Em2; [reflexivity|].
    unfold Map_first_key.
    rewrite Map_delete_first; [reflexivity|].
    rewrite Hk2. pose proof (ordered_touch h _ key (proj1 Hinv)) as Ht.
    apply (ordered_NoDup _ _ Ht).
Qed.

Lemma most_recent_run (ops : list (LRU.Op V)) (h : list jsstring)
    (c : LRU.t V) (n : nat) :
  (0 < n)%nat ->
  LRU.max c = Z.of_nat n ->
  LRU.inv h c ->
  rev (Map_keys (LRU.map c)) = firstn n (distinct h) ->
  rev (Map_keys (LRU.map (LRU.run ops c)))
  = firstn n (distinct (LRU.history h ops c)).
Proof.
  intros Hn. revert h c.
  induction ops as [|o ops IH]; intros h c Hmax Hinv Hks.
  - exact Hks.
  - change (LRU.run (o :: ops) c) with (LRU.run ops (LRU.step c o)).
    change (LRU.history h (o :: ops) c)
      with (LRU.history
              (match LRU.touched c o with Some k => k :: h | None => h end)
              ops (LRU.step c o)).
    apply IH.
    + rewrite step_max. exact Hmax.
    + apply inv_step. exact Hinv.
    + apply most_recent_step; assumption.
Qed.

End LRUKept.

(** X5.  After any sequence of calls on a new cache with [max >= 1], the
    keys in the map are exactly the [max] most recently accessed distinct
    keys (all of them when there are fewer), the most recently accessed
    one last. *)
Theorem lru_holds_most_recent (V : Type) (mx : Z) (ops : list (LRU.Op V)) :
  1 <= mx ->
  rev (Map_keys (LRU.map (LRU.run ops (LRU.new mx))))
  = firstn (Z.to_nat mx) (distinct (LRU.history [] ops (LRU.new mx))).
Proof.
  intros Hmx. apply most_recent_run.
  - lia.
  - simpl. lia.
  - apply inv_new.
  - simpl. rewrite firstn_nil. reflexivity.
Qed.

Lemma lru_holds_most_recent_witness :
  let ops := [LRU.OpSet (lit "a") 1; LRU.OpSet (lit "b") 2;
              LRU.OpGet (lit "a"); LRU.OpSet (lit "c") 3;
              LRU.OpGet (lit "b")] in
  1 <= 2
  /\ rev (Map_keys (LRU.map (LRU.run ops (LRU.new 2)))) = [lit "c"; lit "a"]
  /\ distinct (LRU.history [] ops (LRU.new 2)) = [lit "c"; lit "a"; lit "b"].
Proof.
  intros ops. assert (Hmx : 1 <= 2) by lia.
  split; [exact Hmx|]. split; [|reflexivity].
  rewrite (lru_holds_most_recent Z 2 ops Hmx). reflexivity.
Defined.

(** ** fnv1a: the signed arithmetic of JavaScript against the usual hash *)

Lemma ToInt32_mod (x : Z) : ToInt32 x mod 2 ^ 32 = x mod 2 ^ 32.
Proof.
  unfold ToInt32. cbv zeta.
  destruct (2 ^ 31 <=? x mod 2 ^ 32).
  - rewrite <- (Z.mod_add (x mod 2 ^ 32 - 2 ^ 32) 1 (2 ^ 32)) by lia.
    replace (x mod 2 ^ 32 - 2 ^ 32 + 1 * 2 ^ 32) with (x mod 2 ^ 32) by lia.
    apply Z.mod_mod. lia.
  - apply Z.mod_mod. lia.
Qed.

Lemma ToInt32_congr (x y : Z) :
  x mod 2 ^ 32 = y mod 2 ^ 32 -> ToInt32 x = ToInt32 y.
Proof. intros E. unfold ToInt32. rewrite E. reflexivity. Qed.

Lemma lxor_mod (a b n : Z) :
  0 <= n -> Z.lxor a b mod 2 ^ n = Z.lxor (a mod 2 ^ n) (b mod 2 ^ n).
Proof.
  intros Hn. apply Z.bits_inj'. intros i Hi. rewrite Z.lxor_spec.
  destruct (Z.lt_ge_cases i n) as [Hlt|Hge].
  - rewrite !Z.mod_pow2_bits_low by exact Hlt. apply Z.lxor_spec.
  - rewrite !Z.mod_pow2_bits_high by lia. reflexivity.
Qed.

Lemma xor_mod (h c : Z) :
  JS.xor h c mod 2 ^ 32 = Z.lxor (h mod 2 ^ 32) (c mod 2 ^ 32).
Proof.
  unfold JS.xor. rewrite ToInt32_mod, lxor_mod, !ToInt32_mod by lia.
  reflexivity.
Qed.

Lemma imul_mod (a b : Z) :
  imul a b mod 2 ^ 32 = ((a mod 2 ^ 32) * (b mod 2 ^ 32)) mod 2 ^ 32.
Proof.
  unfold imul. rewrite ToInt32_mod, Z.mul_mod, !ToInt32_mod by lia.
  reflexivity.
Qed.

(** One turn of the loop of [fnv1a], read modulo 2^32, is one step of the
    usual hash. *)
Lemma fnv1a_step_mod (h c : Z) :
  0 <= c < 2 ^ 32 ->
  imul (JS.xor h c) 16777619 mod 2 ^ 32 = fnv1a_step_u32 (h mod 2 ^ 32) c.
Proof.
  intros Hc. rewrite imul_mod, xor_mod. unfold fnv1a_step_u32.
  rewrite (Z.mod_small c) by exact Hc.
  rewrite (Z.mod_small 16777619) by lia. reflexivity.
Qed.

Lemma fnv1a_loop_mod (str : jsstring) (h : Z) :
  Forall code_unit str ->
  fnv1a_loop str h mod 2 ^ 32 = fold_left fnv1a_step_u32 str (h mod 2 ^ 32).
Proof.
  intros Hstr. revert h. induction Hstr as [|c str Hc Hstr IH]; intros h.
  - reflexivity.
  - unfold fnv1a_loop in *. simpl fold_left. rewrite IH.
    rewrite fnv1a_step_mod; [reflexivity|]. unfold code_unit in Hc. lia.
Qed.

Lemma fnv1a_unsigned (str : jsstring) :
  Forall code_unit str -> fnv1a str = fnv1a_u32 str.
Proof.
  intros Hstr. unfold fnv1a, ToUint32, fnv1a_u32.
  rewrite (fnv1a_loop_mod str _ Hstr). reflexivity.
Qed.

(** X6.  For every string, [fnv1a] returns a number in [0, 2^32), and it
    is the FNV-1a hash of the string's code units as usually defined on
    unsigned 32-bit words: the signed intermediate values of [^=] and
    [Math.imul] do not show in the result. *)
Theorem fnv1a_is_unsigned_fnv1a (str : jsstring) :
  0 <= fnv1a str < 2 ^ 32
  /\ (Forall code_unit str -> fnv1a str = fnv1a_u32 str).
Proof.
  split.
  - unfold fnv1a, ToUint32. apply Z.mod_pos_bound. lia.
  - apply fnv1a_unsigned.
Qed.

Lemma code_units_by_test (str : jsstring) :
  forallb (fun c => (0 <=? c) && (c <? 65536)) str = true ->
  Forall code_unit str.
Proof.
  intros Hall. apply Forall_forall. intros c Hc.
  rewrite forallb_forall in Hall. specialize (Hall c Hc).
  apply andb_true_iff in Hall. destruct Hall as [H0 H1].
  apply Z.leb_le in H0. apply Z.ltb_lt in H1. split; assumption.
Qed.

Lemma fnv1a_is_unsigned_fnv1a_witness :
  Forall code_unit Double.sea /\ fnv1a Double.sea = fnv1a_u32 Double.sea.
Proof.
  assert (Hstr : Forall code_unit Double.sea)
    by (apply code_units_by_test; reflexivity).
  split; [exact Hstr|].
  exact (proj2 (fnv1a_is_unsigned_fnv1a Double.sea) Hstr).
Defined.

(** ** fnv1a: which texts can and cannot collide *)

Lemma fnv1a_loop_app (s t : jsstring) (h : Z) :
  fnv1a_loop (s ++ t) h = fnv1a_loop t (fnv1a_loop s h).
Proof. apply fold_left_app. Qed.

(** The loop only looks at its state modulo 2^32. *)
Lemma fnv1a_loop_congr (t : jsstring) (h h' : Z) :
  h mod 2 ^ 32 = h' mod 2 ^ 32 ->
  fnv1a_loop t h mod 2 ^ 32 = fnv1a_loop t h' mod 2 ^ 32.
Proof.
  intros E. destruct t as [|c t]; [exact E|].
  unfold fnv1a_loop. simpl fold_left. unfold JS.xor at 2 4.
  rewrite (ToInt32_congr h h' E). reflexivity.
Qed.

(** X7.  Two texts with the same hash still have the same hash after the
    same text is appended to both; when they also have the same length,
    the longer texts share their cache key in server.js for every [topN].
    So one collision gives a collision for every common continuation. *)
Theorem fnv1a_collision_extends (s1 s2 t : jsstring) :
  fnv1a s1 = fnv1a s2 ->
  fnv1a (s1 ++ t) = fnv1a (s2 ++ t)
  /\ (length s1 = length s2 ->
      forall n, DigestKey.cache_key n (s1 ++ t)
                = DigestKey.cache_key n (s2 ++ t)).
Proof.
  intros E.
  assert (E' : fnv1a (s1 ++ t) = fnv1a (s2 ++ t)).
  { unfold fnv1a, ToUint32 in *. rewrite !fnv1a_loop_app.
    apply fnv1a_loop_congr. exact E. }
  split; [exact E'|].
  intros Hlen n. unfold DigestKey.cache_key. rewrite E'.
  assert (Hl : length (s1 ++ t) = length (s2 ++ t)).
  { unfold length in *. rewrite !length_app. lia. }
  rewrite Hl. reflexivity.
Qed.

Lemma fnv1a_collision_extends_witness :
  fnv1a Double.sea = fnv1a Double.mud
  /\ fnv1a (Double.sea ++ lit " in the fog") = fnv1a (Double.mud ++ lit " in the fog").
Proof.
  split; [exact sea_mud_hash|].
  exact (proj1 (fnv1a_collision_extends Double.sea Double.mud
                  (lit " in the fog") sea_mud_hash)).
Defined.

Lemma lxor_range (a b : Z) :
  0 <= a < 2 ^ 32 -> 0 <= b < 2 ^ 32 -> 0 <= Z.lxor a b < 2 ^ 32.
Proof.
  intros Ha Hb.
  assert (E : Z.lxor a b mod 2 ^ 32 = Z.lxor a b).
  { rewrite lxor_mod by lia. rewrite !Z.mod_small by assumption. reflexivity. }
  rewrite <- E. apply Z.mod_pos_bound. lia.
Qed.

Lemma lxor_cancel_r (a b c : Z) : Z.lxor a c = Z.lxor b c -> a = b.
Proof.
  intros E. apply (f_equal (fun x => Z.lxor x c)) in E. cbv beta in E.
  rewrite !Z.lxor_assoc, Z.lxor_nilpotent, !Z.lxor_0_r in E. exact E.
Qed.

Lemma lxor_cancel_l (a b c : Z) : Z.lxor c a = Z.lxor c b -> a = b.
Proof. rewrite !(Z.lxor_comm c). apply lxor_cancel_r. Qed.

(** Multiplying by the FNV prime is one-to-one on 32-bit words: the prime
    is odd, and 899433627 is its inverse modulo 2^32. *)
Lemma mul_prime_inj (a b : Z) :
  0 <= a < 2 ^ 32 -> 0 <= b < 2 ^ 32 ->
  (a * 16777619) mod 2 ^ 32 = (b * 16777619) mod 2 ^ 32 -> a = b.
Proof.
  intros Ha Hb E.
  assert (Hinv : forall x, 0 <= x < 2 ^ 32 ->
                   (((x * 16777619) mod 2 ^ 32) * 899433627) mod 2 ^ 32 = x).
  { intros x Hx. rewrite Z.mul_mod_idemp_l by lia.
    rewrite <- Z.mul_assoc, <- Z.mul_mod_idemp_r by lia.
    change ((16777619 * 899433627) mod 2 ^ 32) with 1.
    rewrite Z.mul_1_r. apply Z.mod_small. exact Hx. }
  rewrite <- (Hinv a Ha), <- (Hinv b Hb), E. reflexivity.
Qed.

Lemma fnv1a_step_u32_range (h c : Z) : 0 <= fnv1a_step_u32 h c < 2 ^ 32.
Proof. unfold fnv1a_step_u32. apply Z.mod_pos_bound. lia. Qed.

Lemma fnv1a_step_u32_inj_state (h1 h2 c : Z) :
  0 <= h1 < 2 ^ 32 -> 0 <= h2 < 2 ^ 32 -> 0 <= c < 2 ^ 32 ->
  fnv1a_step_u32 h1 c = fnv1a_step_u32 h2 c -> h1 = h2.
Proof.
  intros H1 H2 Hc E. unfold fnv1a_step_u32 in E.
  apply mul_prime_inj in E; try (apply lxor_range; assumption).
  exact (lxor_cancel_r _ _ _ E).
Qed.

Lemma fnv1a_step_u32_inj_unit (h c1 c2 : Z) :
  0 <= h < 2 ^ 32 -> 0 <= c1 < 2 ^ 32 -> 0 <= c2 < 2 ^ 32 ->
  fnv1a_step_u32 h c1 = fnv1a_step_u32 h c2 -> c1 = c2.
Proof.
  intros Hh H1 H2 E. unfold fnv1a_step_u32 in E.
  apply mul_prime_inj in E; try (apply lxor_range; assumption).
  exact (lxor_cancel_l _ _ _ E).
Qed.

Lemma fnv1a_u32_fold_range (t : jsstring) (h : Z) :
  0 <= h < 2 ^ 32 -> 0 <= fold_left fnv1a_step_u32 t h < 2 ^ 32.
Proof.
  revert h. induction t as [|c t IH]; intros h Hh; [exact Hh|].
  simpl. apply IH. apply fnv1a_step_u32_range.
Qed.

(** The rest of a text cannot bring two different states together. *)
Lemma fnv1a_u32_fold_inj (t : jsstring) (h1 h2 : Z) :
  Forall code_unit t ->
  0 <= h1 < 2 ^ 32 -> 0 <= h2 < 2 ^ 32 ->
  fold_left fnv1a_step_u32 t h1 = fold_left fnv1a_step_u32 t h2 -> h1 = h2.
Proof.
  intros Ht. revert h1 h2.
  induction Ht as [|c t Hc Ht IH]; intros h1 h2 H1 H2 E; [exact E|].
  simpl in E. apply IH in E; try apply fnv1a_step_u32_range.
  apply (fnv1a_step_u32_inj_state h1 h2 c); try assumption.
  unfold code_unit in Hc. lia.
Qed.

(** X8.  Two texts that differ in exactly one code unit never have the
    same hash: each turn of the loop is one-to-one, both in the state and
    in the code unit.  A collision in server.js therefore takes texts that
    differ in at least two places. *)
Theorem fnv1a_one_unit_apart (pre suf : jsstring) (c1 c2 : Z) :
  Forall code_unit pre -> Forall code_unit suf ->
  code_unit c1 -> code_unit c2 ->
  fnv1a (pre ++ c1 :: suf) = fnv1a (pre ++ c2 :: suf) ->
  c1 = c2.
Proof.
  intros Hpre Hsuf H1 H2 E.
  assert (F1 : Forall code_unit (pre ++ c1 :: suf))
    by (apply Forall_app; split; [|constructor]; assumption).
  assert (F2 : Forall code_unit (pre ++ c2 :: suf))
    by (apply Forall_app; split; [|constructor]; assumption).
  rewrite (fnv1a_unsigned _ F1), (fnv1a_unsigned _ F2) in E.
  unfold fnv1a_u32 in E. rewrite !fold_left_app in E. simpl in E.
  set (h := fold_left fnv1a_step_u32 pre 2166136261) in *.
  assert (Hh : 0 <= h < 2 ^ 32) by (apply fnv1a_u32_fold_range; lia).
  apply fnv1a_u32_fold_inj in E;
    [|exact Hsuf | apply fnv1a_step_u32_range | apply fnv1a_step_u32_range].
  unfold code_unit in *.
  apply (fnv1a_step_u32_inj_unit h c1 c2); try assumption; lia.
Qed.

Lemma fnv1a_one_unit_apart_witness :
  Forall code_unit (lit "Dzien") /\ Forall code_unit (lit "dobry")
  /\ code_unit 32 /\ code_unit 95
  /\ fnv1a (lit "Dzien" ++ 32 :: lit "dobry")
     <> fnv1a (lit "Dzien" ++ 95 :: lit "dobry").
Proof.
  assert (Hpre : Forall code_unit (lit "Dzien"))
    by (apply code_units_by_test; reflexivity).
  assert (Hsuf : Forall code_unit (lit "dobry"))
    by (apply code_units_by_test; reflexivity).
  assert (H1 : code_unit 32) by (unfold code_unit; lia).
  assert (H2 : code_unit 95) by (unfold code_unit; lia).
  repeat (split; [assumption|]).
  intros E.
  pose proof (fnv1a_one_unit_apart _ _ _ _ Hpre Hsuf H1 H2 E) as Habs.
  discriminate Habs.
Defined.

(** ** Cache keys: when two of them are equal *)

Lemma lit_inj (s1 s2 : string) : lit s1 = lit s2 -> s1 = s2.
Proof.
  revert s2. induction s1 as [|a s1 IH]; intros [|b s2] E;
    try reflexivity; try discriminate E.
  unfold lit in E. simpl in E. injection E as Ea Es.
  apply N2Z.inj in Ea.
  assert (Eab : a = b)
    by (rewrite <- (ascii_N_embedding a), <- (ascii_N_embedding b), Ea;
        reflexivity).
  subst b. f_equal. apply IH. exact Es.
Qed.

Lemma toString_inj (a b : Z) : toString a = toString b -> a = b.
Proof.
  intros E. unfold toString in E. apply lit_inj in E.
  assert (Hnn : forall z, Z.to_int z <> Decimal.Pos Decimal.Nil
                          /\ Z.to_int z <> Decimal.Neg Decimal.Nil).
  { intros [|p|p]; simpl; split; try discriminate;
      intros Habs; injection Habs as Habs;
      exact (DecimalPos.Unsigned.to_uint_nonnil p Habs). }
  apply DecimalZ.to_int_inj.
  assert (Ea := DecimalString.NilZero.isi (Z.to_int a)
                  (proj1 (Hnn a)) (proj2 (Hnn a))).
  assert (Eb := DecimalString.NilZero.isi (Z.to_int b)
                  (proj1 (Hnn b)) (proj2 (Hnn b))).
  rewrite E in Ea. rewrite Ea in Eb. injection Eb as Eb. exact Eb.
Qed.

(** The digits of a number are digits: code units 48 to 57, after a
    possible minus sign, 45. *)
Lemma uint_digits (d : Decimal.uint) :
  Forall (fun c => 48 <= c <= 57)
         (lit (DecimalString.NilEmpty.string_of_uint d)).
Proof.
  induction d; simpl; try constructor; try exact IHd;
    vm_compute; split; discriminate.
Qed.

Lemma toString_chars (n : Z) :
  Forall (fun c => c = 45 \/ 48 <= c <= 57) (toString n).
Proof.
  assert (Hu : forall d,
             Forall (fun c => c = 45 \/ 48 <= c <= 57)
                    (lit (DecimalString.NilZero.string_of_uint d))).
  { intros d.
    assert (Hd := uint_digits d).
    destruct d; simpl;
      try (constructor; [right; vm_compute; split; discriminate|]);
      try constructor;
      try (inversion Hd; subst;
           eapply Forall_impl; [|eassumption]; intros c Hc; right; exact Hc). }
  unfold toString. destruct (Z.to_int n) as [d|d]; simpl.
  - apply Hu.
  - constructor; [left; reflexivity | apply Hu].
Qed.

Lemma toString_without (n : Z) (x : Z) :
  x <> 45 -> ~ 48 <= x <= 57 -> ~ In x (toString n).
Proof.
  intros H45 Hdig Hin.
  pose proof (toString_chars n) as Hall. rewrite Forall_forall in Hall.
  destruct (Hall x Hin) as [E|E]; [exact (H45 E) | exact (Hdig E)].
Qed.

(** Two lists cut at the first occurrence of [x]. *)
Lemma split_at_first (x : Z) (l1 l2 r1 r2 : list Z) :
  ~ In x l1 -> ~ In x l2 ->
  l1 ++ x :: r1 = l2 ++ x :: r2 -> l1 = l2 /\ r1 = r2.
Proof.
  revert l2. induction l1 as [|a l1 IH]; intros [|b l2] H1 H2 E; simpl in *.
  - injection E as E. split; [reflexivity | exact E].
  - injection E as Ex _. subst b. destruct H2. left; reflexivity.
  - injection E as Ex _. subst a. destruct H1. left; reflexivity.
  - injection E as Eab E. subst b.
    destruct (IH l2) as [El Er]; [tauto | tauto | exact E|].
    subst l2. split; [reflexivity | exact Er].
Qed.

Lemma digest_key_equal_iff_l (n1 n2 : Z) (t1 t2 : jsstring) :
  DigestKey.cache_key n1 t1 = DigestKey.cache_key n2 t2 ->
  n1 = n2 /\ fnv1a t1 = fnv1a t2 /\ length t1 = length t2.
Proof.
  unfold DigestKey.cache_key. change (lit ":") with [58]. simpl app.
  intros E.
  assert (Hc : forall n, ~ In 58 (toString n))
    by (intros n; apply toString_without; lia).
  apply split_at_first in E; [|apply Hc|apply Hc]. destruct E as [En E].
  apply split_at_first in E; [|apply Hc|apply Hc]. destruct E as [Eh El].
  split; [apply toString_inj; exact En|].
  split; apply toString_inj; assumption.
Qed.

(** X9.  In server.js two requests have the same cache key exactly when
    they have the same [topN], the same hash and the same length: the key
    keeps these three numbers apart, and nothing else of the text. *)
Theorem digest_key_equal_iff (n1 n2 : Z) (t1 t2 : jsstring) :
  DigestKey.cache_key n1 t1 = DigestKey.cache_key n2 t2
  <-> n1 = n2 /\ fnv1a t1 = fnv1a t2 /\ length t1 = length t2.
Proof.
  split.
  - apply digest_key_equal_iff_l.
  - intros [-> [Eh El]]. unfold DigestKey.cache_key. rewrite Eh, El.
    reflexivity.
Qed.

(** X10.  In the exact-key server two requests have the same cache key
    exactly when they have the same [topN] and the same text, or when one
    has [topN = 1] and a text that is the other's [topN], a NUL and the
    other's text.  Texts without NUL characters never share a key across
    different requests. *)
Theorem exact_key_equal_iff (n1 n2 : Z) (t1 t2 : jsstring) :
  ExactKey.cache_key n1 t1 = ExactKey.cache_key n2 t2
  <-> (n1 = n2 /\ t1 = t2)
      \/ (n1 = 1 /\ n2 <> 1 /\ t1 = toString n2 ++ [0] ++ t2)
      \/ (n2 = 1 /\ n1 <> 1 /\ t2 = toString n1 ++ [0] ++ t1).
Proof.
  unfold ExactKey.cache_key.
  destruct (Z.eqb_spec n1 1) as [E1|E1]; destruct (Z.eqb_spec n2 1) as [E2|E2].
  - split; [intros E; left; split; congruence|].
    intros [[_ E]|[[_ [H _]]|[_ [H _]]]]; congruence.
  - split; [intros E; right; left; tauto|].
    intros [[H _]|[[_ [_ E]]|[H _]]]; congruence.
  - split; [intros E; right; right; split; [exact E2|split; [exact E1|]];
            symmetry; exact E|].
    intros [[H _]|[[H _]|[_ [_ E]]]]; congruence.
  - split.
    + intros E. left. simpl app in E.
      assert (Hc : forall n, ~ In 0 (toString n))
        by (intros n; apply toString_without; lia).
      apply split_at_first in E; [|apply Hc|apply Hc].
      destruct E as [En Et]. split; [apply toString_inj; exact En | exact Et].
    + intros [[-> ->]|[[H _]|[H _]]]; [reflexivity | congruence | congruence].
Qed.

(** ** Texts that are refused as empty *)

Lemma trimStart_white (s : jsstring) :
  Forall (fun c => is_white_space c = true) s -> trimStart s = [].
Proof.
  induction 1 as [|c s Hc Hs IH]; simpl; [reflexivity|].
  rewrite Hc. exact IH.
Qed.

(** [trim] leaves nothing exactly of the strings made of white space. *)
Lemma trim_empty_iff (s : jsstring) :
  trim s = [] <-> Forall (fun c => is_white_space c = true) s.
Proof.
  split.
  - intros E. destruct (trim_spec s) as [pre [post [Es [Hpre [Hpost _]]]]].
    rewrite E in Es. rewrite Es. apply Forall_app. split; assumption.
  - intros Hall. unfold trim. rewrite (trimStart_white s Hall). reflexivity.
Qed.

Lemma slice0_nonempty (s : jsstring) (e : Z) :
  1 <= e -> s <> [] -> slice0 s e <> [].
Proof.
  intros He Hs. destruct s as [|c s]; [congruence|].
  unfold slice0. cbv zeta.
  destruct (e <? 0) eqn:E; [apply Z.ltb_lt in E; lia|].
  assert (Hlen : 1 <= length (c :: s))
    by (unfold length; simpl List.length; lia).
  destruct (Z.to_nat (Z.min e (length (c :: s)))) as [|n] eqn:En; [lia|].
  simpl. discriminate.
Qed.

Lemma slice0_zero (s : jsstring) : slice0 s 0 = [].
Proof.
  unfold slice0. cbv zeta. simpl (0 <? 0).
  rewrite Z.min_l by apply length_nonneg. reflexivity.
Qed.

Section RefusedTexts.

Context {I : Type} `{Detector I}.

Lemma digest_accepted (cfg : DigestKey.Config) (req : Request) (s : State I)
    (idf : I) :
  identifier s = Some idf ->
  DigestKey.normalize cfg (text req) <> [] ->
  exists out, fst (DigestKey.classify cfg req s) = returned (ResponseBody out).
Proof.
  intros Hid Hne.
  destruct (DigestKey.too_short cfg (DigestKey.normalize cfg (text req)))
    eqn:Hs.
  - eexists. rewrite (digest_fast_fail cfg req s idf Hid Hne Hs). reflexivity.
  - destruct (Map_get (DigestKey.cache_key (topN_or_1 req)
                         (DigestKey.normalize cfg (text req)))
                (LRU.map (cache s))) as [out|] eqn:Hg.
    + exists out. rewrite (digest_hit cfg req s idf out Hid Hne Hs Hg).
      reflexivity.
    + eexists. rewrite (digest_miss cfg req s idf Hid Hne Hs Hg). reflexivity.
Qed.

Lemma exact_accepted (cfg : ExactKey.Config) (req : Request) (s : State I)
    (idf : I) :
  identifier s = Some idf ->
  ExactKey.normalize (text req) <> [] ->
  exists out, fst (ExactKey.classify cfg req s) = returned (ResponseBody out).
Proof.
  intros Hid Hne.
  destruct (ExactKey.too_short cfg (ExactKey.normalize (text req))) eqn:Hs.
  - eexists. rewrite (exact_fast_fail cfg req s idf Hid Hne Hs). reflexivity.
  - destruct (Map_get (ExactKey.cache_key (topN_or_1 req)
                         (ExactKey.normalize (text req)))
                (LRU.map (cache s))) as [out|] eqn:Hg.
    + exists out. rewrite (exact_hit cfg req s idf out Hid Hne Hs Hg).
      reflexivity.
    + eexists. rewrite (exact_miss cfg req s idf Hid Hne Hs Hg). reflexivity.
Qed.

End RefusedTexts.

(** X11.  With the detector ready, the exact-key server answers
    [400 {error: "Empty 'text'."}], changing nothing, exactly to the texts
    made only of white space, and answers every other text with a 200 and
    a classification response.  server.js does the same when
    [MAX_INPUT_CHARS >= 1]; with [MAX_INPUT_CHARS = 0] it answers 400 to
    every text. *)
Theorem empty_text_refused (I : Type) (D : Detector I)
    (req : Request) (s : State I) (idf : I) :
  identifier s = Some idf ->
  let white := Forall (fun c => is_white_space c = true) (text req) in
  (forall cfg : ExactKey.Config,
      (white ->
       ExactKey.classify cfg req s
       = ({| code := 400; body := ErrorBody (lit "Empty 'text'.") |}, s))
      /\ (~ white ->
          exists out,
            fst (ExactKey.classify cfg req s)
            = {| code := 200; body := ResponseBody out |}))
  /\ (forall cfg : DigestKey.Config,
         1 <= DigestKey.MAX_INPUT_CHARS cfg ->
         (white ->
          DigestKey.classify cfg req s
          = ({| code := 400; body := ErrorBody (lit "Empty 'text'.") |}, s))
         /\ (~ white ->
             exists out,
               fst (DigestKey.classify cfg req s)
               = {| code := 200; body := ResponseBody out |}))
  /\ (forall cfg : DigestKey.Config,
         DigestKey.MAX_INPUT_CHARS cfg = 0 ->
         DigestKey.classify cfg req s
         = ({| code := 400; body := ErrorBody (lit "Empty 'text'.") |}, s)).
Proof.
  intros Hid white. split; [|split].
  - intros cfg. split.
    + intros Hw. apply (exact_empty cfg req s idf Hid).
      apply trim_empty_iff. exact Hw.
    + intros Hw. apply (exact_accepted cfg req s idf Hid).
      intros E. apply Hw. apply trim_empty_iff. exact E.
  - intros cfg Hmax. split.
    + intros Hw. apply (digest_empty cfg req s idf Hid).
      unfold DigestKey.normalize.
      rewrite (proj2 (trim_empty_iff (text req)) Hw).
      unfold slice0. apply firstn_nil.
    + intros Hw. apply (digest_accepted cfg req s idf Hid).
      unfold DigestKey.normalize. apply slice0_nonempty; [exact Hmax|].
      intros E. apply Hw. apply trim_empty_iff. exact E.
  - intros cfg Hmax. apply (digest_empty cfg req s idf Hid).
    unfold DigestKey.normalize. rewrite Hmax. apply slice0_zero.
Qed.

Lemma empty_text_refused_witness :
  let req := {| text := [32; 9; 10; 160; 8202; 65279]; topN := None |} in
  let s := Double.ready 5 in
  identifier s = Some O
  /\ Forall (fun c => is_white_space c = true) (text req)
  /\ ExactKey.classify ExactKey.defaults req s
     = ({| code := 400; body := ErrorBody (lit "Empty 'text'.") |}, s).
Proof.
  intros req s.
  assert (Hid : identifier s = Some O) by reflexivity.
  assert (Hw : Forall (fun c => is_white_space c = true) (text req))
    by (repeat (constructor; [reflexivity|]); constructor).
  split; [exact Hid|]. split; [exact Hw|].
  exact (proj1 (proj1 (empty_text_refused nat Double.counting req s O Hid)
                  ExactKey.defaults) Hw).
Defined.

(** ** What one request does to the cache and to the detector *)

Lemma cache_writes_app (tr1 tr2 : list Event) :
  cache_writes (tr1 ++ tr2) = cache_writes tr1 ++ cache_writes tr2.
Proof. apply filter_app. Qed.

Lemma detect_is_call (I : Type) (D : Detector I) (idf : I) (t : jsstring)
    (n : Z) :
  is_detector_call (snd (detect idf t n)) = true
  /\ is_cache_set (snd (detect idf t n)) = false.
Proof.
  unfold detect. destruct (n =? 1).
  - destruct (findLanguage idf t). split; reflexivity.
  - destruct (findMostFrequentLanguages idf t n). split; reflexivity.
Qed.

Lemma detect_shaped (I : Type) (D : Detector I) (idf : I) (t : jsstring)
    (n : Z) :
  shaped n (fst (fst (detect idf t n))) = true.
Proof.
  unfold detect. destruct (n =? 1) eqn:E.
  - destruct (findLanguage idf t). simpl. exact E.
  - destruct (findMostFrequentLanguages idf t n). simpl. rewrite E. reflexivity.
Qed.

Section OneRequest.

Context {I : Type} `{Detector I}.

(** What a call of the handler of server.js does, in one statement: it
    either leaves the state alone (not ready, empty text, short text),
    or reads the cache and hits, or reads the cache, misses, calls the
    detector and writes the reply to the cache. *)
Lemma digest_cases (cfg : DigestKey.Config) (req : Request) (s : State I) :
  let t := DigestKey.normalize cfg (text req) in
  let key := DigestKey.cache_key (topN_or_1 req) t in
  snd (DigestKey.classify cfg req s) = s
  \/ (exists idf out,
         identifier s = Some idf
         /\ Map_get key (LRU.map (cache s)) = Some out
         /\ DigestKey.classify cfg req s
            = (returned (ResponseBody out),
               {| identifier := Some idf;
                  cache := LRU.run [LRU.OpGet key] (cache s);
                  trace := trace s ++ [EvCacheGet key] |}))
  \/ (exists idf,
         identifier s = Some idf
         /\ t <> []
         /\ DigestKey.too_short cfg t = false
         /\ Map_get key (LRU.map (cache s)) = None
         /\ DigestKey.classify cfg req s
            = let out := {| input_len := length t;
                            cld3 := fst (fst (detect idf t (topN_or_1 req))) |} in
              (returned (ResponseBody out),
               {| identifier := Some (snd (fst (detect idf t (topN_or_1 req))));
                  cache := LRU.run [LRU.OpGet key; LRU.OpSet key out] (cache s);
                  trace := trace s
                           ++ [EvCacheGet key;
                               snd (detect idf t (topN_or_1 req));
                               EvCacheSet key] |})).
Proof.
  intros t key. unfold key, t. clear key t.
  destruct (identifier s) as [idf|] eqn:Hid;
    [|left; rewrite digest_not_ready by exact Hid; reflexivity].
  destruct (list_eq_dec Z.eq_dec (DigestKey.normalize cfg (text req)) []) as [Et|Hne];
    [left; rewrite (digest_empty cfg req s idf Hid Et); reflexivity|].
  destruct (DigestKey.too_short cfg (DigestKey.normalize cfg (text req))) eqn:Hs;
    [left; rewrite (digest_fast_fail cfg req s idf Hid Hne Hs); reflexivity|].
  destruct (Map_get (DigestKey.cache_key (topN_or_1 req) (DigestKey.normalize cfg (text req)))
              (LRU.map (cache s))) as [out|] eqn:Hg.
  - right. left. exists idf, out. split; [reflexivity|]. split; [reflexivity|].
    rewrite (digest_hit cfg req s idf out Hid Hne Hs Hg). reflexivity.
  - right. right. exists idf. split; [reflexivity|].
    split; [exact Hne|]. split; [reflexivity|]. split; [reflexivity|].
    rewrite (digest_miss cfg req s idf Hid Hne Hs Hg). cbv zeta.
    unfold LRU.run. cbn [fold_left LRU.step].
    apply Map_get_None in Hg. rewrite (get_miss _ _ Hg). reflexivity.
Qed.

Lemma exact_cases (cfg : ExactKey.Config) (req : Request) (s : State I) :
  let t := ExactKey.normalize (text req) in
  let key := ExactKey.cache_key (topN_or_1 req) t in
  snd (ExactKey.classify cfg req s) = s
  \/ (exists idf out,
         identifier s = Some idf
         /\ Map_get key (LRU.map (cache s)) = Some out
         /\ ExactKey.classify cfg req s
            = (returned (ResponseBody out),
               {| identifier := Some idf;
                  cache := LRU.run [LRU.OpGet key] (cache s);
                  trace := trace s ++ [EvCacheGet key] |}))
  \/ (exists idf,
         identifier s = Some idf
         /\ t <> []
         /\ ExactKey.too_short cfg t = false
         /\ Map_get key (LRU.map (cache s)) = None
         /\ ExactKey.classify cfg req s
            = let out := {| input_len := length t;
                            cld3 := fst (fst (detect idf t (topN_or_1 req))) |} in
              (returned (ResponseBody out),
               {| identifier := Some (snd (fst (detect idf t (topN_or_1 req))));
                  cache := LRU.run [LRU.OpGet key; LRU.OpSet key out] (cache s);
                  trace := trace s
                           ++ [EvCacheGet key;
                               snd (detect idf t (topN_or_1 req));
                               EvCacheSet key] |})).
Proof.
  intros t key. unfold key, t. clear key t.
  destruct (identifier s) as [idf|] eqn:Hid;
    [|left; rewrite exact_not_ready by exact Hid; reflexivity].
  destruct (list_eq_dec Z.eq_dec (ExactKey.normalize (text req)) []) as [Et|Hne];
    [left; rewrite (exact_empty cfg req s idf Hid Et); reflexivity|].
  destruct (ExactKey.too_short cfg (ExactKey.normalize (text req))) eqn:Hs;
    [left; rewrite (exact_fast_fail cfg req s idf Hid Hne Hs); reflexivity|].
  destruct (Map_get (ExactKey.cache_key (topN_or_1 req) (ExactKey.normalize (text req)))
              (LRU.map (cache s))) as [out|] eqn:Hg.
  - right. left. exists idf, out. split; [reflexivity|]. split; [reflexivity|].
    rewrite (exact_hit cfg req s idf out Hid Hne Hs Hg). reflexivity.
  - right. right. exists idf. split; [reflexivity|].
    split; [exact Hne|]. split; [reflexivity|]. split; [reflexivity|].
    rewrite (exact_miss cfg req s idf Hid Hne Hs Hg). cbv zeta.
    unfold LRU.run. cbn [fold_left LRU.step].
    apply Map_get_None in Hg. rewrite (get_miss _ _ Hg). reflexivity.
Qed.

End OneRequest.

(** X12.  In both servers one request makes at most one call to the
    detector; [cache.set] is called exactly as often as the detector; and
    the detector is only called when it is ready and the cache holds
    nothing under the key of the request. *)
Theorem one_detector_call_per_request (I : Type) (D : Detector I)
    (req : Request) (s : State I) :
  (forall cfg : DigestKey.Config,
      let s' := snd (DigestKey.classify cfg req s) in
      exists calls,
        detector_calls (trace s') = detector_calls (trace s) ++ calls
        /\ (List.length calls <= 1)%nat
        /\ List.length (cache_writes (trace s'))
           = (List.length (cache_writes (trace s)) + List.length calls)%nat
        /\ (calls <> [] ->
            identifier s <> None
            /\ Map_get (DigestKey.cache_key (topN_or_1 req)
                          (DigestKey.normalize cfg (text req)))
                       (LRU.map (cache s)) = None))
  /\ (forall cfg : ExactKey.Config,
         let s' := snd (ExactKey.classify cfg req s) in
         exists calls,
           detector_calls (trace s') = detector_calls (trace s) ++ calls
           /\ (List.length calls <= 1)%nat
           /\ List.length (cache_writes (trace s'))
              = (List.length (cache_writes (trace s)) + List.length calls)%nat
           /\ (calls <> [] ->
               identifier s <> None
               /\ Map_get (ExactKey.cache_key (topN_or_1 req)
                             (ExactKey.normalize (text req)))
                          (LRU.map (cache s)) = None)).
Proof.
  split; intros cfg s'; subst s'.
  - destruct (digest_cases cfg req s)
      as [E|[[idf [out [Hid [Hg E]]]]|[idf [Hid [Hne [Hs [Hg E]]]]]]].
    + exists []. rewrite E, app_nil_r.
      repeat split; try (simpl; lia); congruence.
    + exists []. rewrite E. simpl snd. simpl trace.
      rewrite detector_calls_app, cache_writes_app, length_app. simpl.
      repeat split; try lia; congruence.
    + destruct (detect_is_call I D idf (DigestKey.normalize cfg (text req))
                  (topN_or_1 req)) as [Hcall Hset].
      exists [snd (detect idf (DigestKey.normalize cfg (text req))
                     (topN_or_1 req))].
      rewrite E. cbv zeta. simpl snd. simpl trace.
      rewrite detector_calls_app, cache_writes_app, length_app. simpl.
      rewrite Hcall, Hset. simpl.
      repeat split; try lia; try congruence.
  - destruct (exact_cases cfg req s)
      as [E|[[idf [out [Hid [Hg E]]]]|[idf [Hid [Hne [Hs [Hg E]]]]]]].
    + exists []. rewrite E, app_nil_r.
      repeat split; try (simpl; lia); congruence.
    + exists []. rewrite E. simpl snd. simpl trace.
      rewrite detector_calls_app, cache_writes_app, length_app. simpl.
      repeat split; try lia; congruence.
    + destruct (detect_is_call I D idf (ExactKey.normalize (text req))
                  (topN_or_1 req)) as [Hcall Hset].
      exists [snd (detect idf (ExactKey.normalize (text req))
                     (topN_or_1 req))].
      rewrite E. cbv zeta. simpl snd. simpl trace.
      rewrite detector_calls_app, cache_writes_app, length_app. simpl.
      rewrite Hcall, Hset. simpl.
      repeat split; try lia; try congruence.
Qed.

(** ** What holds of the cache for as long as the process lives *)

Section Lifetime.

Context {I : Type}.
Variable classify : Request -> State I -> Reply * State I.

(** A property of the state that the handler of [POST /classify] keeps
    holds of every process that comes after a process that has it. *)
Lemma reachable_invariant (P : State I -> Prop) (p0 p : Process I) :
  (forall req s, P s -> P (snd (classify req s))) ->
  P (state p0) ->
  reachable classify p0 p -> P (state p).
Proof.
  intros Hkeep Hstart Hreach.
  induction Hreach as [|p p' l Hreach IH Hstep]; [exact Hstart|].
  inversion Hstep as [q r Hserv| |]; subst; simpl; try exact IH.
  destruct r as [| |req]; simpl.
  - exact IH.
  - unfold ready. destruct (identifier (state p)); exact IH.
  - apply Hkeep. exact IH.
Qed.

End Lifetime.

Lemma initDetector_cache (I : Type) (a b : Z) (w : World I) (s s1 : State I) :
  initDetector a b w s = Returned s1 -> cache s1 = cache s.
Proof.
  unfold initDetector. destruct (loadModule w) as [factory|]; [|discriminate].
  destruct (create factory a b); [|discriminate].
  intros E. inversion E. reflexivity.
Qed.

Section MainFacts.

Context {I : Type} `{Detector I}.

Lemma digest_main_cache (cfg : DigestKey.Config) (w : World I) :
  cache (state (DigestKey.main cfg w)) = LRU.new (DigestKey.CACHE_MAX cfg).
Proof.
  unfold DigestKey.main. cbv zeta.
  destruct (negb (helmet w)); [reflexivity|].
  destruct ((DigestKey.RATE_LIMIT_MAX cfg >? 0) && negb (rateLimit w));
    [reflexivity|].
  destruct (initDetector _ _ w _) as [s1|] eqn:Ei; [|reflexivity].
  apply initDetector_cache in Ei.
  destruct (listen w); simpl; exact Ei.
Qed.

Lemma exact_main_cache (cfg : ExactKey.Config) (w : World I) :
  cache (state (ExactKey.main cfg w)) = LRU.new (ExactKey.CACHE_MAX cfg).
Proof.
  unfold ExactKey.main. cbv zeta.
  destruct (negb (helmet w)); [reflexivity|].
  destruct (negb (compress w)); [reflexivity|].
  destruct ((ExactKey.RATE_LIMIT_MAX cfg >? 0) && negb (rateLimit w));
    [reflexivity|].
  destruct (initDetector _ _ w _) as [s1|] eqn:Ei; [|reflexivity].
  apply initDetector_cache in Ei.
  destruct (listen w); simpl; exact Ei.
Qed.

(** The handlers change the cache through calls of [get] and [set] only. *)
Lemma digest_cache_run (cfg : DigestKey.Config) (req : Request) (s : State I) :
  exists ops, cache (snd (DigestKey.classify cfg req s))
              = LRU.run ops (cache s).
Proof.
  destruct (digest_cases cfg req s)
    as [E|[[idf [out [_ [_ E]]]]|[idf [_ [_ [_ [_ E]]]]]]].
  - exists []. rewrite E. reflexivity.
  - eexists. rewrite E. reflexivity.
  - eexists. rewrite E. reflexivity.
Qed.

Lemma exact_cache_run (cfg : ExactKey.Config) (req : Request) (s : State I) :
  exists ops, cache (snd (ExactKey.classify cfg req s))
              = LRU.run ops (cache s).
Proof.
  destruct (exact_cases cfg req s)
    as [E|[[idf [out [_ [_ E]]]]|[idf [_ [_ [_ [_ E]]]]]]].
  - exists []. rewrite E. reflexivity.
  - eexists. rewrite E. reflexivity.
  - eexists. rewrite E. reflexivity.
Qed.

End MainFacts.

(** The caches that a new cache of capacity [mx] can become. *)
Lemma run_of_run (V : Type) (mx : Z) (ops1 ops2 : list (LRU.Op V)) :
  LRU.run ops2 (LRU.run ops1 (LRU.new mx)) = LRU.run (ops1 ++ ops2) (LRU.new mx).
Proof. unfold LRU.run. symmetry. apply fold_left_app. Qed.

Section ReachableCache.

Context {I : Type} `{Detector I}.

Lemma digest_reachable_run (cfg : DigestKey.Config) (w : World I)
    (p : Process I) :
  reachable (DigestKey.classify cfg) (DigestKey.main cfg w) p ->
  exists ops, cache (state p)
              = LRU.run ops (LRU.new (DigestKey.CACHE_MAX cfg)).
Proof.
  apply (reachable_invariant (DigestKey.classify cfg)
           (fun s => exists ops,
                cache s = LRU.run ops (LRU.new (DigestKey.CACHE_MAX cfg)))).
  - intros req s [ops1 E1].
    destruct (digest_cache_run cfg req s) as [ops2 E2].
    exists (ops1 ++ ops2). rewrite E2, E1. apply run_of_run.
  - exists []. apply digest_main_cache.
Qed.

Lemma exact_reachable_run (cfg : ExactKey.Config) (w : World I)
    (p : Process I) :
  reachable (ExactKey.classify cfg) (ExactKey.main cfg w) p ->
  exists ops, cache (state p)
              = LRU.run ops (LRU.new (ExactKey.CACHE_MAX cfg)).
Proof.
  apply (reachable_invariant (ExactKey.classify cfg)
           (fun s => exists ops,
                cache s = LRU.run ops (LRU.new (ExactKey.CACHE_MAX cfg)))).
  - intros req s [ops1 E1].
    destruct (exact_cache_run cfg req s) as [ops2 E2].
    exists (ops1 ++ ops2). rewrite E2, E1. apply run_of_run.
  - exists []. apply exact_main_cache.
Qed.

End ReachableCache.

(** X13.  In both servers, at every moment of the life of the process, the
    cache is what a sequence of [get] and [set] calls makes of
    [new LRU(CACHE_MAX)]: its capacity is [CACHE_MAX], no key occurs
    twice, it holds at most [CACHE_MAX] entries when [CACHE_MAX >= 1], and
    none when [CACHE_MAX <= 0]. *)
Theorem service_cache_bounded (I : Type) (D : Detector I) :
  (forall (cfg : DigestKey.Config) (w : World I) (p : Process I),
      reachable (DigestKey.classify cfg) (DigestKey.main cfg w) p ->
      let c := cache (state p) in
      (exists ops, c = LRU.run ops (LRU.new (DigestKey.CACHE_MAX cfg)))
      /\ LRU.max c = DigestKey.CACHE_MAX cfg
      /\ NoDup (Map_keys (LRU.map c))
      /\ (1 <= DigestKey.CACHE_MAX cfg ->
          Map_size (LRU.map c) <= DigestKey.CACHE_MAX cfg)
      /\ (DigestKey.CACHE_MAX cfg <= 0 -> LRU.map c = []))
  /\ (forall (cfg : ExactKey.Config) (w : World I) (p : Process I),
         reachable (ExactKey.classify cfg) (ExactKey.main cfg w) p ->
         let c := cache (state p) in
         (exists ops, c = LRU.run ops (LRU.new (ExactKey.CACHE_MAX cfg)))
         /\ LRU.max c = ExactKey.CACHE_MAX cfg
         /\ NoDup (Map_keys (LRU.map c))
         /\ (1 <= ExactKey.CACHE_MAX cfg ->
             Map_size (LRU.map c) <= ExactKey.CACHE_MAX cfg)
         /\ (ExactKey.CACHE_MAX cfg <= 0 -> LRU.map c = [])).
Proof.
  assert (Hfacts : forall mx (ops : list (LRU.Op ClassificationResponse)),
             let c := LRU.run ops (LRU.new mx) in
             LRU.max c = mx
             /\ NoDup (Map_keys (LRU.map c))
             /\ (1 <= mx -> Map_size (LRU.map c) <= mx)
             /\ (mx <= 0 -> LRU.map c = [])).
  { intros mx ops c.
    pose proof (inv_run ops [] (LRU.new mx) (inv_new mx)) as Hinv.
    fold c in Hinv. destruct Hinv as [Hord [Hsz Hoff]].
    assert (Hmax : LRU.max c = mx) by (unfold c; rewrite run_max; reflexivity).
    rewrite Hmax in Hsz, Hoff.
    split; [exact Hmax|]. split; [exact (ordered_NoDup _ _ Hord)|].
    split; assumption. }
  split.
  - intros cfg w p Hreach c.
    pose proof (digest_reachable_run cfg w p Hreach) as Hops.
    split; [exact Hops|]. destruct Hops as [ops E]. unfold c. rewrite E.
    apply Hfacts.
  - intros cfg w p Hreach c.
    pose proof (exact_reachable_run cfg w p Hreach) as Hops.
    split; [exact Hops|]. destruct Hops as [ops E]. unfold c. rewrite E.
    apply Hfacts.
Qed.

Lemma service_cache_bounded_witness :
  let cfg := DigestKey.defaults in
  let classify := DigestKey.classify (I := nat) cfg in
  let p := DigestKey.main cfg Double.world in
  let r := PostClassify (Double.request "Dzien dobry, jak sie masz?" None) in
  let p' := {| phase := phase p; state := snd (handle classify r (state p)) |} in
  reachable classify p p'
  /\ 1 <= DigestKey.CACHE_MAX cfg
  /\ Map_size (LRU.map (cache (state p'))) <= DigestKey.CACHE_MAX cfg.
Proof.
  intros cfg classify p r p'.
  assert (Hreach : reachable classify p p').
  { apply (reachable_step classify p p p'
             (Served r (fst (handle classify r (state p))))).
    - apply reachable_start.
    - apply step_served. reflexivity. }
  assert (Hmax : 1 <= DigestKey.CACHE_MAX cfg) by (simpl; lia).
  split; [exact Hreach|]. split; [exact Hmax|].
  destruct (proj1 (service_cache_bounded nat Double.counting)
              cfg Double.world p' Hreach) as [_ [_ [_ [Hsz _]]]].
  exact (Hsz Hmax).
Defined.

(** ** A server without cache *)

Lemma run_disabled_empty (V : Type) (mx : Z) (ops : list (LRU.Op V)) :
  mx <= 0 -> LRU.map (LRU.run ops (LRU.new mx)) = [].
Proof.
  intros Hmx.
  pose proof (inv_run ops [] (LRU.new mx) (inv_new mx)) as [_ [_ Hoff]].
  apply Hoff. rewrite run_max. exact Hmx.
Qed.

(** X14.  In both servers started with [CACHE_MAX <= 0], every request
    that is served with a text that is neither empty nor too short calls
    the detector, once and on the normalized text, however often the same
    request has been made before. *)
Theorem disabled_cache_always_detects (I : Type) (D : Detector I) :
  (forall (cfg : DigestKey.Config) (w : World I) (p : Process I)
          (req : Request),
      DigestKey.CACHE_MAX cfg <= 0 ->
      reachable (DigestKey.classify cfg) (DigestKey.main cfg w) p ->
      serving (phase p) = true ->
      DigestKey.normalize cfg (text req) <> [] ->
      DigestKey.too_short cfg (DigestKey.normalize cfg (text req)) = false ->
      exists ev,
        is_detector_call ev = true
        /\ detector_text ev = Some (DigestKey.normalize cfg (text req))
        /\ detector_calls (trace (snd (DigestKey.classify cfg req (state p))))
           = detector_calls (trace (state p)) ++ [ev])
  /\ (forall (cfg : ExactKey.Config) (w : World I) (p : Process I)
             (req : Request),
         ExactKey.CACHE_MAX cfg <= 0 ->
         reachable (ExactKey.classify cfg) (ExactKey.main cfg w) p ->
         serving (phase p) = true ->
         ExactKey.normalize (text req) <> [] ->
         ExactKey.too_short cfg (ExactKey.normalize (text req)) = false ->
         exists ev,
           is_detector_call ev = true
           /\ detector_text ev = Some (ExactKey.normalize (text req))
           /\ detector_calls (trace (snd (ExactKey.classify cfg req (state p))))
              = detector_calls (trace (state p)) ++ [ev]).
Proof.
  split.
  - intros cfg w p req Hoff Hreach Hserv Hne Hs.
    destruct (digest_reachable_run cfg w p Hreach) as [ops Eops].
    assert (Hempty : LRU.map (cache (state p)) = [])
      by (rewrite Eops; apply run_disabled_empty; exact Hoff).
    pose proof (serving_has_detector (DigestKey.classify cfg)
                  (digest_keeps cfg) (DigestKey.main cfg w) p
                  (digest_main_ready cfg w) Hreach Hserv) as Hid.
    destruct (identifier (state p)) as [idf|] eqn:Eid; [|congruence].
    exists (snd (detect idf (DigestKey.normalize cfg (text req))
                   (topN_or_1 req))).
    destruct (detect_is_call I D idf (DigestKey.normalize cfg (text req))
                (topN_or_1 req)) as [Hcall _].
    split; [exact Hcall|]. split; [apply detect_event|].
    rewrite (digest_miss cfg req (state p) idf Eid Hne Hs)
      by (rewrite Hempty; reflexivity).
    cbv zeta. simpl snd. simpl trace. rewrite detector_calls_app. simpl.
    rewrite Hcall. reflexivity.
  - intros cfg w p req Hoff Hreach Hserv Hne Hs.
    destruct (exact_reachable_run cfg w p Hreach) as [ops Eops].
    assert (Hempty : LRU.map (cache (state p)) = [])
      by (rewrite Eops; apply run_disabled_empty; exact Hoff).
    pose proof (serving_has_detector (ExactKey.classify cfg)
                  (exact_keeps cfg) (ExactKey.main cfg w) p
                  (exact_main_ready cfg w) Hreach Hserv) as Hid.
    destruct (identifier (state p)) as [idf|] eqn:Eid; [|congruence].
    exists (snd (detect idf (ExactKey.normalize (text req))
                   (topN_or_1 req))).
    destruct (detect_is_call I D idf (ExactKey.normalize (text req))
                (topN_or_1 req)) as [Hcall _].
    split; [exact Hcall|]. split; [apply detect_event|].
    rewrite (exact_miss cfg req (state p) idf Eid Hne Hs)
      by (rewrite Hempty; reflexivity).
    cbv zeta. simpl snd. simpl trace. rewrite detector_calls_app. simpl.
    rewrite Hcall. reflexivity.
Qed.

Lemma disabled_cache_always_detects_witness :
  let cfg := {| DigestKey.CACHE_MAX := 0; DigestKey.MIN_LEN := 10;
                DigestKey.MAX_INPUT_CHARS := 4000;
                DigestKey.RATE_LIMIT_MAX := 0;
                DigestKey.CLD_MIN_BYTES := 0;
                DigestKey.CLD_MAX_BYTES := 1000 |} in
  let classify := DigestKey.classify (I := nat) cfg in
  let req := Double.request "Dzien dobry, jak sie masz?" None in
  let p := DigestKey.main cfg Double.world in
  let p' := {| phase := phase p;
               state := snd (handle classify (PostClassify req) (state p)) |} in
  DigestKey.CACHE_MAX cfg <= 0
  /\ reachable classify p p'
  /\ serving (phase p') = true
  /\ List.length
       (detector_calls (trace (snd (DigestKey.classify cfg req (state p')))))
     = 2%nat.
Proof.
  intros cfg classify req p p'.
  assert (Hoff : DigestKey.CACHE_MAX cfg <= 0) by (simpl; lia).
  assert (Hreach : reachable classify p p').
  { apply (reachable_step classify p p p'
             (Served (PostClassify req)
                (fst (handle classify (PostClassify req) (state p))))).
    - apply reachable_start.
    - apply step_served. reflexivity. }
  assert (Hserv : serving (phase p') = true) by reflexivity.
  assert (Hne : DigestKey.normalize cfg (text req) <> [])
    by (vm_compute; discriminate).
  assert (Hs : DigestKey.too_short cfg (DigestKey.normalize cfg (text req))
               = false) by reflexivity.
  repeat (split; [assumption|]).
  destruct (proj1 (disabled_cache_always_detects nat Double.counting)
              cfg Double.world p' req Hoff Hreach Hserv Hne Hs)
    as [ev [_ [_ E]]].
  rewrite E, length_app. reflexivity.
Defined.

(** ** The replies of server.js fit the request, cached or not *)

Section EntriesKept.

Context {V : Type} (P : jsstring * V -> Prop).

Lemma Map_get_In (key : jsstring) (v : V) (m : Map V) :
  Map_get key m = Some v -> In (key, v) m.
Proof.
  induction m as [|[k x] m IH]; simpl; [discriminate|].
  destruct (str_eqb key k) eqn:E.
  - apply str_eqb_eq in E. subst k. intros Ev. inversion Ev. left; reflexivity.
  - intros Hg. right. apply IH. exact Hg.
Qed.

Lemma Forall_Map_delete (key : jsstring) (m : Map V) :
  Forall P m -> Forall P (Map_delete key m).
Proof.
  intros Hall. apply Forall_forall. intros e He.
  apply filter_In in He. rewrite Forall_forall in Hall. apply Hall, He.
Qed.

Lemma Forall_get (key : jsstring) (c : LRU.t V) :
  Forall P (LRU.map c) -> Forall P (LRU.map (snd (LRU.get key c))).
Proof.
  intros Hall. destruct (Map_get key (LRU.map c)) as [v|] eqn:Hg.
  - rewrite (get_hit _ _ _ Hg). simpl. apply Forall_app. split.
    + apply Forall_Map_delete. exact Hall.
    + constructor; [|constructor]. rewrite Forall_forall in Hall.
      apply Hall. apply Map_get_In. exact Hg.
  - apply Map_get_None in Hg. rewrite (get_miss _ _ Hg). exact Hall.
Qed.

Lemma Forall_set (key : jsstring) (val : V) (c : LRU.t V) :
  Forall P (LRU.map c) -> P (key, val) ->
  Forall P (LRU.map (LRU.set key val c)).
Proof.
  intros Hall Hnew.
  destruct (Z.le_gt_cases (LRU.max c) 0) as [Hoff|Hon].
  - rewrite set_disabled by exact Hoff. exact Hall.
  - rewrite set_enabled by lia. cbv zeta. simpl.
    assert (H2 : Forall P (Map_delete key (LRU.map c) ++ [(key, val)])).
    { apply Forall_app. split; [apply Forall_Map_delete; exact Hall|].
      constructor; [exact Hnew | constructor]. }
    destruct (Map_size _ >? LRU.max c); [|exact H2].
    destruct (Map_first_key _); [|exact H2].
    apply Forall_Map_delete. exact H2.
Qed.

End EntriesKept.

Section FittingReplies.

Context {I : Type} `{Detector I}.

Lemma digest_keeps_well_keyed (cfg : DigestKey.Config) (req : Request)
    (s : State I) :
  Forall well_keyed (LRU.map (cache s)) ->
  Forall well_keyed (LRU.map (cache (snd (DigestKey.classify cfg req s)))).
Proof.
  intros Hall.
  destruct (digest_cases cfg req s)
    as [E|[[idf [out [_ [_ E]]]]|[idf [_ [_ [_ [Hg E]]]]]]].
  - rewrite E. exact Hall.
  - rewrite E. simpl. apply Forall_get. exact Hall.
  - rewrite E. cbv zeta. simpl snd. simpl cache.
    unfold LRU.run. cbn [fold_left LRU.step].
    apply Forall_set; [apply Forall_get; exact Hall|].
    exists (topN_or_1 req), (DigestKey.normalize cfg (text req)).
    split; [reflexivity|]. split; [reflexivity|]. apply detect_shaped.
Qed.

Lemma digest_reply_fits (cfg : DigestKey.Config) (req : Request)
    (s : State I) (out : ClassificationResponse) :
  Forall well_keyed (LRU.map (cache s)) ->
  fst (DigestKey.classify cfg req s) = returned (ResponseBody out) ->
  input_len out = length (DigestKey.normalize cfg (text req))
  /\ shaped (topN_or_1 req) (cld3 out) = true.
Proof.
  intros Hall Hr.
  destruct (identifier s) as [idf|] eqn:Hid;
    [|rewrite digest_not_ready in Hr by exact Hid; discriminate].
  destruct (list_eq_dec Z.eq_dec (DigestKey.normalize cfg (text req)) [])
    as [Et|Hne];
    [rewrite (digest_empty cfg req s idf Hid Et) in Hr; discriminate|].
  destruct (DigestKey.too_short cfg (DigestKey.normalize cfg (text req)))
    eqn:Hs.
  - rewrite (digest_fast_fail cfg req s idf Hid Hne Hs) in Hr.
    inversion Hr. simpl. split; [reflexivity|].
    destruct (topN_or_1 req =? 1) eqn:E; simpl; rewrite E; reflexivity.
  - destruct (Map_get (DigestKey.cache_key (topN_or_1 req)
                         (DigestKey.normalize cfg (text req)))
                (LRU.map (cache s))) as [hit|] eqn:Hg.
    + rewrite (digest_hit cfg req s idf hit Hid Hne Hs Hg) in Hr.
      inversion Hr. subst hit.
      apply Map_get_In in Hg. rewrite Forall_forall in Hall.
      destruct (Hall _ Hg) as [n [t [Ek [El Esh]]]]. simpl in Ek, El, Esh.
      apply digest_key_equal_iff_l in Ek. destruct Ek as [En [_ Elen]].
      rewrite En, Elen. split; assumption.
    + rewrite (digest_miss cfg req s idf Hid Hne Hs Hg) in Hr.
      inversion Hr. simpl. split; [reflexivity | apply detect_shaped].
Qed.

Lemma digest_main_empty (cfg : DigestKey.Config) (w : World I) :
  Forall well_keyed (LRU.map (cache (state (DigestKey.main cfg w)))).
Proof. rewrite digest_main_cache. constructor. Qed.

End FittingReplies.

(** X15.  In server.js, at every moment of the life of the process, a 200
    reply carries the length of the normalized text of the request as
    [input_len], and a [cld3] field of the shape that goes with its
    [topN] (one object for 1, an array otherwise), also when the reply
    comes from the cache and also when two texts share a cache key: the
    key keeps [topN] and the length apart. *)
Theorem digest_replies_fit_request (I : Type) (D : Detector I)
    (cfg : DigestKey.Config) (w : World I) (p : Process I) (req : Request)
    (out : ClassificationResponse) :
  reachable (DigestKey.classify cfg) (DigestKey.main cfg w) p ->
  fst (DigestKey.classify cfg req (state p)) = returned (ResponseBody out) ->
  input_len out = length (DigestKey.normalize cfg (text req))
  /\ shaped (topN_or_1 req) (cld3 out) = true.
Proof.
  intros Hreach Hr. apply (digest_reply_fits cfg req (state p) out); [|exact Hr].
  apply (reachable_invariant (DigestKey.classify cfg)
           (fun s => Forall well_keyed (LRU.map (cache s)))
           (DigestKey.main cfg w) p); [| |exact Hreach].
  - intros req' s. apply digest_keeps_well_keyed.
  - apply digest_main_empty.
Qed.

(** On the test double: the text "sea sea dog a pig" is classified with
    [topN = 3], and then the colliding text "mud cow way bee a", with the
    same [topN], is answered from the cache. *)
Lemma digest_replies_fit_request_witness :
  let cfg := DigestKey.defaults in
  let classify := DigestKey.classify (I := nat) cfg in
  let r1 := PostClassify {| text := Double.sea; topN := Some 3 |} in
  let req2 := {| text := Double.mud; topN := Some 3 |} in
  let p := DigestKey.main cfg Double.world in
  let p' := {| phase := phase p; state := snd (handle classify r1 (state p)) |} in
  let out := {| input_len := 17; cld3 := Ranked [Double.pl] |} in
  reachable classify p p'
  /\ fst (DigestKey.classify cfg req2 (state p')) = returned (ResponseBody out)
  /\ input_len out = length (DigestKey.normalize cfg (text req2))
  /\ shaped (topN_or_1 req2) (cld3 out) = true.
Proof.
  intros cfg classify r1 req2 p p' out.
  assert (Hreach : reachable classify p p').
  { apply (reachable_step classify p p p'
             (Served r1 (fst (handle classify r1 (state p))))).
    - apply reachable_start.
    - apply step_served. reflexivity. }
  assert (Hr : fst (DigestKey.classify cfg req2 (state p'))
               = returned (ResponseBody out)) by (vm_compute; reflexivity).
  split; [exact Hreach|]. split; [exact Hr|].
  exact (digest_replies_fit_request nat Double.counting cfg Double.world p'
           req2 out Hreach Hr).
Defined.

(** ** The exact-key server: a reply meant for another request *)








(** ** Shutting down *)



(** ** White space around the text does not matter *)

Lemma trimStart_app_white (pre s : jsstring) :
  Forall (fun c => is_white_space c = true) pre ->
  trimStart (pre ++ s) = trimStart s.
Proof.
  induction 1 as [|c pre Hc Hpre IH]; simpl; [reflexivity|].
  rewrite Hc. exact IH.
Qed.

Lemma trimStart_app_kept (s post : jsstring) :
  trimStart s <> [] -> trimStart (s ++ post) = trimStart s ++ post.
Proof.
  induction s as [|c s IH]; simpl; [congruence|].
  destruct (is_white_space c); [exact IH | reflexivity].
Qed.

Lemma trimEnd_app_white (s post : jsstring) :
  Forall (fun c => is_white_space c = true) post ->
  trimEnd (s ++ post) = trimEnd s.
Proof.
  intros Hpost. unfold trimEnd. rewrite rev_app_distr.
  rewrite trimStart_app_white by (apply Forall_rev; exact Hpost).
  reflexivity.
Qed.

Lemma trim_padding (pre s post : jsstring) :
  Forall (fun c => is_white_space c = true) pre ->
  Forall (fun c => is_white_space c = true) post ->
  trim (pre ++ s ++ post) = trim s.
Proof.
  intros Hpre Hpost. unfold trim. rewrite (trimStart_app_white pre _ Hpre).
  destruct (list_eq_dec Z.eq_dec (trimStart s) []) as [E|Hne].
  - destruct (trimStart_spec s) as [ws [Es [Hws _]]].
    rewrite E, app_nil_r in Es. subst ws.
    rewrite E, trimStart_white; [reflexivity|].
    apply Forall_app. split; assumption.
  - rewrite (trimStart_app_kept s post Hne). apply trimEnd_app_white.
    exact Hpost.
Qed.

(** X18.  In both servers a request is treated by what its text is after
    normalization, and by [topN]: two requests with the same [topN] whose
    texts differ only by white space added in front and behind get the
    same reply and leave the same state, in every state. *)
Theorem padding_is_ignored (I : Type) (D : Detector I)
    (raw pre post : jsstring) (n : option Z) (s : State I) :
  Forall (fun c => is_white_space c = true) pre ->
  Forall (fun c => is_white_space c = true) post ->
  (forall cfg : DigestKey.Config,
      DigestKey.classify cfg {| text := pre ++ raw ++ post; topN := n |} s
      = DigestKey.classify cfg {| text := raw; topN := n |} s)
  /\ (forall cfg : ExactKey.Config,
         ExactKey.classify cfg {| text := pre ++ raw ++ post; topN := n |} s
         = ExactKey.classify cfg {| text := raw; topN := n |} s).
Proof.
  intros Hpre Hpost. split; intros cfg.
  - unfold DigestKey.classify, DigestKey.normalize, topN_or_1. simpl text.
    simpl topN. rewrite (trim_padding pre raw post Hpre Hpost). reflexivity.
  - unfold ExactKey.classify, ExactKey.normalize, topN_or_1. simpl text.
    simpl topN. rewrite (trim_padding pre raw post Hpre Hpost). reflexivity.
Qed.

Lemma padding_is_ignored_witness :
  let pre := [32; 9] in
  let post := [13; 10] in
  Forall (fun c => is_white_space c = true) pre
  /\ Forall (fun c => is_white_space c = true) post
  /\ DigestKey.classify DigestKey.defaults
       {| text := pre ++ lit "Dzien dobry" ++ post; topN := None |}
       (Double.ready 5)
     = DigestKey.classify DigestKey.defaults
         {| text := lit "Dzien dobry"; topN := None |} (Double.ready 5).
Proof.
  intros pre post.
  assert (Hpre : Forall (fun c => is_white_space c = true) pre)
    by (repeat (constructor; [reflexivity|]); constructor).
  assert (Hpost : Forall (fun c => is_white_space c = true) post)
    by (repeat (constructor; [reflexivity|]); constructor).
  split; [exact Hpre|]. split; [exact Hpost|].
  exact (proj1 (padding_is_ignored nat Double.counting (lit "Dzien dobry")
                  pre post None (Double.ready 5) Hpre Hpost)
           DigestKey.defaults).
Defined.

(** ** The further properties at concrete inputs *)

Lemma digest_key_equal_iff_witness :
  1 = 1 /\ fnv1a Double.sea = fnv1a Double.mud
  /\ length Double.sea = length Double.mud
  /\ DigestKey.cache_key 1 Double.sea = DigestKey.cache_key 1 Double.mud.
Proof.
  assert (Hn : 1 = 1) by reflexivity.
  assert (Hl : length Double.sea = length Double.mud) by reflexivity.
  split; [exact Hn|]. split; [exact sea_mud_hash|]. split; [exact Hl|].
  exact (proj2 (digest_key_equal_iff 1 1 Double.sea Double.mud)
           (conj Hn (conj sea_mud_hash Hl))).
Defined.

Lemma exact_key_equal_iff_witness :
  let t1 := toString 2 ++ [0] ++ lit "abc" in
  (1 = 1 /\ 2 <> 1 /\ t1 = toString 2 ++ [0] ++ lit "abc")
  /\ ExactKey.cache_key 1 t1 = ExactKey.cache_key 2 (lit "abc").
Proof.
  intros t1.
  assert (Hc : 1 = 1 /\ 2 <> 1 /\ t1 = toString 2 ++ [0] ++ lit "abc")
    by (split; [reflexivity | split; [lia | reflexivity]]).
  split; [exact Hc|].
  exact (proj2 (exact_key_equal_iff 1 2 t1 (lit "abc"))
           (or_intror (or_introl Hc))).
Defined.

Lemma one_detector_call_per_request_witness :
  let req := Double.request "Dzien dobry, jak sie masz?" None in
  let s := Double.ready 5 in
  exists calls,
    detector_calls (trace (snd (DigestKey.classify DigestKey.defaults req s)))
    = detector_calls (trace s) ++ calls
    /\ (List.length calls <= 1)%nat.
Proof.
  intros req s.
  destruct (proj1 (one_detector_call_per_request nat Double.counting req s)
              DigestKey.defaults) as [calls [E [Hlen _]]].
  exists calls. split; [exact E | exact Hlen].
Defined.
